(** * noble-secp256k1: affine and Jacobian scalar multiplication

    Shallow embedding of [src/unnamed/part_000] (the full implementation,
    module [Part000]) and of [src/secp256k1.ts] (the earlier affine-only
    file, module [Secp256k1Ts]).  JavaScript [bigint] is [Z]; the operators
    [/] and [%] truncate towards zero, so they are [Z.quot] and [Z.rem];
    [&] and [>>] are the two's complement [Z.land] and [Z.shiftr].
    A thrown exception is the [Err] branch of [result]. *)

From Bignums Require Import BigZ.
From Stdlib Require Import ZArith Bool List Lia.
From Stdlib Require Import Zmod.ZmodDef Zmod.ZmodBase Zmod.ZmodInv.
From Stdlib Require Import Field.
Import ListNotations.
Local Open Scope Z_scope.

(** ** Exceptions *)

Inductive error : Type :=
| InvertExpectedPositive (* Error('invert: expected positive integers') *)
| InvertDoesNotExist     (* Error('invert: does not exist') *)
| RangeError             (* bigint [%] or [/] with a zero divisor *)
| TypeError              (* property read on [undefined], [instanceof] guard *)
| OutOfFuel.             (* a [while] loop of the model ran out of fuel *)

Inductive result (A : Type) : Type :=
| Ok (a : A)
| Err (e : error).
Arguments Ok {A} a.
Arguments Err {A} e.

Definition bind {A B : Type} (r : result A) (k : A -> result B) : result B :=
  match r with
  | Ok a => k a
  | Err e => Err e
  end.

Notation "x <- r ;; k" := (bind r (fun x => k))
  (at level 61, r at next level, right associativity).

Definition is_err {A : Type} (r : result A) : bool :=
  match r with Ok _ => false | Err _ => true end.

(** The spec's DomainError: either of the two exceptions of [invert]. *)
Definition DomainError (e : error) : bool :=
  match e with
  | InvertExpectedPositive | InvertDoesNotExist => true
  | _ => false
  end.

(** ** Curve parameters (identical in both files) *)

Module CURVE.
Definition a : Z := 0.
Definition b : Z := 7.
Definition P : Z := 2 ^ 256 - 2 ^ 32 - 977.
Definition n : Z := 2 ^ 256 - 432420386565659656852420866394968145599.
Definition h : Z := 1.
Definition Gx : Z :=
  55066263022277343669578718895168534326250603453777594175500187360389116729240.
Definition Gy : Z :=
  32670510020758816978083085130507043184471273380659243275938904335757337482424.
Definition beta : Z :=
  0x7ae96a2b657c07106e64479eac3434e99cf0497512f58995c1396c28719501ee.
End CURVE.

(** ** Field arithmetic shared by both files *)

(** [mod(a, b)]: [a % b] throws a RangeError when [b] is [0n]. *)
Definition mod_ (a b : Z) : result Z :=
  if b =? 0 then Err RangeError
  else
    let result := Z.rem a b in
    Ok (if result >=? 0 then result else b + result).

(** The [while (a !== 0n)] loop of [egcd], on the six variables. *)
Fixpoint egcd_loop (fuel : nat) (a b x y u v : Z) : result (Z * Z * Z) :=
  match fuel with
  | O => Err OutOfFuel
  | S fuel' =>
      if negb (a =? 0) then
        let q := Z.quot b a in
        let r := Z.rem b a in
        let m := x - u * q in
        let n := y - v * q in
        egcd_loop fuel' r a u v m n
      else Ok (b, x, y)
  end.

(** Two iterations more than halve [|a|], so this many suffice. *)
Definition egcd_fuel (a : Z) : nat :=
  (2 * Z.to_nat (Z.log2 (Z.abs a) + 1) + 1)%nat.

Definition egcd (a b : Z) : result (Z * Z * Z) :=
  egcd_loop (egcd_fuel a) a b 0 1 1 0.

(** Fuel for the [while (n > 0n)] loop of [multiplyDA]: one iteration per
    bit of [n], and the last test of the condition. *)
Definition multiplyDA_fuel (n : Z) : nat := (Z.to_nat (Z.log2 n) + 2)%nat.

(** ** Points *)

Record Point : Type := mkPoint { Px : Z; Py : Z }.

Record JacobianPoint : Type := mkJacobianPoint { Jx : Z; Jy : Z; Jz : Z }.

Definition Point_ZERO : Point := mkPoint 0 0.
Definition JacobianPoint_BASE : JacobianPoint :=
  mkJacobianPoint CURVE.Gx CURVE.Gy 1.
Definition JacobianPoint_ZERO : JacobianPoint := mkJacobianPoint 0 1 0.
Definition G : Point := mkPoint CURVE.Gx CURVE.Gy.

(** The two module-level variables [precomputes] and [precomputesJ];
    [None] is [undefined]. *)
Record Store : Type := mkStore {
  precomputes : option (list Point);
  precomputesJ : option (list JacobianPoint)
}.

Definition empty_store : Store := mkStore None None.

(** ** src/unnamed/part_000 *)

Module Part000.

Definition invert (number modulo : Z) : result Z :=
  if (number =? 0) || (modulo <=? 0) then Err InvertExpectedPositive
  else
    a <- mod_ number modulo ;;
    r <- egcd a modulo ;;
    let '(gcd, x, _) := r in
    if negb (gcd =? 1) then Err InvertDoesNotExist
    else mod_ x modulo.

Definition Point_double (this : Point) : result Point :=
  let X1 := Px this in
  let Y1 := Py this in
  i <- invert (2 * Y1) CURVE.P ;;
  lam <- mod_ (3 * X1 ^ 2 * i) CURVE.P ;;
  X3 <- mod_ (lam * lam - 2 * X1) CURVE.P ;;
  Y3 <- mod_ (lam * (X1 - X3) - Y1) CURVE.P ;;
  Ok (mkPoint X3 Y3).

Definition Point_add (this other : Point) : result Point :=
  let a := this in
  let b := other in
  let X1 := Px a in
  let Y1 := Py a in
  let X2 := Px b in
  let Y2 := Py b in
  if (X1 =? 0) || (Y1 =? 0) then Ok b
  else if (X2 =? 0) || (Y2 =? 0) then Ok a
  else if (X1 =? X2) && (Y1 =? Y2) then Point_double this
  else if (X1 =? X2) && (Y1 =? - Y2) then Ok Point_ZERO
  else
    i <- invert (X2 - X1) CURVE.P ;;
    lam <- mod_ ((Y2 - Y1) * i) CURVE.P ;;
    X3 <- mod_ (lam * lam - X1 - X2) CURVE.P ;;
    Y3 <- mod_ (lam * (X1 - X3) - Y1) CURVE.P ;;
    Ok (mkPoint X3 Y3).

(** [while (n > 0n)] of [multiplyDA]; [n & 1n] is truthy when nonzero. *)
Fixpoint multiplyDA_loop (fuel : nat) (p d : Point) (n : Z) : result Point :=
  match fuel with
  | O => Err OutOfFuel
  | S fuel' =>
      if n >? 0 then
        p' <- (if negb (Z.land n 1 =? 0) then Point_add p d else Ok p) ;;
        d' <- Point_double d ;;
        multiplyDA_loop fuel' p' d' (Z.shiftr n 1)
      else Ok p
  end.

Definition multiplyDA (this : Point) (n : Z) : result Point :=
  multiplyDA_loop (multiplyDA_fuel n) Point_ZERO this n.

Definition getPublicKey (privKey : Z) : result Point :=
  multiplyDA G privKey.

(** The [for] loop of [getPrecomputes].  The array is filled in place,
    so a throwing [double] leaves the entries pushed so far in the
    module-level variable. *)
Fixpoint getPrecomputes_loop (k : nat) (acc : list Point) (dbl : Point)
  : list Point * result unit :=
  match k with
  | O => (acc, Ok tt)
  | S k' =>
      let acc' := acc ++ [dbl] in
      match Point_double dbl with
      | Err e => (acc', Err e)
      | Ok dbl' => getPrecomputes_loop k' acc' dbl'
      end
  end.

(** [if (precomputes) return precomputes]: any array is truthy. *)
Definition getPrecomputes (st : Store) (this : Point)
  : Store * result (list Point) :=
  match precomputes st with
  | Some t => (st, Ok t)
  | None =>
      let '(t, r) := getPrecomputes_loop 256 [] this in
      (mkStore (Some t) (precomputesJ st), _ <- r ;; Ok t)
  end.

(** [for (let i = 0; dbl = dbls[i], i < 256; i++)]: [k] iterations are
    left and [i] is the index; a missing entry is [undefined], and
    [add(undefined)] throws a TypeError when it reads [b.x]. *)
Fixpoint multiplyCT_loop (k i : nat) (dbls : list Point) (n : Z)
  (p f : Point) : result Point :=
  match k with
  | O => Ok p
  | S k' =>
      match nth_error dbls i with
      | None => Err TypeError
      | Some dbl =>
          if Z.land n 1 =? 1 then
            p' <- Point_add p dbl ;;
            multiplyCT_loop k' (S i) dbls (Z.shiftr n 1) p' f
          else
            f' <- Point_add f dbl ;;
            multiplyCT_loop k' (S i) dbls (Z.shiftr n 1) p f'
      end
  end.

Definition multiplyCT (st : Store) (this : Point) (n : Z)
  : Store * result Point :=
  let '(st', r) := getPrecomputes st this in
  (st', dbls <- r ;; multiplyCT_loop 256 0 dbls n Point_ZERO Point_ZERO).

(** [fromAffine]: the [instanceof Point] guard holds by typing. *)
Definition JacobianPoint_fromAffine (p : Point) : JacobianPoint :=
  mkJacobianPoint (Px p) (Py p) 1.

(** [toAffine(invZ)] with the argument given. *)
Definition JacobianPoint_toAffine_with (this : JacobianPoint) (invZ : Z)
  : result Point :=
  let invZ2 := invZ ^ 2 in
  x <- mod_ (Jx this * invZ2) CURVE.P ;;
  y <- mod_ (Jy this * invZ2 * invZ) CURVE.P ;;
  Ok (mkPoint x y).

(** [toAffine()] with the default [invZ = invert(this.z)]. *)
Definition JacobianPoint_toAffine (this : JacobianPoint) : result Point :=
  invZ <- invert (Jz this) CURVE.P ;;
  JacobianPoint_toAffine_with this invZ.

Definition JacobianPoint_double (this : JacobianPoint)
  : result JacobianPoint :=
  let X1 := Jx this in
  let Y1 := Jy this in
  let Z1 := Jz this in
  let A := X1 ^ 2 in
  let B := Y1 ^ 2 in
  let C := B ^ 2 in
  let D := 2 * ((X1 + B) ^ 2 - A - C) in
  let E := 3 * A in
  let F := E ^ 2 in
  X3 <- mod_ (F - 2 * D) CURVE.P ;;
  Y3 <- mod_ (E * (D - X3) - 8 * C) CURVE.P ;;
  Z3 <- mod_ (2 * Y1 * Z1) CURVE.P ;;
  Ok (mkJacobianPoint X3 Y3 Z3).

Definition JacobianPoint_add (this other : JacobianPoint)
  : result JacobianPoint :=
  let X1 := Jx this in
  let Y1 := Jy this in
  let Z1 := Jz this in
  let X2 := Jx other in
  let Y2 := Jy other in
  let Z2 := Jz other in
  if (X2 =? 0) || (Y2 =? 0) then Ok this
  else if (X1 =? 0) || (Y1 =? 0) then Ok other
  else
    let Z1Z1 := Z1 ^ 2 in
    let Z2Z2 := Z2 ^ 2 in
    let U1 := X1 * Z2Z2 in
    let U2 := X2 * Z1Z1 in
    let S1 := Y1 * Z2 * Z2Z2 in
    let S2 := Y2 * Z1 * Z1Z1 in
    H <- mod_ (U2 - U1) CURVE.P ;;
    r <- mod_ (S2 - S1) CURVE.P ;;
    if H =? 0 then
      if r =? 0 then JacobianPoint_double this
      else Ok JacobianPoint_ZERO
    else
      HH <- mod_ (H ^ 2) CURVE.P ;;
      HHH <- mod_ (H * HH) CURVE.P ;;
      let V := U1 * HH in
      X3 <- mod_ (r ^ 2 - HHH - 2 * V) CURVE.P ;;
      Y3 <- mod_ (r * (V - X3) - S1 * HHH) CURVE.P ;;
      Z3 <- mod_ (Z1 * Z2 * H) CURVE.P ;;
      Ok (mkJacobianPoint X3 Y3 Z3).

Fixpoint getPrecomputesJ_loop (k : nat) (acc : list JacobianPoint)
  (dbl : JacobianPoint) : list JacobianPoint * result unit :=
  match k with
  | O => (acc, Ok tt)
  | S k' =>
      let acc' := acc ++ [dbl] in
      match JacobianPoint_double dbl with
      | Err e => (acc', Err e)
      | Ok dbl' => getPrecomputesJ_loop k' acc' dbl'
      end
  end.

Definition getPrecomputesJ (st : Store) (this : Point)
  : Store * result (list JacobianPoint) :=
  match precomputesJ st with
  | Some t => (st, Ok t)
  | None =>
      let '(t, r) :=
        getPrecomputesJ_loop 256 [] (JacobianPoint_fromAffine this) in
      (mkStore (precomputes st) (Some t), _ <- r ;; Ok t)
  end.

(** The loop of [multiplyPreCTJ]; on a missing entry the
    [instanceof JacobianPoint] guard of [add] throws. *)
Fixpoint multiplyPreCTJ_loop (k i : nat) (dbls : list JacobianPoint)
  (n : Z) (p f : JacobianPoint) : result JacobianPoint :=
  match k with
  | O => Ok p
  | S k' =>
      match nth_error dbls i with
      | None => Err TypeError
      | Some dbl =>
          if Z.land n 1 =? 1 then
            p' <- JacobianPoint_add p dbl ;;
            multiplyPreCTJ_loop k' (S i) dbls (Z.shiftr n 1) p' f
          else
            f' <- JacobianPoint_add f dbl ;;
            multiplyPreCTJ_loop k' (S i) dbls (Z.shiftr n 1) p f'
      end
  end.

Definition multiplyPreCTJ (st : Store) (this : Point) (n : Z)
  : Store * result Point :=
  let '(st', r) := getPrecomputesJ st this in
  (st',
   dbls <- r ;;
   p <- multiplyPreCTJ_loop 256 0 dbls n
          JacobianPoint_ZERO JacobianPoint_ZERO ;;
   JacobianPoint_toAffine p).

End Part000.

(** ** src/secp256k1.ts *)

Module Secp256k1Ts.

(** The guard tests [number] twice and never [modulo]. *)
Definition invert (number modulo : Z) : result Z :=
  if (number =? 0) || (number <=? 0) then Err InvertExpectedPositive
  else
    a <- mod_ number modulo ;;
    r <- egcd a modulo ;;
    let '(gcd, x, _) := r in
    if negb (gcd =? 1) then Err InvertDoesNotExist
    else mod_ x modulo.

Definition Point_double (this : Point) : result Point :=
  let X1 := Px this in
  let Y1 := Py this in
  i <- invert (2 * Y1) CURVE.P ;;
  lam <- mod_ (3 * X1 ^ 2 * i) CURVE.P ;;
  X3 <- mod_ (lam * lam - 2 * X1) CURVE.P ;;
  Y3 <- mod_ (lam * (X1 - X3) - Y1) CURVE.P ;;
  Ok (mkPoint X3 Y3).

(** Here [lam] is [mod(Y2 - Y1) * invert(X2 - X1, CURVE.P)], not reduced. *)
Definition Point_add (this other : Point) : result Point :=
  let a := this in
  let b := other in
  let X1 := Px a in
  let Y1 := Py a in
  let X2 := Px b in
  let Y2 := Py b in
  if (X1 =? 0) || (Y1 =? 0) then Ok b
  else if (X2 =? 0) || (Y2 =? 0) then Ok a
  else if (X1 =? X2) && (Y1 =? Y2) then Point_double this
  else if (X1 =? X2) && (Y1 =? - Y2) then Ok Point_ZERO
  else
    m <- mod_ (Y2 - Y1) CURVE.P ;;
    i <- invert (X2 - X1) CURVE.P ;;
    let lam := m * i in
    X3 <- mod_ (lam * lam - X1 - X2) CURVE.P ;;
    Y3 <- mod_ (lam * (X1 - X3) - Y1) CURVE.P ;;
    Ok (mkPoint X3 Y3).

Fixpoint multiplyDA_loop (fuel : nat) (p d : Point) (n : Z) : result Point :=
  match fuel with
  | O => Err OutOfFuel
  | S fuel' =>
      if n >? 0 then
        p' <- (if negb (Z.land n 1 =? 0) then Point_add p d else Ok p) ;;
        d' <- Point_double d ;;
        multiplyDA_loop fuel' p' d' (Z.shiftr n 1)
      else Ok p
  end.

Definition multiplyDA (this : Point) (n : Z) : result Point :=
  multiplyDA_loop (multiplyDA_fuel n) Point_ZERO this n.

Definition getPublicKey (privKey : Z) : result Point :=
  multiplyDA G privKey.

End Secp256k1Ts.

(** ** Certified evaluation on machine-word integers

    The functions above, run on [bigZ] so that the concrete scalar
    multiplications below can be evaluated.  [Fast.invert] does not run
    [egcd]: it guesses the inverse and checks it with one multiplication,
    and answers [None] when the check fails.  The soundness lemmas further
    down carry every answer [Some r] back to the functions of the model. *)

Module Fast.

Definition bP : bigZ := BigZ.of_Z CURVE.P.

Record bPoint : Type := mkbPoint { bx : bigZ; by_ : bigZ }.
Record bJacobian : Type := mkbJacobian { jx : bigZ; jy : bigZ; jz : bigZ }.

Definition toPoint (p : bPoint) : Point :=
  mkPoint (BigZ.to_Z (bx p)) (BigZ.to_Z (by_ p)).
Definition ofPoint (p : Point) : bPoint :=
  mkbPoint (BigZ.of_Z (Px p)) (BigZ.of_Z (Py p)).
Definition toJacobian (p : bJacobian) : JacobianPoint :=
  mkJacobianPoint (BigZ.to_Z (jx p)) (BigZ.to_Z (jy p)) (BigZ.to_Z (jz p)).

Definition map_result {A B : Type} (f : A -> B) (r : result A) : result B :=
  match r with
  | Ok a => Ok (f a)
  | Err e => Err e
  end.

(** An evaluation that may give up. *)
Definition cbind {A B : Type} (c : option (result A))
  (k : A -> option (result B)) : option (result B) :=
  match c with
  | Some (Ok a) => k a
  | Some (Err e) => Some (Err e)
  | None => None
  end.

(** A certified answer is the answer of the model; no answer says
    nothing. *)
Definition agrees {A B : Type} (f : A -> B) (c : option (result A))
  (m : result B) : Prop :=
  match c with
  | Some r => m = map_result f r
  | None => True
  end.

Notation "x <~ c ;; k" := (cbind c (fun x => k))
  (at level 61, c at next level, right associativity).

Local Open Scope bigZ_scope.

(** The guess: Euclid's algorithm on [bigZ], tracking one coefficient.
    Nothing is proved about it. *)
Fixpoint guess_loop (fuel : nat) (a b x u : bigZ) : bigZ :=
  match fuel with
  | O => 0
  | S fuel' =>
      if a =? 0 then x
      else
        let (q, r) := BigZ.div_eucl b a in
        guess_loop fuel' r a u (x - u * q)
  end.

Definition inverse_guess (a : bigZ) : bigZ :=
  guess_loop 600 (a mod bP) bP 0 1 mod bP.

Definition invert (number : bigZ) : option (result bigZ) :=
  if number =? 0 then Some (Err InvertExpectedPositive)
  else
    let i := inverse_guess number in
    if (0 <=? i) && (i <? bP) && (number * i mod bP =? 1)
    then Some (Ok i)
    else None.

Definition bPoint_ZERO : bPoint := mkbPoint 0 0.

Definition Point_double (this : bPoint) : option (result bPoint) :=
  let X1 := bx this in
  let Y1 := by_ this in
  i <~ invert (2 * Y1) ;;
  let lam := (3 * (X1 * X1) * i) mod bP in
  let X3 := (lam * lam - 2 * X1) mod bP in
  let Y3 := (lam * (X1 - X3) - Y1) mod bP in
  Some (Ok (mkbPoint X3 Y3)).

Definition Point_add (this other : bPoint) : option (result bPoint) :=
  let X1 := bx this in
  let Y1 := by_ this in
  let X2 := bx other in
  let Y2 := by_ other in
  if (X1 =? 0) || (Y1 =? 0) then Some (Ok other)
  else if (X2 =? 0) || (Y2 =? 0) then Some (Ok this)
  else if (X1 =? X2) && (Y1 =? Y2) then Point_double this
  else if (X1 =? X2) && (Y1 =? - Y2) then Some (Ok bPoint_ZERO)
  else
    i <~ invert (X2 - X1) ;;
    let lam := ((Y2 - Y1) * i) mod bP in
    let X3 := (lam * lam - X1 - X2) mod bP in
    let Y3 := (lam * (X1 - X3) - Y1) mod bP in
    Some (Ok (mkbPoint X3 Y3)).

Fixpoint multiplyDA_loop (fuel : nat) (p d : bPoint) (n : Z)
  : option (result bPoint) :=
  match fuel with
  | O => Some (Err OutOfFuel)
  | S fuel' =>
      if (n >? 0)%Z then
        p' <~ (if negb (Z.land n 1 =? 0)%Z then Point_add p d
               else Some (Ok p)) ;;
        d' <~ Point_double d ;;
        multiplyDA_loop fuel' p' d' (Z.shiftr n 1)
      else Some (Ok p)
  end.

Fixpoint getPrecomputes_loop (k : nat) (acc : list bPoint) (dbl : bPoint)
  : option (list bPoint * result unit) :=
  match k with
  | O => Some (acc, Ok tt)
  | S k' =>
      let acc' := acc ++ [dbl] in
      match Point_double dbl with
      | None => None
      | Some (Err e) => Some (acc', Err e)
      | Some (Ok dbl') => getPrecomputes_loop k' acc' dbl'
      end
  end.

Fixpoint multiplyCT_loop (k i : nat) (dbls : list bPoint) (n : Z)
  (p f : bPoint) : option (result bPoint) :=
  match k with
  | O => Some (Ok p)
  | S k' =>
      match nth_error dbls i with
      | None => Some (Err TypeError)
      | Some dbl =>
          if (Z.land n 1 =? 1)%Z then
            p' <~ Point_add p dbl ;;
            multiplyCT_loop k' (S i) dbls (Z.shiftr n 1) p' f
          else
            f' <~ Point_add f dbl ;;
            multiplyCT_loop k' (S i) dbls (Z.shiftr n 1) p f'
      end
  end.

(** [multiplyCT] started with no table in the store. *)
Definition multiplyCT (this : bPoint) (n : Z) : option (result bPoint) :=
  match getPrecomputes_loop 256 [] this with
  | Some (t, Ok _) => multiplyCT_loop 256 0 t n bPoint_ZERO bPoint_ZERO
  | Some (_, Err e) => Some (Err e)
  | None => None
  end.

Definition bJacobian_ZERO : bJacobian := mkbJacobian 0 1 0.

Definition JacobianPoint_fromAffine (p : bPoint) : bJacobian :=
  mkbJacobian (bx p) (by_ p) 1.

Definition JacobianPoint_toAffine (this : bJacobian)
  : option (result bPoint) :=
  invZ <~ invert (jz this) ;;
  let invZ2 := invZ * invZ in
  let x := (jx this * invZ2) mod bP in
  let y := (jy this * invZ2 * invZ) mod bP in
  Some (Ok (mkbPoint x y)).

Definition JacobianPoint_double (this : bJacobian) : bJacobian :=
  let X1 := jx this in
  let Y1 := jy this in
  let Z1 := jz this in
  let A := X1 * X1 in
  let B := Y1 * Y1 in
  let C := B * B in
  let D := 2 * ((X1 + B) * (X1 + B) - A - C) in
  let E := 3 * A in
  let F := E * E in
  let X3 := (F - 2 * D) mod bP in
  let Y3 := (E * (D - X3) - 8 * C) mod bP in
  let Z3 := (2 * Y1 * Z1) mod bP in
  mkbJacobian X3 Y3 Z3.

Definition JacobianPoint_add (this other : bJacobian) : bJacobian :=
  let X1 := jx this in
  let Y1 := jy this in
  let Z1 := jz this in
  let X2 := jx other in
  let Y2 := jy other in
  let Z2 := jz other in
  if (X2 =? 0) || (Y2 =? 0) then this
  else if (X1 =? 0) || (Y1 =? 0) then other
  else
    let Z1Z1 := Z1 * Z1 in
    let Z2Z2 := Z2 * Z2 in
    let U1 := X1 * Z2Z2 in
    let U2 := X2 * Z1Z1 in
    let S1 := Y1 * Z2 * Z2Z2 in
    let S2 := Y2 * Z1 * Z1Z1 in
    let H := (U2 - U1) mod bP in
    let r := (S2 - S1) mod bP in
    if H =? 0 then
      if r =? 0 then JacobianPoint_double this
      else bJacobian_ZERO
    else
      let HH := (H * H) mod bP in
      let HHH := (H * HH) mod bP in
      let V := U1 * HH in
      let X3 := (r * r - HHH - 2 * V) mod bP in
      let Y3 := (r * (V - X3) - S1 * HHH) mod bP in
      let Z3 := (Z1 * Z2 * H) mod bP in
      mkbJacobian X3 Y3 Z3.

Fixpoint getPrecomputesJ_loop (k : nat) (acc : list bJacobian)
  (dbl : bJacobian) : list bJacobian :=
  match k with
  | O => acc
  | S k' =>
      getPrecomputesJ_loop k' (acc ++ [dbl]) (JacobianPoint_double dbl)
  end.

Fixpoint multiplyPreCTJ_loop (k i : nat) (dbls : list bJacobian)
  (n : Z) (p f : bJacobian) : result bJacobian :=
  match k with
  | O => Ok p
  | S k' =>
      match nth_error dbls i with
      | None => Err TypeError
      | Some dbl =>
          if (Z.land n 1 =? 1)%Z then
            multiplyPreCTJ_loop k' (S i) dbls (Z.shiftr n 1)
              (JacobianPoint_add p dbl) f
          else
            multiplyPreCTJ_loop k' (S i) dbls (Z.shiftr n 1)
              p (JacobianPoint_add f dbl)
      end
  end.

(** [multiplyPreCTJ] started with no table in the store. *)
Definition multiplyPreCTJ (this : bPoint) (n : Z)
  : option (result bPoint) :=
  let t := getPrecomputesJ_loop 256 [] (JacobianPoint_fromAffine this) in
  match multiplyPreCTJ_loop 256 0 t n bJacobian_ZERO bJacobian_ZERO with
  | Ok p => JacobianPoint_toAffine p
  | Err e => Some (Err e)
  end.

(** Results read back as values of the model. *)
Definition readPoint (c : option (result bPoint)) : option (result Point) :=
  option_map (map_result toPoint) c.

End Fast.

(** ** Primality certificates

    [CURVE.P] is prime; the inverse law needs it.  A certificate for [N]
    lists prime powers [q ^ e] dividing [N - 1], each with a base [a]
    (Pocklington's criterion); small primes are checked by trial division. *)

Module Primality.

Fixpoint no_divisor_from (fuel : nat) (d q : Z) : bool :=
  match fuel with
  | O => false
  | S fuel' =>
      if q <? d * d then true
      else if q mod d =? 0 then false
      else no_divisor_from fuel' (d + 1) q
  end.

Definition small_prime (q : Z) : bool :=
  (1 <? q) && no_divisor_from (S (Z.to_nat (Z.sqrt q))) 2 q.

Fixpoint powmod_pos (a : bigZ) (k : positive) (m : bigZ) : bigZ :=
  match k with
  | xH => (a mod m)%bigZ
  | xO k' =>
      let r := powmod_pos a k' m in
      (r * r mod m)%bigZ
  | xI k' =>
      let r := powmod_pos a k' m in
      (a * (r * r mod m) mod m)%bigZ
  end.

(** [a ^ k mod m]. *)
Definition powmod (a k m : Z) : Z :=
  match k with
  | Z0 => 1 mod m
  | Zpos p => BigZ.to_Z (powmod_pos (BigZ.of_Z a) p (BigZ.of_Z m))
  | Zneg _ => 0
  end.

Definition pock_item (N : Z) (c : Z * Z * Z) : bool :=
  let '(q, e, a) := c in
  (0 <? e) && ((N - 1) mod q ^ e =? 0) && (powmod a (N - 1) N =? 1) &&
  (Z.gcd (powmod a ((N - 1) / q) N - 1) N =? 1).

Definition pock_F (cert : list (Z * Z * Z)) : Z :=
  fold_right (fun c F => let '(q, e, _) := c in Z.lcm (q ^ e) F) 1 cert.

Definition pocklington (N : Z) (cert : list (Z * Z * Z)) : bool :=
  (1 <? N) && forallb (pock_item N) cert &&
  (N <? pock_F cert * pock_F cert).

(** The factors of [CURVE.P - 1] that the certificates go through. *)
Definition q1 : Z :=
  205115282021455665897114700593932402728804164701536103180137503955397371.
Definition q2 : Z := 255515944373312847190720520512484175977.

Definition cert_P : list (Z * Z * Z) := [(q1, 1, 2)].
Definition cert_q1 : list (Z * Z * Z) := [(q2, 1, 2)].
Definition cert_q2 : list (Z * Z * Z) :=
  [(2, 3, 3); (7, 2, 2); (11, 1, 2); (1627, 1, 2); (2657, 1, 2);
   (4423, 1, 2); (41201, 1, 2); (96557, 1, 2)].

End Primality.

(** ** The curve

    The header of both files gives the curve as [y^2 = x^3 + ax + b] over
    the field of [CURVE.P].  A point is on the curve when its coordinates
    are reduced into [[0, P)] and satisfy the equation; a Jacobian triple
    [(X, Y, Z)] with [Z] not zero stands for [(X / Z^2, Y / Z^3)]. *)

Definition reduced (x : Z) : bool := (0 <=? x) && (x <? CURVE.P).

Definition on_curve (p : Point) : bool :=
  reduced (Px p) && reduced (Py p) &&
  ((Py p ^ 2 - (Px p ^ 3 + CURVE.a * Px p + CURVE.b)) mod CURVE.P =? 0).

Definition on_curve_J (j : JacobianPoint) : bool :=
  reduced (Jx j) && reduced (Jy j) && reduced (Jz j) && negb (Jz j =? 0) &&
  ((Jy j ^ 2 - (Jx j ^ 3 + CURVE.a * Jx j * Jz j ^ 4 + CURVE.b * Jz j ^ 6))
     mod CURVE.P =? 0).

(** Integers read as elements of the field of [CURVE.P]. *)
Definition fe (x : Z) : Zmod CURVE.P := Zmod.of_Z CURVE.P x.

(** A Jacobian curve point [j] and the affine point it converts to. *)
Definition represents (j : JacobianPoint) (a : Point) : Prop :=
  on_curve_J j = true /\ Part000.JacobianPoint_toAffine j = Ok a.

(** The accumulators of the two loops: both at their sentinel, or the
    same curve point. *)
Definition same_point (j : JacobianPoint) (a : Point) : Prop :=
  (j = JacobianPoint_ZERO /\ a = Point_ZERO) \/ represents j a.

(** * Field arithmetic: properties *)

Lemma P_value :
  CURVE.P =
  115792089237316195423570985008687907853269984665640564039457584007908834671663.
Proof. reflexivity. Qed.

Lemma P_pos : 0 < CURVE.P.
Proof. reflexivity. Qed.

Lemma P_gt_1 : 1 < CURVE.P.
Proof. reflexivity. Qed.

Lemma P_odd : Z.odd CURVE.P = true.
Proof. reflexivity. Qed.

(** For a positive modulus [mod] is the mathematical residue. *)
Lemma mod_pos (a b : Z) : 0 < b -> mod_ a b = Ok (a mod b).
Proof.
  intros Hb. unfold mod_.
  destruct (Z.eqb_spec b 0) as [->|_]; [lia|].
  f_equal.
  pose proof (Z.rem_bound_abs a b ltac:(lia)) as Hr.
  pose proof (Z.quot_rem' a b) as Hq.
  destruct (Z.geb_spec (Z.rem a b) 0) as [Hge|Hlt].
  - apply (Z.mod_unique a b (Z.quot a b)); lia.
  - apply (Z.mod_unique a b (Z.quot a b - 1)); lia.
Qed.

Lemma mod_P (a : Z) : mod_ a CURVE.P = Ok (a mod CURVE.P).
Proof. apply mod_pos, P_pos. Qed.

Lemma mod_zero (a : Z) : mod_ a 0 = Err RangeError.
Proof. reflexivity. Qed.

(** ** [egcd] *)

Section Egcd.
Variables a0 b0 : Z.

(** The loop keeps both pairs of coefficients Bezout combinations of the
    inputs. *)
Lemma egcd_loop_bezout (fuel : nat) :
  forall a b x y u v g x' y',
    a0 * x + b0 * y = b ->
    a0 * u + b0 * v = a ->
    egcd_loop fuel a b x y u v = Ok (g, x', y') ->
    a0 * x' + b0 * y' = g.
Proof.
  induction fuel as [|fuel IH]; intros a b x y u v g x' y' Hb Ha; simpl.
  - discriminate.
  - destruct (Z.eqb_spec a 0) as [->|Hnz]; simpl.
    + intros [= <- <- <-]. exact Hb.
    + apply IH; [exact Ha|].
      pose proof (Z.quot_rem' b a) as Hq. nia.
Qed.

(** What the loop returns as gcd is, up to sign, the gcd. *)
Lemma egcd_loop_gcd (fuel : nat) :
  forall a b x y u v g x' y',
    egcd_loop fuel a b x y u v = Ok (g, x', y') ->
    Z.abs g = Z.gcd a b.
Proof.
  induction fuel as [|fuel IH]; intros a b x y u v g x' y'; simpl.
  - discriminate.
  - destruct (Z.eqb_spec a 0) as [->|Hnz]; simpl.
    + intros [= <- _ _]. symmetry. apply Z.gcd_0_l.
    + intros H. apply IH in H. rewrite H. exact (Z.gcd_rem b a Hnz).
Qed.

Lemma egcd_loop_nonneg (fuel : nat) :
  forall a b x y u v g x' y',
    0 <= a -> 0 <= b ->
    egcd_loop fuel a b x y u v = Ok (g, x', y') ->
    0 <= g.
Proof.
  induction fuel as [|fuel IH]; intros a b x y u v g x' y' Ha Hb; simpl.
  - discriminate.
  - destruct (Z.eqb_spec a 0) as [->|Hnz]; simpl.
    + intros [= <- _ _]. exact Hb.
    + apply IH; [|exact Ha].
      apply Z.rem_nonneg; lia.
Qed.
End Egcd.

(** Two iterations take [|a|] below its half. *)
Lemma rem_rem_half (a b : Z) :
  a <> 0 -> Z.rem b a <> 0 ->
  2 * Z.abs (Z.rem a (Z.rem b a)) < Z.abs a.
Proof.
  intros Ha Hr.
  pose proof (Z.rem_bound_abs b a Ha) as H1.
  pose proof (Z.rem_bound_abs a (Z.rem b a) Hr) as H2.
  pose proof (Z.quot_rem' a (Z.rem b a)) as Hq.
  pose proof (Z.rem_sign_mul a (Z.rem b a) Hr) as Hs.
  set (r := Z.rem b a) in *. set (r2 := Z.rem a r) in *.
  set (q := Z.quot a r) in *.
  assert (q <> 0) by (intros E; rewrite E in Hq; lia).
  assert (Z.abs (r * q) = Z.abs a - Z.abs r2) by nia.
  assert (Z.abs r <= Z.abs (r * q)) by (rewrite Z.abs_mul; nia).
  lia.
Qed.

Lemma egcd_loop_terminates (n : nat) :
  forall a b x y u v,
    Z.abs a < 2 ^ Z.of_nat n ->
    exists res, egcd_loop (2 * n + 1) a b x y u v = Ok res.
Proof.
  induction n as [|n IH]; intros a b x y u v Ha.
  - simpl in *. assert (a = 0) as -> by lia. simpl. eauto.
  - replace (2 * S n + 1)%nat with (S (S (2 * n + 1))) by lia.
    cbn [egcd_loop].
    destruct (Z.eqb_spec a 0) as [->|Hnz]; cbn [negb]; [eauto|].
    destruct (Z.eqb_spec (Z.rem b a) 0) as [E|Hr]; cbn [negb]; [eauto|].
    apply IH.
    pose proof (rem_rem_half a b Hnz Hr).
    rewrite Nat2Z.inj_succ, Z.pow_succ_r in Ha by lia. lia.
Qed.

(** The [while] loop of [egcd] always ends. *)
Lemma egcd_terminates (a b : Z) : exists g x y, egcd a b = Ok (g, x, y).
Proof.
  unfold egcd, egcd_fuel.
  destruct (egcd_loop_terminates (Z.to_nat (Z.log2 (Z.abs a) + 1))
              a b 0 1 1 0) as [[[g x] y] H].
  - pose proof (Z.log2_nonneg (Z.abs a)).
    rewrite Z2Nat.id by lia.
    destruct (Z.eq_dec a 0) as [->|Hnz]; [reflexivity|].
    pose proof (Z.log2_spec (Z.abs a) ltac:(lia)). 
    unfold Z.succ in *. lia.
  - eauto.
Qed.

Lemma egcd_bezout (a b g x y : Z) :
  egcd a b = Ok (g, x, y) -> a * x + b * y = g.
Proof.
  unfold egcd. apply egcd_loop_bezout; lia.
Qed.

Lemma egcd_gcd (a b g x y : Z) :
  0 <= a -> 0 <= b -> egcd a b = Ok (g, x, y) -> g = Z.gcd a b.
Proof.
  unfold egcd. intros Ha Hb H.
  pose proof (egcd_loop_nonneg _ _ _ _ _ _ _ _ _ _ Ha Hb H).
  apply egcd_loop_gcd in H. lia.
Qed.

(** ** [invert] of part_000 *)

Lemma invert_guard (number modulo : Z) :
  number = 0 \/ modulo <= 0 ->
  Part000.invert number modulo = Err InvertExpectedPositive.
Proof.
  intros H. unfold Part000.invert.
  destruct (Z.eqb_spec number 0); [reflexivity|].
  destruct (Z.leb_spec modulo 0); [reflexivity|lia].
Qed.

(** Past the guard, [invert] is decided by the gcd that [egcd] returns. *)
Lemma invert_unfold (number modulo : Z) :
  number <> 0 -> 0 < modulo ->
  exists x y,
    egcd (number mod modulo) modulo = Ok (Z.gcd number modulo, x, y) /\
    Part000.invert number modulo =
      if negb (Z.gcd number modulo =? 1) then Err InvertDoesNotExist
      else Ok (x mod modulo).
Proof.
  intros Hn Hm. unfold Part000.invert.
  destruct (Z.eqb_spec number 0); [contradiction|].
  destruct (Z.leb_spec modulo 0); [lia|]. cbn [orb].
  rewrite mod_pos by exact Hm. cbn [bind].
  destruct (egcd_terminates (number mod modulo) modulo) as (g & x & y & E).
  pose proof (Z.mod_pos_bound number modulo Hm) as Hb.
  assert (g = Z.gcd number modulo) as ->.
  { rewrite (egcd_gcd (number mod modulo) modulo g x y) by (lia || exact E).
    apply Z.gcd_mod_l. }
  exists x, y. split; [exact E|].
  rewrite E. cbn [bind].
  destruct (negb (Z.gcd number modulo =? 1)); [reflexivity|].
  apply mod_pos, Hm.
Qed.

Lemma invert_not_coprime (number modulo : Z) :
  number <> 0 -> 0 < modulo -> Z.gcd number modulo <> 1 ->
  Part000.invert number modulo = Err InvertDoesNotExist.
Proof.
  intros Hn Hm Hg.
  destruct (invert_unfold number modulo Hn Hm) as (x & y & _ & ->).
  destruct (Z.eqb_spec (Z.gcd number modulo) 1); [contradiction|reflexivity].
Qed.

Lemma invert_coprime (number modulo : Z) :
  number <> 0 -> 0 < modulo -> Z.gcd number modulo = 1 ->
  exists r,
    Part000.invert number modulo = Ok r /\
    0 <= r < modulo /\
    (number * r) mod modulo = 1 mod modulo.
Proof.
  intros Hn Hm Hg.
  destruct (invert_unfold number modulo Hn Hm) as (x & y & E & ->).
  rewrite Hg in *. cbn [Z.eqb Pos.eqb negb].
  exists (x mod modulo). split; [reflexivity|].
  split; [apply Z.mod_pos_bound, Hm|].
  apply egcd_bezout in E.
  rewrite Z.mul_mod_idemp_r by lia.
  rewrite <- (Z.mul_mod_idemp_l number) by lia.
  replace (number mod modulo * x) with (1 + (- y) * modulo) by lia.
  apply Z.mod_add. lia.
Qed.

(** A residue that multiplies [number] to [1] is what [invert] returns. *)
Lemma invert_unique (number modulo i : Z) :
  number <> 0 -> 0 <= i < modulo ->
  (number * i) mod modulo = 1 ->
  Part000.invert number modulo = Ok i.
Proof.
  intros Hn Hi H1.
  assert (Hm : 0 < modulo) by lia.
  assert (Hg : Z.gcd number modulo = 1).
  { pose proof (Z.gcd_divide_l number modulo) as Hl.
    pose proof (Z.gcd_divide_r number modulo) as Hr.
    pose proof (Z.gcd_nonneg number modulo) as Hp.
    apply Z.divide_1_r_nonneg; [exact Hp|].
    pose proof (Z.div_mod (number * i) modulo ltac:(lia)) as Hd.
    rewrite H1 in Hd.
    replace 1 with (number * i - modulo * (number * i / modulo)) by lia.
    apply Z.divide_sub_r.
    - now apply Z.divide_mul_l.
    - now apply Z.divide_mul_l. }
  destruct (invert_coprime number modulo Hn Hm Hg) as (r & -> & Hr & Hnr).
  f_equal.
  assert (Hone : 1 mod modulo = 1).
  { apply Z.mod_small. destruct (Z.eq_dec modulo 1) as [->|]; [|lia].
    rewrite Z.mod_1_r in H1. discriminate. }
  rewrite Hone in Hnr.
  rewrite <- (Z.mod_small r modulo Hr), <- (Z.mod_small i modulo Hi).
  rewrite <- (Z.mul_1_r r), <- H1 at 1.
  rewrite Z.mul_mod_idemp_r by lia.
  replace (r * (number * i)) with (number * r * i) by ring.
  rewrite <- Z.mul_mod_idemp_l by lia.
  rewrite Hnr. now rewrite Z.mul_1_l.
Qed.

(** Whatever [invert] raises is one of its own two exceptions. *)
Lemma invert_error (number modulo : Z) (e : error) :
  Part000.invert number modulo = Err e -> DomainError e = true.
Proof.
  destruct (Z.eq_dec number 0) as [H0|Hn].
  { rewrite invert_guard by auto. now intros [= <-]. }
  destruct (Z.le_gt_cases modulo 0) as [Hle|Hm].
  { rewrite invert_guard by auto. now intros [= <-]. }
  destruct (invert_unfold number modulo Hn Hm) as (x & y & _ & ->).
  destruct (negb _); [now intros [= <-]|discriminate].
Qed.

(** ** [invert] of secp256k1.ts *)

Lemma invert_ts_positive (number modulo : Z) :
  0 < number -> Secp256k1Ts.invert number modulo = 
    if modulo <=? 0 then Secp256k1Ts.invert number modulo
    else Part000.invert number modulo.
Proof.
  intros Hn. destruct (Z.leb_spec modulo 0) as [|Hm]; [reflexivity|].
  unfold Secp256k1Ts.invert, Part000.invert.
  destruct (Z.eqb_spec number 0); [lia|].
  destruct (Z.leb_spec number 0); [lia|].
  destruct (Z.leb_spec modulo 0); [lia|]. reflexivity.
Qed.

Lemma invert_ts_nonpositive (number modulo : Z) :
  number <= 0 -> Secp256k1Ts.invert number modulo = Err InvertExpectedPositive.
Proof.
  intros Hn. unfold Secp256k1Ts.invert.
  destruct (Z.eqb_spec number 0); [reflexivity|].
  destruct (Z.leb_spec number 0); [reflexivity|lia].
Qed.

(** * Affine points: properties *)

Lemma Point_double_error (p : Point) (e : error) :
  Part000.Point_double p = Err e -> DomainError e = true.
Proof.
  unfold Part000.Point_double.
  destruct (Part000.invert (2 * Py p) CURVE.P) as [i|e'] eqn:E; cbn [bind].
  - rewrite !mod_P. cbn [bind]. discriminate.
  - intros [= <-]. exact (invert_error _ _ _ E).
Qed.

Lemma Point_add_error (p q : Point) (e : error) :
  Part000.Point_add p q = Err e -> DomainError e = true.
Proof.
  unfold Part000.Point_add.
  destruct (_ || _); [discriminate|].
  destruct (_ || _); [discriminate|].
  destruct (_ && _); [apply Point_double_error|].
  destruct (_ && _); [discriminate|].
  destruct (Part000.invert (Px q - Px p) CURVE.P) as [i|e'] eqn:E; cbn [bind].
  - rewrite !mod_P. cbn [bind]. discriminate.
  - intros [= <-]. exact (invert_error _ _ _ E).
Qed.

(** Adding a point with nonzero coordinates to itself is doubling it. *)
Lemma Point_add_self (p : Point) :
  Px p <> 0 -> Py p <> 0 -> Part000.Point_add p p = Part000.Point_double p.
Proof.
  intros Hx Hy. unfold Part000.Point_add.
  destruct (Z.eqb_spec (Px p) 0); [contradiction|].
  destruct (Z.eqb_spec (Py p) 0); [contradiction|].
  cbn [orb]. now rewrite !Z.eqb_refl.
Qed.

(** The sentinel test comes first: a point with a zero coordinate added
    to itself is returned as it is. *)
Lemma Point_add_self_sentinel (p : Point) :
  Px p = 0 \/ Py p = 0 -> Part000.Point_add p p = Ok p.
Proof.
  intros H. unfold Part000.Point_add.
  destruct (Z.eqb_spec (Px p) 0); [reflexivity|].
  destruct (Z.eqb_spec (Py p) 0); [reflexivity|tauto].
Qed.

Lemma Point_double_y0 (p : Point) :
  Py p = 0 -> Part000.Point_double p = Err InvertExpectedPositive.
Proof.
  intros H. unfold Part000.Point_double. rewrite H. reflexivity.
Qed.

(** * Primality of the field modulus *)

Section Pocklington.

Lemma prime_of_no_small_divisor (N : Z) :
  1 < N ->
  (forall d, 1 < d -> d * d <= N -> ~ (d | N)) ->
  Z.prime N.
Proof.
  intros HN H. split; [exact HN|].
  intros n Hn [k Hk].
  assert (1 < k) by nia.
  destruct (Z.le_gt_cases n k).
  - apply (H n); [lia|nia|]. now exists k.
  - apply (H k); [lia|nia|]. exists n. lia.
Qed.

Lemma exists_prime_divisor (n : Z) :
  1 < n -> exists p, Z.prime p /\ (p | n).
Proof.
  assert (Hnn : 0 <= n \/ n < 0) by lia.
  destruct Hnn as [Hnn|]; [|lia]. revert n Hnn.
  apply (Z_lt_induction (fun n => 1 < n -> exists p, Z.prime p /\ (p | n))).
  intros n IH Hn.
  destruct (Znumtheory.prime_dec n) as [Hp|Hnp].
  - exists n. split; [now apply Znumtheory.prime_alt|apply Z.divide_refl].
  - destruct (Znumtheory.not_prime_divide n Hn Hnp) as (d & Hd & Hdn).
    destruct (IH d ltac:(lia) ltac:(lia)) as (p & Hp & Hpd).
    exists p. split; [exact Hp|]. now apply Z.divide_trans with d.
Qed.

Lemma prime_of_large_prime_divisors (N : Z) :
  1 < N ->
  (forall p, Z.prime p -> (p | N) -> N < p * p) ->
  Z.prime N.
Proof.
  intros HN H. apply prime_of_no_small_divisor; [exact HN|].
  intros d Hd Hdd Hdiv.
  destruct (exists_prime_divisor d Hd) as (p & Hp & Hpd).
  pose proof (Z.prime_ge_2 p Hp).
  pose proof (Z.divide_pos_le p d ltac:(lia) Hpd).
  pose proof (H p Hp (Z.divide_trans _ _ _ Hpd Hdiv)).
  nia.
Qed.

(** The exponents that send [x] to [1] are closed under gcd. *)
Lemma pow_mod_1_gcd (p x : Z) :
  1 < p ->
  forall n, 0 <= n -> forall m, 0 <= m ->
    x ^ m mod p = 1 -> x ^ n mod p = 1 -> x ^ Z.gcd m n mod p = 1.
Proof.
  intros Hp.
  apply (Z_lt_induction (fun n => forall m, 0 <= m ->
    x ^ m mod p = 1 -> x ^ n mod p = 1 -> x ^ Z.gcd m n mod p = 1)).
  intros n IH m Hm Hxm Hxn.
  destruct (Z.eq_dec n 0) as [->|Hnz].
  - rewrite Z.gcd_0_r, Z.abs_eq by lia. exact Hxm.
  - assert (Hn : 0 < n).
    { destruct (Z.lt_trichotomy n 0) as [Hneg|[E|Hpos]]; [|lia|exact Hpos].
      rewrite Z.pow_neg_r in Hxn by exact Hneg.
      rewrite Z.mod_0_l in Hxn by lia. discriminate. }
    pose proof (Z.mod_pos_bound m n Hn) as Hb.
    replace (Z.gcd m n) with (Z.gcd n (m mod n)).
    2:{ rewrite (Z.gcd_comm n), Z.gcd_mod by lia. apply Z.gcd_comm. }
    apply IH; [lia|lia|exact Hxn|].
    rewrite <- Hxm.
    assert (Hq : 0 <= m / n) by (apply Z.div_pos; lia).
    assert (Hnq : 0 <= n * (m / n)) by (apply Z.mul_nonneg_nonneg; lia).
    rewrite (Z.div_mod m n) at 2 by lia.
    rewrite Z.pow_add_r, Z.pow_mul_r by lia.
    rewrite Z.mul_mod, <- (Z.mod_pow_l (x ^ n)), Hxn, Z.pow_1_l by lia.
    rewrite (Z.mod_small 1), Z.mul_1_l, Z.mod_mod by lia.
    reflexivity.
Qed.

(** A positive divisor of a prime power is the power itself or divides
    the next lower one. *)
Lemma prime_power_divisor (q e d : Z) :
  Z.prime q -> 0 <= e -> 0 < d -> (d | q ^ (e + 1)) ->
  d = q ^ (e + 1) \/ (d | q ^ e).
Proof.
  intros Hq He Hd [k Hk].
  pose proof (Z.prime_ge_2 q Hq) as Hq2.
  assert (Hpow : 0 < q ^ (e + 1)) by (apply Z.pow_pos_nonneg; lia).
  assert (Hk0 : 0 < k) by nia.
  destruct (Z.BoolSpec_divide q k) as [[j Hj]|Hndiv].
  - right. exists j.
    rewrite Z.pow_add_r, Z.pow_1_r in Hk by lia. nia.
  - left.
    assert (Hc : Z.coprime q k) by now apply Z.coprime_prime_l.
    assert (Hc' : Z.coprime k (q ^ (e + 1))).
    { symmetry. apply Z.coprime_pow_l; [lia|exact Hc]. }
    assert (Hk1 : (k | 1)).
    { apply (Z.gauss k (q ^ (e + 1)) 1); [|exact Hc'].
      rewrite Z.mul_1_r. exists d. lia. }
    apply Z.divide_1_r_nonneg in Hk1; [|lia]. subst k. lia.
Qed.

Variables N p : Z.
Hypothesis HN : 1 < N.
Hypothesis Hp : Z.prime p.
Hypothesis HpN : (p | N).

Lemma mod_N_mod_p (y : Z) : (y mod N) mod p = y mod p.
Proof. apply Z.mod_mod_divide. exact HpN. Qed.

(** One entry of a certificate: [q ^ e] divides [p - 1]. *)
Lemma pocklington_item (q e a : Z) :
  Z.prime q -> 0 < e -> (q ^ e | N - 1) ->
  a ^ (N - 1) mod N = 1 ->
  Z.gcd (a ^ ((N - 1) / q) mod N - 1) N = 1 ->
  (q ^ e | p - 1).
Proof.
  intros Hq He [c Hc] Ha Hg.
  pose proof (Z.prime_ge_2 p Hp) as Hp2.
  pose proof (Z.prime_ge_2 q Hq) as Hq2.
  assert (Hqe : 0 < q ^ e) by (apply Z.pow_pos_nonneg; lia).
  assert (Hc0 : 0 < c) by nia.
  set (x := a ^ c).
  assert (Hx1 : x ^ (q ^ e) mod p = 1).
  { unfold x. rewrite <- Z.pow_mul_r, <- Hc by lia.
    rewrite <- mod_N_mod_p, Ha. apply Z.mod_small. lia. }
  assert (Hxnz : x mod p <> 0).
  { intros E. rewrite <- Z.mod_pow_l, E, Z.pow_0_l, Z.mod_0_l in Hx1 by lia.
    discriminate. }
  pose proof (Z.fermat_nz p x Hp Hxnz) as Hf.
  pose proof (pow_mod_1_gcd p x ltac:(lia) (p - 1) ltac:(lia) (q ^ e)
                ltac:(lia) Hx1 Hf) as Hd.
  set (d := Z.gcd (q ^ e) (p - 1)) in *.
  assert (Hdpos : 0 < d).
  { pose proof (Z.gcd_nonneg (q ^ e) (p - 1)).
    destruct (Z.eq_dec d 0) as [E|]; [|unfold d in *; lia].
    apply Z.gcd_eq_0_l in E. lia. }
  pose proof (Z.gcd_divide_l (q ^ e) (p - 1)) as Hdl.
  pose proof (Z.gcd_divide_r (q ^ e) (p - 1)) as Hdr.
  fold d in Hdl, Hdr.
  replace e with (e - 1 + 1) in Hdl at 1 by lia.
  destruct (prime_power_divisor q (e - 1) d Hq ltac:(lia) Hdpos Hdl)
    as [E|[j Hj]].
  - rewrite E in Hdr. now replace (e - 1 + 1) with e in Hdr by lia.
  - exfalso.
    assert (Hj0 : 0 < j).
    { assert (Hqe1 : 0 < q ^ (e - 1)) by (apply Z.pow_pos_nonneg; lia).
      apply (Z.mul_pos_cancel_r j d Hdpos). rewrite <- Hj. exact Hqe1. }
    assert (Hquot : (N - 1) / q = c * q ^ (e - 1)).
    { rewrite Hc. replace e with (e - 1 + 1) at 1 by lia.
      rewrite Z.pow_add_r, Z.pow_1_r by lia.
      rewrite Z.mul_assoc. apply Z.div_mul. lia. }
    assert (Hy : a ^ ((N - 1) / q) mod p = 1).
    { rewrite Hquot, Z.pow_mul_r by lia. fold x.
      rewrite Hj, Z.mul_comm, Z.pow_mul_r by lia.
      rewrite <- Z.mod_pow_l, Hd, Z.pow_1_l by lia.
      apply Z.mod_small. lia. }
    assert (Hdiv : (p | a ^ ((N - 1) / q) mod N - 1)).
    { apply Z.mod_divide; [lia|].
      rewrite Zminus_mod, mod_N_mod_p, Hy.
      rewrite (Z.mod_small 1) by lia. now rewrite Z.sub_diag. }
    assert (Hp1 : (p | 1)).
    { rewrite <- Hg. now apply Z.gcd_greatest. }
    apply Z.divide_1_r_nonneg in Hp1; lia.
Qed.

End Pocklington.

Lemma powmod_pos_spec (a : bigZ) (k : positive) (m : bigZ) :
  BigZ.to_Z (Primality.powmod_pos a k m) =
  BigZ.to_Z a ^ Z.pos k mod BigZ.to_Z m.
Proof.
  induction k as [k IH|k IH|]; cbn [Primality.powmod_pos].
  - rewrite BigZ.spec_modulo, BigZ.spec_mul, BigZ.spec_modulo, BigZ.spec_mul, IH.
    set (Ak := BigZ.to_Z a ^ Z.pos k).
    rewrite (Zmult_mod_idemp_l Ak), (Zmult_mod_idemp_r Ak), Zmult_mod_idemp_r.
    subst Ak. rewrite Pos2Z.inj_xI.
    replace (2 * Z.pos k + 1) with (1 + (Z.pos k + Z.pos k)) by lia.
    now rewrite !Z.pow_add_r, Z.pow_1_r by lia.
  - rewrite BigZ.spec_modulo, BigZ.spec_mul, IH.
    rewrite Zmult_mod_idemp_l, Zmult_mod_idemp_r.
    rewrite Pos2Z.inj_xO.
    replace (2 * Z.pos k) with (Z.pos k + Z.pos k) by lia.
    now rewrite Z.pow_add_r by lia.
  - now rewrite BigZ.spec_modulo, Z.pow_1_r.
Qed.

Lemma powmod_spec (a k m : Z) : 0 <= k -> Primality.powmod a k m = a ^ k mod m.
Proof.
  intros Hk. destruct k as [|k|k]; cbn [Primality.powmod]; [reflexivity| |lia].
  now rewrite powmod_pos_spec, !BigZ.spec_of_Z.
Qed.

Lemma no_divisor_from_sound (fuel : nat) :
  forall d q,
    0 < d ->
    Primality.no_divisor_from fuel d q = true ->
    forall c, d <= c -> c * c <= q -> ~ (c | q).
Proof.
  induction fuel as [|fuel IH]; intros d q Hd;
    cbn [Primality.no_divisor_from]; [discriminate|].
  destruct (Z.ltb_spec q (d * d)) as [Hlt|Hge].
  - intros _ c Hc Hcc. nia.
  - destruct (Z.eqb_spec (q mod d) 0) as [|Hmod]; [discriminate|].
    intros H c Hc Hcc Hdiv.
    destruct (Z.eq_dec c d) as [->|Hne].
    + apply Hmod. apply Z.mod_divide in Hdiv; [exact Hdiv|lia].
    + exact (IH (d + 1) q ltac:(lia) H c ltac:(lia) Hcc Hdiv).
Qed.

Lemma small_prime_sound (q : Z) : Primality.small_prime q = true -> Z.prime q.
Proof.
  unfold Primality.small_prime.
  destruct (Z.ltb_spec 1 q) as [Hq|]; [|discriminate]. cbn [andb].
  intros H. apply prime_of_no_small_divisor; [exact Hq|].
  intros d Hd Hdd.
  exact (no_divisor_from_sound _ 2 q ltac:(lia) H d ltac:(lia) Hdd).
Qed.

Lemma pock_F_divides (cert : list (Z * Z * Z)) (n : Z) :
  (forall q e a, In (q, e, a) cert -> (q ^ e | n)) ->
  (Primality.pock_F cert | n).
Proof.
  induction cert as [|[[q e] a] cert IH]; intros H; cbn [Primality.pock_F fold_right].
  - apply Z.divide_1_l.
  - apply Z.lcm_least.
    + apply (H q e a). now left.
    + apply IH. intros q' e' a' Hin. apply (H q' e' a'). now right.
Qed.

Lemma pock_F_nonneg (cert : list (Z * Z * Z)) : 0 <= Primality.pock_F cert.
Proof.
  destruct cert as [|[[q e] a] cert]; cbn [Primality.pock_F fold_right];
    [lia|apply Z.lcm_nonneg].
Qed.

(** Pocklington's criterion, as the boolean check decides it. *)
Theorem pocklington_sound (N : Z) (cert : list (Z * Z * Z)) :
  (forall q e a, In (q, e, a) cert -> Z.prime q) ->
  Primality.pocklington N cert = true ->
  Z.prime N.
Proof.
  intros Hprimes. unfold Primality.pocklington.
  rewrite !andb_true_iff, forallb_forall.
  intros [[HN%Z.ltb_lt Hitems] HF%Z.ltb_lt].
  apply prime_of_large_prime_divisors; [exact HN|].
  intros p Hp HpN.
  pose proof (Z.prime_ge_2 p Hp) as Hp2.
  assert (Hdiv : (Primality.pock_F cert | p - 1)).
  { apply pock_F_divides. intros q e a Hin.
    specialize (Hitems _ Hin). cbn [Primality.pock_item] in Hitems.
    rewrite !andb_true_iff in Hitems.
    destruct Hitems as [[[He%Z.ltb_lt Hd%Z.eqb_eq] Ha%Z.eqb_eq] Hg%Z.eqb_eq].
    assert (Hq : Z.prime q) by exact (Hprimes q e a Hin).
    pose proof (Z.prime_ge_2 q Hq) as Hq2.
    rewrite powmod_spec in Ha by lia.
    rewrite powmod_spec in Hg by (apply Z.div_pos; lia).
    apply (pocklington_item N p HN Hp HpN q e a Hq He); [|exact Ha|exact Hg].
    apply Z.mod_divide; [|exact Hd].
    apply Z.pow_nonzero; lia. }
  pose proof (pock_F_nonneg cert) as HF0.
  apply Z.divide_pos_le in Hdiv; [|lia].
  nia.
Qed.

Lemma prime_q2 : Z.prime Primality.q2.
Proof.
  apply (pocklington_sound _ Primality.cert_q2).
  - intros q e a Hin. apply small_prime_sound.
    cbn [Primality.cert_q2 In] in Hin.
    repeat (destruct Hin as [[= <- <- <-]|Hin]; [vm_compute; reflexivity|]).
    contradiction.
  - vm_compute. reflexivity.
Qed.

Lemma prime_q1 : Z.prime Primality.q1.
Proof.
  apply (pocklington_sound _ Primality.cert_q1).
  - intros q e a [[= <- <- <-]|[]]. exact prime_q2.
  - vm_compute. reflexivity.
Qed.

(** The field modulus is prime. *)
Theorem prime_P : Z.prime CURVE.P.
Proof.
  apply (pocklington_sound _ Primality.cert_P).
  - intros q e a [[= <- <- <-]|[]]. exact prime_q1.
  - vm_compute. reflexivity.
Qed.

(** * Soundness of the certified evaluation *)

Lemma to_Z_bP : BigZ.to_Z Fast.bP = CURVE.P.
Proof. apply BigZ.spec_of_Z. Qed.

Lemma to_Z_0 : BigZ.to_Z 0 = 0.
Proof. reflexivity. Qed.

Lemma to_Z_1 : BigZ.to_Z 1 = 1.
Proof. reflexivity. Qed.

Lemma to_Z_2 : BigZ.to_Z 2 = 2.
Proof. reflexivity. Qed.

Lemma to_Z_3 : BigZ.to_Z 3 = 3.
Proof. reflexivity. Qed.

Lemma to_Z_8 : BigZ.to_Z 8 = 8.
Proof. reflexivity. Qed.

Ltac to_Z :=
  repeat first
    [ rewrite BigZ.spec_add | rewrite BigZ.spec_sub | rewrite BigZ.spec_mul
    | rewrite BigZ.spec_opp | rewrite BigZ.spec_modulo
    | rewrite BigZ.spec_eqb | rewrite BigZ.spec_leb | rewrite BigZ.spec_ltb
    | rewrite to_Z_bP | rewrite to_Z_0 | rewrite to_Z_1 | rewrite to_Z_2
    | rewrite to_Z_3 | rewrite to_Z_8 ].

Lemma toPoint_ofPoint (p : Point) : Fast.toPoint (Fast.ofPoint p) = p.
Proof.
  destruct p as [x y]. unfold Fast.toPoint, Fast.ofPoint.
  cbn [Fast.bx Fast.by_ Px Py].
  rewrite !BigZ.spec_of_Z. reflexivity.
Qed.

Lemma toPoint_ZERO : Fast.toPoint Fast.bPoint_ZERO = Point_ZERO.
Proof. reflexivity. Qed.

Lemma Px_toPoint (p : Fast.bPoint) :
  Px (Fast.toPoint p) = BigZ.to_Z (Fast.bx p).
Proof. reflexivity. Qed.

Lemma Py_toPoint (p : Fast.bPoint) :
  Py (Fast.toPoint p) = BigZ.to_Z (Fast.by_ p).
Proof. reflexivity. Qed.

Lemma Jx_toJacobian (p : Fast.bJacobian) :
  Jx (Fast.toJacobian p) = BigZ.to_Z (Fast.jx p).
Proof. reflexivity. Qed.

Lemma Jy_toJacobian (p : Fast.bJacobian) :
  Jy (Fast.toJacobian p) = BigZ.to_Z (Fast.jy p).
Proof. reflexivity. Qed.

Lemma Jz_toJacobian (p : Fast.bJacobian) :
  Jz (Fast.toJacobian p) = BigZ.to_Z (Fast.jz p).
Proof. reflexivity. Qed.

Ltac read_fields :=
  rewrite ?Px_toPoint, ?Py_toPoint, ?Jx_toJacobian, ?Jy_toJacobian,
    ?Jz_toJacobian.

Lemma agrees_bind {A B A' B' : Type} (f : A -> A') (g : B -> B')
  (c : option (result A)) (m : result A')
  (k : A -> option (result B)) (k' : A' -> result B') :
  Fast.agrees f c m ->
  (forall a, Fast.agrees g (k a) (k' (f a))) ->
  Fast.agrees g (Fast.cbind c k) (bind m k').
Proof.
  destruct c as [[a|e]|]; cbn [Fast.agrees Fast.cbind Fast.map_result].
  - intros -> H. exact (H a).
  - intros -> _. reflexivity.
  - trivial.
Qed.

Lemma agrees_ok {A B : Type} (f : A -> B) (a : A) (b : B) :
  b = f a -> Fast.agrees f (Some (Ok a)) (Ok b).
Proof. intros ->. reflexivity. Qed.

Lemma Fast_invert_sound (a : bigZ) (z : Z) :
  z = BigZ.to_Z a ->
  Fast.agrees BigZ.to_Z (Fast.invert a) (Part000.invert z CURVE.P).
Proof.
  intros ->. unfold Fast.invert. rewrite BigZ.spec_eqb, to_Z_0.
  destruct (Z.eqb_spec (BigZ.to_Z a) 0) as [E|Hnz].
  - cbn [Fast.agrees Fast.map_result]. apply invert_guard. left. exact E.
  - set (i := Fast.inverse_guess a). to_Z.
    destruct (Z.leb_spec 0 (BigZ.to_Z i)); [|exact I].
    destruct (Z.ltb_spec (BigZ.to_Z i) CURVE.P); [|exact I].
    destruct (Z.eqb_spec ((BigZ.to_Z a * BigZ.to_Z i) mod CURVE.P) 1);
      [|exact I].
    cbn [andb Fast.agrees Fast.map_result].
    apply invert_unique; [exact Hnz|split; assumption|assumption].
Qed.

Lemma Fast_Point_double_sound (p : Fast.bPoint) :
  Fast.agrees Fast.toPoint (Fast.Point_double p)
    (Part000.Point_double (Fast.toPoint p)).
Proof.
  unfold Fast.Point_double, Part000.Point_double. cbv zeta.
  apply (agrees_bind BigZ.to_Z Fast.toPoint).
  - apply Fast_invert_sound. read_fields.
    rewrite BigZ.spec_mul, to_Z_2. reflexivity.
  - intros i. repeat (rewrite mod_P; cbn [bind]). apply agrees_ok.
    unfold Fast.toPoint. cbn [Fast.bx Fast.by_ Px Py]. to_Z.
    rewrite Z.pow_2_r. reflexivity.
Qed.

Lemma Fast_Point_add_sound (p q : Fast.bPoint) :
  Fast.agrees Fast.toPoint (Fast.Point_add p q)
    (Part000.Point_add (Fast.toPoint p) (Fast.toPoint q)).
Proof.
  unfold Fast.Point_add, Part000.Point_add. cbv zeta.
  read_fields. rewrite !BigZ.spec_eqb, BigZ.spec_opp, to_Z_0.
  destruct (_ || _); [apply agrees_ok; reflexivity|].
  destruct (_ || _); [apply agrees_ok; reflexivity|].
  destruct (_ && _); [apply Fast_Point_double_sound|].
  destruct (_ && _); [apply agrees_ok; reflexivity|].
  apply (agrees_bind BigZ.to_Z Fast.toPoint).
  - apply Fast_invert_sound. rewrite BigZ.spec_sub. reflexivity.
  - intros i. repeat (rewrite mod_P; cbn [bind]). apply agrees_ok.
    unfold Fast.toPoint. cbn [Fast.bx Fast.by_ Px Py]. to_Z. reflexivity.
Qed.

Lemma Fast_multiplyDA_loop_sound (fuel : nat) :
  forall (p d : Fast.bPoint) (n : Z),
    Fast.agrees Fast.toPoint (Fast.multiplyDA_loop fuel p d n)
      (Part000.multiplyDA_loop fuel (Fast.toPoint p) (Fast.toPoint d) n).
Proof.
  induction fuel as [|fuel IH]; intros p d n;
    cbn [Fast.multiplyDA_loop Part000.multiplyDA_loop].
  - reflexivity.
  - destruct (n >? 0); [|apply agrees_ok; reflexivity].
    apply (agrees_bind Fast.toPoint Fast.toPoint).
    + destruct (negb _); [apply Fast_Point_add_sound|].
      apply agrees_ok; reflexivity.
    + intros p'. apply (agrees_bind Fast.toPoint Fast.toPoint).
      * apply Fast_Point_double_sound.
      * intros d'. apply IH.
Qed.

(** What a certified run of [multiplyDA] tells about the model. *)
Lemma Fast_multiplyDA_sound (this : Point) (n : Z) (r : result Point) :
  Fast.readPoint
    (Fast.multiplyDA_loop (multiplyDA_fuel n) Fast.bPoint_ZERO
       (Fast.ofPoint this) n) = Some r ->
  Part000.multiplyDA this n = r.
Proof.
  unfold Fast.readPoint, Part000.multiplyDA.
  pose proof (Fast_multiplyDA_loop_sound (multiplyDA_fuel n)
                Fast.bPoint_ZERO (Fast.ofPoint this) n) as H.
  rewrite toPoint_ofPoint, toPoint_ZERO in H.
  destruct (Fast.multiplyDA_loop _ _ _ _) as [r'|];
    cbn [Fast.agrees option_map] in *; [|discriminate].
  rewrite H. intros E. injection E as <-. reflexivity.
Qed.

Lemma Fast_getPrecomputes_loop_sound (k : nat) :
  forall (acc : list Fast.bPoint) (dbl : Fast.bPoint),
    match Fast.getPrecomputes_loop k acc dbl with
    | Some (t, r) =>
        Part000.getPrecomputes_loop k (map Fast.toPoint acc)
          (Fast.toPoint dbl) = (map Fast.toPoint t, r)
    | None => True
    end.
Proof.
  induction k as [|k IH]; intros acc dbl;
    cbn [Fast.getPrecomputes_loop Part000.getPrecomputes_loop].
  - reflexivity.
  - replace (map Fast.toPoint acc ++ [Fast.toPoint dbl])
      with (map Fast.toPoint (acc ++ [dbl])) by (rewrite map_app; reflexivity).
    pose proof (Fast_Point_double_sound dbl) as H.
    destruct (Fast.Point_double dbl) as [[d'|e]|];
      cbn [Fast.agrees Fast.map_result] in H; [| |exact I]; rewrite H.
    + apply IH.
    + reflexivity.
Qed.

Lemma Fast_multiplyCT_loop_sound (k : nat) :
  forall (i : nat) (dbls : list Fast.bPoint) (n : Z) (p f : Fast.bPoint),
    Fast.agrees Fast.toPoint (Fast.multiplyCT_loop k i dbls n p f)
      (Part000.multiplyCT_loop k i (map Fast.toPoint dbls) n
         (Fast.toPoint p) (Fast.toPoint f)).
Proof.
  induction k as [|k IH]; intros i dbls n p f;
    cbn [Fast.multiplyCT_loop Part000.multiplyCT_loop].
  - reflexivity.
  - rewrite nth_error_map.
    destruct (nth_error dbls i) as [dbl|]; cbn [option_map]; [|reflexivity].
    destruct (Z.land n 1 =? 1).
    + apply (agrees_bind Fast.toPoint Fast.toPoint).
      * apply Fast_Point_add_sound.
      * intros p'. apply IH.
    + apply (agrees_bind Fast.toPoint Fast.toPoint).
      * apply Fast_Point_add_sound.
      * intros f'. apply IH.
Qed.

(** What a certified run of [multiplyCT] tells about a call of the model
    that finds no table in the store. *)
Lemma Fast_multiplyCT_sound (st : Store) (this : Point) (n : Z)
  (r : result Point) :
  precomputes st = None ->
  Fast.readPoint (Fast.multiplyCT (Fast.ofPoint this) n) = Some r ->
  snd (Part000.multiplyCT st this n) = r.
Proof.
  intros Hst. unfold Fast.readPoint, Fast.multiplyCT, Part000.multiplyCT,
    Part000.getPrecomputes. rewrite Hst.
  pose proof (Fast_getPrecomputes_loop_sound 256 [] (Fast.ofPoint this)) as H.
  rewrite toPoint_ofPoint in H. cbn [map] in H.
  destruct (Fast.getPrecomputes_loop 256 [] (Fast.ofPoint this))
    as [[t [[]|e]]|]; [| |discriminate]; rewrite H; cbn [snd bind].
  - pose proof (Fast_multiplyCT_loop_sound 256 0 t n Fast.bPoint_ZERO
                  Fast.bPoint_ZERO) as HL.
    rewrite toPoint_ZERO in HL.
    destruct (Fast.multiplyCT_loop _ _ _ _ _ _) as [r'|];
      cbn [Fast.agrees option_map] in *; [|discriminate].
    rewrite HL. intros E. injection E as <-. reflexivity.
  - cbn [option_map Fast.map_result]. intros E. injection E as <-.
    reflexivity.
Qed.

(** ** Jacobian points *)

Lemma toJacobian_ZERO : Fast.toJacobian Fast.bJacobian_ZERO = JacobianPoint_ZERO.
Proof. reflexivity. Qed.

Lemma toJacobian_fromAffine (p : Point) :
  Fast.toJacobian (Fast.JacobianPoint_fromAffine (Fast.ofPoint p)) =
  Part000.JacobianPoint_fromAffine p.
Proof.
  destruct p as [x y].
  unfold Fast.toJacobian, Fast.JacobianPoint_fromAffine, Fast.ofPoint,
    Part000.JacobianPoint_fromAffine.
  cbn [Fast.jx Fast.jy Fast.jz Fast.bx Fast.by_ Px Py].
  rewrite !BigZ.spec_of_Z, to_Z_1. reflexivity.
Qed.

Lemma Fast_JacobianPoint_double_sound (p : Fast.bJacobian) :
  Part000.JacobianPoint_double (Fast.toJacobian p) =
  Ok (Fast.toJacobian (Fast.JacobianPoint_double p)).
Proof.
  unfold Fast.JacobianPoint_double, Part000.JacobianPoint_double. cbv zeta.
  repeat (rewrite mod_P; cbn [bind]).
  unfold Fast.toJacobian. cbn [Fast.jx Fast.jy Fast.jz Jx Jy Jz].
  to_Z. rewrite !Z.pow_2_r. reflexivity.
Qed.

Lemma Fast_JacobianPoint_add_sound (p q : Fast.bJacobian) :
  Part000.JacobianPoint_add (Fast.toJacobian p) (Fast.toJacobian q) =
  Ok (Fast.toJacobian (Fast.JacobianPoint_add p q)).
Proof.
  unfold Fast.JacobianPoint_add, Part000.JacobianPoint_add. cbv zeta.
  read_fields. rewrite !BigZ.spec_eqb, to_Z_0.
  destruct (_ || _); [reflexivity|].
  destruct (_ || _); [reflexivity|].
  repeat (rewrite mod_P; cbn [bind]).
  to_Z. rewrite !Z.pow_2_r.
  destruct (_ =? 0).
  - destruct (_ =? 0); [apply Fast_JacobianPoint_double_sound|].
    rewrite toJacobian_ZERO. reflexivity.
  - repeat (rewrite mod_P; cbn [bind]).
    unfold Fast.toJacobian. cbn [Fast.jx Fast.jy Fast.jz Jx Jy Jz].
    to_Z. reflexivity.
Qed.

Lemma Fast_getPrecomputesJ_loop_sound (k : nat) :
  forall (acc : list Fast.bJacobian) (dbl : Fast.bJacobian),
    Part000.getPrecomputesJ_loop k (map Fast.toJacobian acc)
      (Fast.toJacobian dbl) =
    (map Fast.toJacobian (Fast.getPrecomputesJ_loop k acc dbl), Ok tt).
Proof.
  induction k as [|k IH]; intros acc dbl;
    cbn [Fast.getPrecomputesJ_loop Part000.getPrecomputesJ_loop].
  - reflexivity.
  - replace (map Fast.toJacobian acc ++ [Fast.toJacobian dbl])
      with (map Fast.toJacobian (acc ++ [dbl]))
      by (rewrite map_app; reflexivity).
    rewrite Fast_JacobianPoint_double_sound. apply IH.
Qed.

Lemma Fast_multiplyPreCTJ_loop_sound (k : nat) :
  forall (i : nat) (dbls : list Fast.bJacobian) (n : Z)
         (p f : Fast.bJacobian),
    Part000.multiplyPreCTJ_loop k i (map Fast.toJacobian dbls) n
      (Fast.toJacobian p) (Fast.toJacobian f) =
    Fast.map_result Fast.toJacobian
      (Fast.multiplyPreCTJ_loop k i dbls n p f).
Proof.
  induction k as [|k IH]; intros i dbls n p f;
    cbn [Fast.multiplyPreCTJ_loop Part000.multiplyPreCTJ_loop].
  - reflexivity.
  - rewrite nth_error_map.
    destruct (nth_error dbls i) as [dbl|]; cbn [option_map]; [|reflexivity].
    destruct (Z.land n 1 =? 1);
      rewrite Fast_JacobianPoint_add_sound; cbn [bind]; apply IH.
Qed.

Lemma Fast_toAffine_sound (p : Fast.bJacobian) :
  Fast.agrees Fast.toPoint (Fast.JacobianPoint_toAffine p)
    (Part000.JacobianPoint_toAffine (Fast.toJacobian p)).
Proof.
  unfold Fast.JacobianPoint_toAffine, Part000.JacobianPoint_toAffine,
    Part000.JacobianPoint_toAffine_with. cbv zeta.
  apply (agrees_bind BigZ.to_Z Fast.toPoint).
  - apply Fast_invert_sound. reflexivity.
  - intros i. repeat (rewrite mod_P; cbn [bind]). apply agrees_ok.
    unfold Fast.toPoint, Fast.toJacobian.
    cbn [Fast.bx Fast.by_ Jx Jy Jz]. to_Z.
    rewrite !Z.pow_2_r. reflexivity.
Qed.

(** What a certified run of [multiplyPreCTJ] tells about a call of the
    model that finds no table in the store. *)
Lemma Fast_multiplyPreCTJ_sound (st : Store) (this : Point) (n : Z)
  (r : result Point) :
  precomputesJ st = None ->
  Fast.readPoint (Fast.multiplyPreCTJ (Fast.ofPoint this) n) = Some r ->
  snd (Part000.multiplyPreCTJ st this n) = r.
Proof.
  intros Hst. unfold Fast.readPoint, Fast.multiplyPreCTJ,
    Part000.multiplyPreCTJ, Part000.getPrecomputesJ. rewrite Hst. cbv zeta.
  pose proof (Fast_getPrecomputesJ_loop_sound 256 []
                (Fast.JacobianPoint_fromAffine (Fast.ofPoint this))) as H.
  rewrite toJacobian_fromAffine in H. cbn [map] in H. rewrite H.
  cbn [snd bind].
  set (t := Fast.getPrecomputesJ_loop 256 [] _).
  pose proof (Fast_multiplyPreCTJ_loop_sound 256 0 t n Fast.bJacobian_ZERO
                Fast.bJacobian_ZERO) as HL.
  rewrite toJacobian_ZERO in HL. rewrite HL.
  destruct (Fast.multiplyPreCTJ_loop 256 0 t n _ _) as [p|e];
    cbn [Fast.map_result bind].
  - pose proof (Fast_toAffine_sound p) as HA.
    destruct (Fast.JacobianPoint_toAffine p) as [r'|];
      cbn [Fast.agrees option_map] in *; [|discriminate].
    rewrite HA. intros E. injection E as <-. reflexivity.
  - cbn [option_map Fast.map_result]. intros E. injection E as <-.
    reflexivity.
Qed.

(** * Jacobian points: properties of the model *)

Lemma JacobianPoint_double_total (p : JacobianPoint) :
  exists r, Part000.JacobianPoint_double p = Ok r.
Proof.
  unfold Part000.JacobianPoint_double. cbv zeta.
  repeat (rewrite mod_P; cbn [bind]). eauto.
Qed.

Lemma JacobianPoint_add_total (p q : JacobianPoint) :
  exists r, Part000.JacobianPoint_add p q = Ok r.
Proof.
  unfold Part000.JacobianPoint_add. cbv zeta.
  destruct (_ || _); [eauto|].
  destruct (_ || _); [eauto|].
  repeat (rewrite mod_P; cbn [bind]).
  destruct (_ =? 0).
  - destruct (_ =? 0); [apply JacobianPoint_double_total|eauto].
  - repeat (rewrite mod_P; cbn [bind]). eauto.
Qed.

(** Adding a Jacobian point with nonzero [x] and [y] to itself doubles
    it. *)
Lemma JacobianPoint_add_self (p : JacobianPoint) :
  Jx p <> 0 -> Jy p <> 0 ->
  Part000.JacobianPoint_add p p = Part000.JacobianPoint_double p.
Proof.
  intros Hx Hy. unfold Part000.JacobianPoint_add. cbv zeta.
  destruct (Z.eqb_spec (Jx p) 0); [contradiction|].
  destruct (Z.eqb_spec (Jy p) 0); [contradiction|].
  cbn [orb]. rewrite !Z.sub_diag.
  repeat (rewrite mod_P; cbn [bind]).
  rewrite Z.mod_0_l by (pose proof P_pos; lia). reflexivity.
Qed.

Lemma JacobianPoint_add_self_sentinel (p : JacobianPoint) :
  Jx p = 0 \/ Jy p = 0 -> Part000.JacobianPoint_add p p = Ok p.
Proof.
  intros H. unfold Part000.JacobianPoint_add. cbv zeta.
  destruct (Z.eqb_spec (Jx p) 0); [reflexivity|].
  destruct (Z.eqb_spec (Jy p) 0); [reflexivity|tauto].
Qed.

Lemma getPrecomputesJ_loop_total (k : nat) :
  forall acc d, exists t,
    Part000.getPrecomputesJ_loop k acc d = (acc ++ t, Ok tt) /\
    length t = k.
Proof.
  induction k as [|k IH]; intros acc d; cbn [Part000.getPrecomputesJ_loop].
  - exists []. rewrite app_nil_r. split; reflexivity.
  - destruct (JacobianPoint_double_total d) as [d' ->].
    destruct (IH (acc ++ [d]) d') as (t & -> & Hlen).
    exists (d :: t). rewrite <- app_assoc. split; [reflexivity|].
    cbn [length]. now rewrite Hlen.
Qed.

(** The scalar is read through its bit 0 and shifted: only the low [k]
    bits count in [k] iterations. *)
Lemma land_1_mod_pow2 (n : Z) (k : nat) :
  Z.land (n mod 2 ^ Z.of_nat (S k)) 1 = Z.land n 1.
Proof.
  change 1 with (Z.ones 1) at 1 2. rewrite !Z.land_ones by lia.
  apply Z.mod_mod_divide.
  rewrite Nat2Z.inj_succ, Z.pow_succ_r by lia.
  exists (2 ^ Z.of_nat k). rewrite Z.pow_1_r. ring.
Qed.

Lemma shiftr_1_mod_pow2 (n : Z) (k : nat) :
  Z.shiftr (n mod 2 ^ Z.of_nat (S k)) 1 = Z.shiftr n 1 mod 2 ^ Z.of_nat k.
Proof.
  apply Z.bits_inj'. intros i Hi.
  rewrite Z.shiftr_spec, !Z.testbit_mod_pow2, Z.shiftr_spec by lia.
  rewrite Nat2Z.inj_succ.
  destruct (Z.ltb_spec (i + 1) (Z.succ (Z.of_nat k)));
    destruct (Z.ltb_spec i (Z.of_nat k)); try lia; reflexivity.
Qed.

Lemma multiplyPreCTJ_loop_low_bits (k : nat) :
  forall i dbls n p f,
    Part000.multiplyPreCTJ_loop k i dbls n p f =
    Part000.multiplyPreCTJ_loop k i dbls (n mod 2 ^ Z.of_nat k) p f.
Proof.
  induction k as [|k IH]; intros i dbls n p f;
    cbn [Part000.multiplyPreCTJ_loop]; [reflexivity|].
  destruct (nth_error dbls i) as [dbl|]; [|reflexivity].
  rewrite land_1_mod_pow2, shiftr_1_mod_pow2.
  destruct (Z.land n 1 =? 1);
    destruct (Part000.JacobianPoint_add _ dbl); cbn [bind];
    try reflexivity; apply IH.
Qed.

(** With no bit set the result accumulator is never touched. *)
Lemma multiplyPreCTJ_loop_zero (k : nat) :
  forall i dbls p f,
    (i + k <= length dbls)%nat ->
    Part000.multiplyPreCTJ_loop k i dbls 0 p f = Ok p.
Proof.
  induction k as [|k IH]; intros i dbls p f Hlen;
    cbn [Part000.multiplyPreCTJ_loop]; [reflexivity|].
  destruct (nth_error dbls i) as [dbl|] eqn:E.
  - cbn [Z.land Z.eqb Z.shiftr Z.shiftl].
    destruct (JacobianPoint_add_total f dbl) as [f' ->]. cbn [bind].
    apply IH. lia.
  - apply nth_error_None in E. lia.
Qed.

(** [multiplyPreCTJ] looks at the low 256 bits of the scalar only. *)
Lemma multiplyPreCTJ_low_bits (st : Store) (this : Point) (n : Z) :
  Part000.multiplyPreCTJ st this n =
  Part000.multiplyPreCTJ st this (n mod 2 ^ 256).
Proof.
  unfold Part000.multiplyPreCTJ.
  generalize (Part000.getPrecomputesJ st this).
  intros [st' [dbls|e]]; cbn [bind]; [|reflexivity].
  rewrite multiplyPreCTJ_loop_low_bits. reflexivity.
Qed.

(** A call that finds no table builds all 256 entries and stores them. *)
Lemma getPrecomputesJ_fresh (st : Store) (this : Point) :
  precomputesJ st = None ->
  exists t,
    Part000.getPrecomputesJ st this =
      (mkStore (precomputes st) (Some t), Ok t) /\
    length t = 256%nat /\
    Part000.getPrecomputesJ_loop 256 []
      (Part000.JacobianPoint_fromAffine this) = (t, Ok tt).
Proof.
  intros Hst. unfold Part000.getPrecomputesJ. rewrite Hst.
  destruct (getPrecomputesJ_loop_total 256 []
              (Part000.JacobianPoint_fromAffine this)) as (t & E & Hlen).
  cbn [app] in E. exists t. rewrite E. cbn [bind]. auto.
Qed.

(** A scalar whose low 256 bits are zero leaves the accumulator at the
    sentinel [(0, 1, 0)], and [toAffine] then inverts [0]. *)
Lemma multiplyPreCTJ_zero (st : Store) (this : Point) :
  precomputesJ st = None ->
  snd (Part000.multiplyPreCTJ st this 0) = Err InvertExpectedPositive.
Proof.
  intros Hst. unfold Part000.multiplyPreCTJ, Part000.getPrecomputesJ.
  rewrite Hst.
  destruct (getPrecomputesJ_loop_total 256 []
              (Part000.JacobianPoint_fromAffine this)) as (t & -> & Hlen).
  cbn [app snd bind].
  rewrite multiplyPreCTJ_loop_zero by (rewrite Hlen; lia).
  reflexivity.
Qed.

(** * Scalar multiplication: properties of the model *)

(** With fuel for every bit of [n], whatever [multiplyDA] raises comes
    from [invert]; the loop itself always ends. *)
Lemma multiplyDA_loop_error (fuel : nat) :
  forall p d n e,
    n < 2 ^ Z.of_nat fuel ->
    Part000.multiplyDA_loop (S fuel) p d n = Err e ->
    DomainError e = true.
Proof.
  induction fuel as [|fuel IH]; intros p d n e Hn.
  - cbn [Part000.multiplyDA_loop].
    destruct (Z.gtb_spec n 0) as [Hpos|_]; [simpl in Hn; lia|discriminate].
  - remember (S fuel) as f eqn:Ef. cbn [Part000.multiplyDA_loop].
    destruct (Z.gtb_spec n 0) as [Hpos|_]; [|discriminate].
    destruct (if negb (Z.land n 1 =? 0) then Part000.Point_add p d else Ok p)
      as [p'|e'] eqn:Ep; cbn [bind].
    + destruct (Part000.Point_double d) as [d'|e'] eqn:Ed; cbn [bind].
      * subst f. apply IH.
        rewrite Z.shiftr_div_pow2, Z.pow_1_r by lia.
        rewrite Nat2Z.inj_succ, Z.pow_succ_r in Hn by lia.
        apply Z.div_lt_upper_bound; lia.
      * intros [= <-]. exact (Point_double_error _ _ Ed).
    + intros [= <-]. destruct (negb _); [|discriminate].
      exact (Point_add_error _ _ _ Ep).
Qed.

Lemma multiplyDA_fuel_enough (n : Z) :
  exists fuel, multiplyDA_fuel n = S fuel /\ n < 2 ^ Z.of_nat fuel.
Proof.
  unfold multiplyDA_fuel.
  exists (Z.to_nat (Z.log2 n) + 1)%nat. split; [lia|].
  pose proof (Z.log2_nonneg n) as Hl.
  rewrite Nat2Z.inj_add, Z2Nat.id by lia.
  destruct (Z.le_gt_cases n 0) as [Hle|Hpos].
  - assert (0 < 2 ^ (Z.log2 n + Z.of_nat 1)) by (apply Z.pow_pos_nonneg; lia).
    lia.
  - pose proof (Z.log2_spec n Hpos) as Hs. unfold Z.succ in Hs.
    change (Z.of_nat 1) with 1. lia.
Qed.

Lemma multiplyDA_error (this : Point) (n : Z) (e : error) :
  Part000.multiplyDA this n = Err e -> DomainError e = true.
Proof.
  unfold Part000.multiplyDA.
  destruct (multiplyDA_fuel_enough n) as (fuel & -> & Hn).
  now apply multiplyDA_loop_error.
Qed.

Lemma toAffine_error (j : JacobianPoint) (e : error) :
  Part000.JacobianPoint_toAffine j = Err e -> DomainError e = true.
Proof.
  unfold Part000.JacobianPoint_toAffine, Part000.JacobianPoint_toAffine_with.
  destruct (Part000.invert (Jz j) CURVE.P) as [i|e'] eqn:E; cbn [bind].
  - repeat (rewrite mod_P; cbn [bind]). discriminate.
  - intros [= <-]. exact (invert_error _ _ _ E).
Qed.

(** ** secp256k1.ts against part_000 *)

Lemma Point_double_ts_positive (p : Point) :
  0 < Py p -> Secp256k1Ts.Point_double p = Part000.Point_double p.
Proof.
  intros Hy. unfold Secp256k1Ts.Point_double, Part000.Point_double.
  rewrite invert_ts_positive by lia.
  destruct (Z.leb_spec CURVE.P 0) as [H|_]; [pose proof P_pos; lia|].
  reflexivity.
Qed.

(** An addition whose second operand has the smaller [x] passes a
    negative number to [invert], which the guard of secp256k1.ts
    rejects. *)
Lemma Point_add_ts_descending (p q : Point) :
  Px p <> 0 -> Py p <> 0 -> Px q <> 0 -> Py q <> 0 -> Px q < Px p ->
  Secp256k1Ts.Point_add p q = Err InvertExpectedPositive.
Proof.
  intros Hx1 Hy1 Hx2 Hy2 Hlt. unfold Secp256k1Ts.Point_add. cbv zeta.
  destruct (Z.eqb_spec (Px p) 0); [contradiction|].
  destruct (Z.eqb_spec (Py p) 0); [contradiction|].
  destruct (Z.eqb_spec (Px q) 0); [contradiction|].
  destruct (Z.eqb_spec (Py q) 0); [contradiction|].
  destruct (Z.eqb_spec (Px p) (Px q)); [lia|]. cbn [orb andb].
  rewrite mod_P. cbn [bind].
  rewrite invert_ts_nonpositive by lia. reflexivity.
Qed.

Lemma invert_ts_error (number : Z) (e : error) :
  Secp256k1Ts.invert number CURVE.P = Err e -> DomainError e = true.
Proof.
  destruct (Z.le_gt_cases number 0) as [Hle|Hpos].
  - rewrite invert_ts_nonpositive by exact Hle. now intros [= <-].
  - rewrite invert_ts_positive by exact Hpos.
    destruct (Z.leb_spec CURVE.P 0) as [H|_]; [pose proof P_pos; lia|].
    apply invert_error.
Qed.

Lemma Point_double_ts_error (p : Point) (e : error) :
  Secp256k1Ts.Point_double p = Err e -> DomainError e = true.
Proof.
  unfold Secp256k1Ts.Point_double.
  destruct (Secp256k1Ts.invert (2 * Py p) CURVE.P) as [i|e'] eqn:E;
    cbn [bind].
  - repeat (rewrite mod_P; cbn [bind]). discriminate.
  - intros [= <-]. exact (invert_ts_error _ _ E).
Qed.

Lemma Point_add_ts_error (p q : Point) (e : error) :
  Secp256k1Ts.Point_add p q = Err e -> DomainError e = true.
Proof.
  unfold Secp256k1Ts.Point_add. cbv zeta.
  destruct (_ || _); [discriminate|].
  destruct (_ || _); [discriminate|].
  destruct (_ && _); [apply Point_double_ts_error|].
  destruct (_ && _); [discriminate|].
  rewrite mod_P. cbn [bind].
  destruct (Secp256k1Ts.invert (Px q - Px p) CURVE.P) as [i|e'] eqn:E;
    cbn [bind].
  - repeat (rewrite mod_P; cbn [bind]). discriminate.
  - intros [= <-]. exact (invert_ts_error _ _ E).
Qed.

(** The loop of secp256k1.ts ends as well. *)
Lemma multiplyDA_ts_loop_error (fuel : nat) :
  forall p d n e,
    n < 2 ^ Z.of_nat fuel ->
    Secp256k1Ts.multiplyDA_loop (S fuel) p d n = Err e ->
    DomainError e = true.
Proof.
  induction fuel as [|fuel IH]; intros p d n e Hn.
  - cbn [Secp256k1Ts.multiplyDA_loop].
    destruct (Z.gtb_spec n 0) as [Hpos|_]; [simpl in Hn; lia|discriminate].
  - remember (S fuel) as f eqn:Ef. cbn [Secp256k1Ts.multiplyDA_loop].
    destruct (Z.gtb_spec n 0) as [Hpos|_]; [|discriminate].
    destruct (if negb (Z.land n 1 =? 0) then Secp256k1Ts.Point_add p d
              else Ok p) as [p'|e'] eqn:Ep; cbn [bind].
    + destruct (Secp256k1Ts.Point_double d) as [d'|e'] eqn:Ed; cbn [bind].
      * subst f. apply IH.
        rewrite Z.shiftr_div_pow2, Z.pow_1_r by lia.
        rewrite Nat2Z.inj_succ, Z.pow_succ_r in Hn by lia.
        apply Z.div_lt_upper_bound; lia.
      * intros [= <-]. exact (Point_double_ts_error _ _ Ed).
    + intros [= <-]. destruct (negb _); [|discriminate].
      exact (Point_add_ts_error _ _ _ Ep).
Qed.

(** X21.  Whatever [multiplyDA] of src/secp256k1.ts raises is one of the
    two exceptions of [invert]; its loop always ends. *)
Lemma multiplyDA_ts_error (this : Point) (n : Z) (e : error) :
  Secp256k1Ts.multiplyDA this n = Err e -> DomainError e = true.
Proof.
  unfold Secp256k1Ts.multiplyDA.
  destruct (multiplyDA_fuel_enough n) as (fuel & -> & Hn).
  now apply multiplyDA_ts_loop_error.
Qed.

(** ** [multiplyCT] against [multiplyDA] *)

Lemma land_1_mod_2 (n : Z) : Z.land n 1 = n mod 2.
Proof. exact (Z.land_ones n 1 ltac:(lia)). Qed.

Lemma land_1_cases (n : Z) : Z.land n 1 = 0 \/ Z.land n 1 = 1.
Proof.
  rewrite land_1_mod_2.
  pose proof (Z.mod_pos_bound n 2 ltac:(lia)) as H. lia.
Qed.

(** A table that was built in full starts with the entries it was given,
    then holds one entry per iteration. *)
Lemma getPrecomputes_loop_app (k : nat) :
  forall acc d t,
    Part000.getPrecomputes_loop k acc d = (t, Ok tt) ->
    exists ds, t = acc ++ ds /\ length ds = k.
Proof.
  induction k as [|k IH]; intros acc d t; cbn [Part000.getPrecomputes_loop].
  - intros [= <-]. exists []. now rewrite app_nil_r.
  - destruct (Part000.Point_double d) as [d'|e]; [|discriminate].
    intros H. destruct (IH _ _ _ H) as (ds & -> & Hlen).
    exists (d :: ds). rewrite <- app_assoc. split; [reflexivity|].
    cbn [length]. now rewrite Hlen.
Qed.

Lemma multiplyCT_loop_zero (k : nat) :
  forall i t p f r,
    Part000.multiplyCT_loop k i t 0 p f = Ok r -> r = p.
Proof.
  induction k as [|k IH]; intros i t p f r; cbn [Part000.multiplyCT_loop].
  - now intros [= <-].
  - destruct (nth_error t i) as [dbl|]; [|discriminate].
    cbn [Z.land Z.eqb Z.shiftr Z.shiftl].
    destruct (Part000.Point_add f dbl) as [f'|e]; cbn [bind];
      [apply IH|discriminate].
Qed.

(** The result accumulator of [multiplyCT] goes through the additions of
    [multiplyDA], with the doublings read from the table. *)
Lemma multiplyCT_loop_multiplyDA_loop (k : nat) :
  forall acc d t n p f r fuel,
    Part000.getPrecomputes_loop k acc d = (t, Ok tt) ->
    0 <= n < 2 ^ Z.of_nat k ->
    n < 2 ^ Z.of_nat fuel ->
    Part000.multiplyCT_loop k (length acc) t n p f = Ok r ->
    Part000.multiplyDA_loop (S fuel) p d n = Ok r.
Proof.
  induction k as [|k IH]; intros acc d t n p f r fuel Ht Hn Hfuel.
  - cbn [Part000.multiplyCT_loop Part000.multiplyDA_loop].
    intros [= <-]. simpl in Hn.
    destruct (Z.gtb_spec n 0); [lia|reflexivity].
  - destruct (Z.eq_dec n 0) as [->|Hnz].
    { intros H. apply multiplyCT_loop_zero in H. subst r. reflexivity. }
    destruct fuel as [|fuel]; [simpl in Hfuel; lia|].
    remember (S fuel) as fuel1 eqn:Ef.
    cbn [Part000.multiplyCT_loop Part000.multiplyDA_loop Part000.getPrecomputes_loop] in *.
    destruct (Part000.Point_double d) as [d'|e]; [|discriminate].
    destruct (getPrecomputes_loop_app _ _ _ _ Ht) as (ds & Et & Hlen).
    assert (Hnth : nth_error t (length acc) = Some d).
    { rewrite Et, <- app_assoc, nth_error_app2, Nat.sub_diag by lia.
      reflexivity. }
    rewrite Hnth.
    destruct (Z.gtb_spec n 0) as [_|]; [|lia]. cbn [bind].
    assert (Hhalf : forall m : nat,
              n < 2 ^ Z.of_nat (S m) -> Z.shiftr n 1 < 2 ^ Z.of_nat m).
    { intros m Hm. rewrite Z.shiftr_div_pow2, Z.pow_1_r by lia.
      rewrite Nat2Z.inj_succ, Z.pow_succ_r in Hm by lia.
      apply Z.div_lt_upper_bound; lia. }
    assert (Hshift : 0 <= Z.shiftr n 1) by (apply Z.shiftr_nonneg; lia).
    assert (Hlen' : S (length acc) = length (acc ++ [d])).
    { rewrite length_app. cbn [length]. lia. }
    rewrite Hlen'. subst fuel1.
    destruct (land_1_cases n) as [E|E]; rewrite E; cbn [Z.eqb Pos.eqb negb].
    + destruct (Part000.Point_add f d) as [f'|e]; cbn [bind]; [|discriminate].
      apply (IH (acc ++ [d]) d' t); [exact Ht| |apply Hhalf; lia].
      split; [exact Hshift|apply Hhalf; lia].
    + destruct (Part000.Point_add p d) as [p'|e]; cbn [bind]; [|discriminate].
      apply (IH (acc ++ [d]) d' t); [exact Ht| |apply Hhalf; lia].
      split; [exact Hshift|apply Hhalf; lia].
Qed.

(** X15.  Whenever [multiplyCT], called with no table in the store and a
    scalar of at most 256 bits, returns a point, [multiplyDA] returns the
    same point. *)
Lemma multiplyCT_returns_multiplyDA (st : Store) (this : Point) (n : Z)
  (r : Point) :
  precomputes st = None ->
  0 <= n < 2 ^ 256 ->
  snd (Part000.multiplyCT st this n) = Ok r ->
  Part000.multiplyDA this n = Ok r.
Proof.
  intros Hst Hn. unfold Part000.multiplyCT, Part000.getPrecomputes.
  rewrite Hst.
  generalize (eq_refl (Part000.getPrecomputes_loop 256 [] this)).
  generalize (Part000.getPrecomputes_loop 256 [] this) at 1 3.
  intros [t [[]|e]] Ht; cbn [snd bind]; [|discriminate].
  intros H. unfold Part000.multiplyDA.
  destruct (multiplyDA_fuel_enough n) as (fuel & -> & Hfuel).
  apply (multiplyCT_loop_multiplyDA_loop 256 [] this t n Point_ZERO Point_ZERO);
    [symmetry; exact Ht|exact Hn|exact Hfuel|exact H].
Qed.

(** ** Exceptions of the table-driven strategies *)

Lemma getPrecomputes_loop_error (k : nat) :
  forall acc d t e,
    Part000.getPrecomputes_loop k acc d = (t, Err e) -> DomainError e = true.
Proof.
  induction k as [|k IH]; intros acc d t e; cbn [Part000.getPrecomputes_loop].
  - discriminate.
  - destruct (Part000.Point_double d) as [d'|e'] eqn:E.
    + apply IH.
    + intros [= _ <-]. exact (Point_double_error _ _ E).
Qed.

Lemma multiplyCT_loop_error (k : nat) :
  forall i t n p f e,
    (i + k <= length t)%nat ->
    Part000.multiplyCT_loop k i t n p f = Err e -> DomainError e = true.
Proof.
  induction k as [|k IH]; intros i t n p f e Hlen;
    cbn [Part000.multiplyCT_loop]; [discriminate|].
  destruct (nth_error t i) as [dbl|] eqn:E.
  - destruct (Z.land n 1 =? 1).
    + destruct (Part000.Point_add p dbl) as [p'|e'] eqn:Ea; cbn [bind].
      * apply IH. lia.
      * intros [= <-]. exact (Point_add_error _ _ _ Ea).
    + destruct (Part000.Point_add f dbl) as [f'|e'] eqn:Ea; cbn [bind].
      * apply IH. lia.
      * intros [= <-]. exact (Point_add_error _ _ _ Ea).
  - apply nth_error_None in E. lia.
Qed.

(** Called with no table in the store, [multiplyCT] raises nothing but
    the exceptions of [invert]. *)
Lemma multiplyCT_error (st : Store) (this : Point) (n : Z) (e : error) :
  precomputes st = None ->
  snd (Part000.multiplyCT st this n) = Err e -> DomainError e = true.
Proof.
  intros Hst. unfold Part000.multiplyCT, Part000.getPrecomputes.
  rewrite Hst.
  generalize (eq_refl (Part000.getPrecomputes_loop 256 [] this)).
  generalize (Part000.getPrecomputes_loop 256 [] this) at 1 3.
  intros [t [[]|e']] Ht; cbn [snd bind].
  - symmetry in Ht.
    destruct (getPrecomputes_loop_app _ _ _ _ Ht) as (ds & -> & Hlen).
    apply multiplyCT_loop_error. cbn [app]. rewrite Hlen. apply Nat.le_refl.
  - intros [= <-]. symmetry in Ht.
    exact (getPrecomputes_loop_error _ _ _ _ _ Ht).
Qed.

Lemma multiplyPreCTJ_loop_total (k : nat) :
  forall i t n p f,
    (i + k <= length t)%nat ->
    exists r, Part000.multiplyPreCTJ_loop k i t n p f = Ok r.
Proof.
  induction k as [|k IH]; intros i t n p f Hlen;
    cbn [Part000.multiplyPreCTJ_loop]; [eauto|].
  destruct (nth_error t i) as [dbl|] eqn:E.
  - destruct (Z.land n 1 =? 1).
    + destruct (JacobianPoint_add_total p dbl) as [p' ->]. cbn [bind].
      apply IH. lia.
    + destruct (JacobianPoint_add_total f dbl) as [f' ->]. cbn [bind].
      apply IH. lia.
  - apply nth_error_None in E. lia.
Qed.

(** Called with no table in the store, [multiplyPreCTJ] raises nothing
    but the exceptions of [invert], and only in the final [toAffine]. *)
Lemma multiplyPreCTJ_error (st : Store) (this : Point) (n : Z) (e : error) :
  precomputesJ st = None ->
  snd (Part000.multiplyPreCTJ st this n) = Err e -> DomainError e = true.
Proof.
  intros Hst.
  destruct (getPrecomputesJ_fresh st this Hst) as (t & Eg & Hlen & _).
  unfold Part000.multiplyPreCTJ. rewrite Eg. cbn [snd bind].
  destruct (multiplyPreCTJ_loop_total 256 0 t n JacobianPoint_ZERO
              JacobianPoint_ZERO) as [p ->]; [rewrite Hlen; apply Nat.le_refl|].
  cbn [bind]. apply toAffine_error.
Qed.

(** A build of the table that fails leaves its first entries in the
    store, and the next call, on any point, reads them: here the
    generator meets a table of one entry and [add] is handed
    [undefined]. *)
Lemma multiplyCT_after_failed_build :
  Part000.multiplyCT empty_store (mkPoint 1 0) 1 =
    (mkStore (Some [mkPoint 1 0]) None, Err InvertExpectedPositive) /\
  snd (Part000.multiplyCT (mkStore (Some [mkPoint 1 0]) None) G 3) =
    Err TypeError.
Proof. split; reflexivity. Qed.

(** * Properties stated by the specification *)

Lemma P_not_twice (y : Z) : 2 * y <> CURVE.P.
Proof.
  intros E. pose proof P_odd as H. rewrite <- E, Z.odd_mul in H.
  discriminate H.
Qed.

(** C1.  The three strategies do not agree on every scalar of
    [1, n - 1]: at [k = 2^256 - 1 - n] the discarded accumulator of
    [multiplyCT] reaches the point opposite to the last table entry, the
    affine [add] misses the case and inverts [0], so [multiplyCT] raises;
    [multiplyDA] and [multiplyPreCTJ] both return [k * G]. *)
Theorem multiplyCT_raises_where_others_return :
  432420386565659656852420866394968145598 = 2 ^ 256 - 1 - CURVE.n /\
  1 <= 432420386565659656852420866394968145598 <= CURVE.n - 1 /\
  snd (Part000.multiplyCT empty_store G
         432420386565659656852420866394968145598) =
    Err InvertExpectedPositive /\
  Part000.multiplyDA G 432420386565659656852420866394968145598 =
    Ok (mkPoint
          65766924097070208376629306902125118242069746467871217785643147593192657258159
          109236945745669593534474897756172178689381177381602435107906663179476813370855) /\
  snd (Part000.multiplyPreCTJ empty_store G
         432420386565659656852420866394968145598) =
    Ok (mkPoint
          65766924097070208376629306902125118242069746467871217785643147593192657258159
          109236945745669593534474897756172178689381177381602435107906663179476813370855).
Proof.
  split; [vm_compute; reflexivity|].
  split; [split; apply Z.leb_le; vm_compute; reflexivity|].
  split; [|split].
  - apply Fast_multiplyCT_sound; [reflexivity|]. vm_compute. reflexivity.
  - apply Fast_multiplyDA_sound. vm_compute. reflexivity.
  - apply Fast_multiplyPreCTJ_sound; [reflexivity|]. vm_compute. reflexivity.
Qed.

(** C2.  Adding to a point [(x, y)], with [x <> 0] and [0 < y < P], the
    point [(x, -y mod P)] does not return the identity: both files compare
    [Y1] with the integer [-Y2], which reduced coordinates never satisfy,
    and go on to invert [X2 - X1 = 0], which raises. *)
Theorem add_inverse_raises (x y : Z) :
  x <> 0 -> 0 < y < CURVE.P ->
  Part000.Point_add (mkPoint x y) (mkPoint x ((- y) mod CURVE.P)) =
    Err InvertExpectedPositive /\
  Secp256k1Ts.Point_add (mkPoint x y) (mkPoint x ((- y) mod CURVE.P)) =
    Err InvertExpectedPositive.
Proof.
  intros Hx Hy.
  assert (Hneg : (- y) mod CURVE.P = CURVE.P - y).
  { symmetry. apply (Z.mod_unique _ _ (-1)); lia. }
  pose proof (P_not_twice y) as Hodd.
  unfold Part000.Point_add, Secp256k1Ts.Point_add. cbv zeta. cbn [Px Py].
  rewrite Hneg.
  destruct (Z.eqb_spec x 0); [contradiction|].
  destruct (Z.eqb_spec y 0); [lia|].
  destruct (Z.eqb_spec (CURVE.P - y) 0); [lia|].
  destruct (Z.eqb_spec y (CURVE.P - y)); [lia|].
  destruct (Z.eqb_spec y (- (CURVE.P - y))); [lia|].
  rewrite Z.eqb_refl, Z.sub_diag. cbn [orb andb].
  rewrite mod_P. cbn [bind].
  split; reflexivity.
Qed.

Lemma add_inverse_raises_witness :
  CURVE.Gx <> 0 /\ 0 < CURVE.Gy < CURVE.P /\
  Part000.Point_add G (mkPoint CURVE.Gx ((- CURVE.Gy) mod CURVE.P)) =
    Err InvertExpectedPositive.
Proof.
  split; [discriminate|].
  split; [split; reflexivity|].
  apply (add_inverse_raises CURVE.Gx CURVE.Gy);
    [discriminate|split; reflexivity].
Defined.

(** C3.  [multiplyDA] of the generator by the subgroup order [n] does not
    return the identity: the last addition meets the point opposite to
    the accumulator and raises. *)
Theorem multiplyDA_order_raises :
  Part000.multiplyDA G CURVE.n = Err InvertExpectedPositive.
Proof. apply Fast_multiplyDA_sound. vm_compute. reflexivity. Qed.

(** C4, as stated, fails on the guard [number === 0n || modulo <= 0n]:
    with modulus [-7] the value [1] is not congruent to zero and its gcd
    with the modulus is 1, yet [invert] raises; and with modulus [1] the
    value [5] is congruent to zero, yet [invert] returns [0]. *)
Lemma invert_raises_on_negative_modulus :
  Part000.invert 1 (-7) = Err InvertExpectedPositive /\
  1 mod (-7) <> 0 /\ Z.gcd 1 (-7) = 1 /\
  Part000.invert 5 1 = Ok 0 /\ 5 mod 1 = 0.
Proof. repeat split. discriminate. Qed.

(** C4, amended.  For a positive modulus [invert] raises exactly when the
    value is zero or the gcd of its residue with the modulus is not 1,
    and what it returns otherwise, negative values included, is the
    inverse in [0, modulus); for a modulus that is not positive it
    raises; on positive values the [invert] of secp256k1.ts is the same
    function.  Everything [invert], the affine [double], [add] and
    [multiplyDA], [toAffine], and [multiplyCT] and [multiplyPreCTJ]
    called with no table in the store raise is one of the two exceptions
    of [invert]; the Jacobian [double] and [add] raise nothing. *)
Theorem invert_raises_exactly :
  (forall number modulo, 0 < modulo ->
     (is_err (Part000.invert number modulo) = true <->
      number = 0 \/ Z.gcd (number mod modulo) modulo <> 1)) /\
  (forall number modulo r, Part000.invert number modulo = Ok r ->
     0 <= r < modulo /\ (number * r) mod modulo = 1 mod modulo) /\
  (forall number modulo, modulo <= 0 ->
     Part000.invert number modulo = Err InvertExpectedPositive) /\
  (forall number modulo, 0 < number -> 0 < modulo ->
     Secp256k1Ts.invert number modulo = Part000.invert number modulo) /\
  (forall number modulo e,
     Part000.invert number modulo = Err e -> DomainError e = true) /\
  (forall p e, Part000.Point_double p = Err e -> DomainError e = true) /\
  (forall p q e, Part000.Point_add p q = Err e -> DomainError e = true) /\
  (forall p n e, Part000.multiplyDA p n = Err e -> DomainError e = true) /\
  (forall st p n e, precomputes st = None ->
     snd (Part000.multiplyCT st p n) = Err e -> DomainError e = true) /\
  (forall st p n e, precomputesJ st = None ->
     snd (Part000.multiplyPreCTJ st p n) = Err e -> DomainError e = true) /\
  (forall j e,
     Part000.JacobianPoint_toAffine j = Err e -> DomainError e = true) /\
  (forall j, exists r, Part000.JacobianPoint_double j = Ok r) /\
  (forall j j', exists r, Part000.JacobianPoint_add j j' = Ok r).
Proof.
  repeat match goal with |- _ /\ _ => split end.
  - intros number modulo Hm. rewrite Z.gcd_mod_l.
    destruct (Z.eq_dec number 0) as [->|Hn].
    { rewrite invert_guard by auto. cbn [is_err]. tauto. }
    destruct (Z.eq_dec (Z.gcd number modulo) 1) as [Hg|Hg].
    + destruct (invert_coprime number modulo Hn Hm Hg) as (r & -> & _).
      cbn [is_err]. split; [discriminate|]. intros [?|?]; contradiction.
    + rewrite invert_not_coprime by assumption. cbn [is_err]. tauto.
  - intros number modulo r H.
    destruct (Z.eq_dec number 0) as [->|Hn].
    { rewrite invert_guard in H by auto. discriminate. }
    destruct (Z.le_gt_cases modulo 0) as [Hle|Hm].
    { rewrite invert_guard in H by auto. discriminate. }
    destruct (Z.eq_dec (Z.gcd number modulo) 1) as [Hg|Hg].
    + destruct (invert_coprime number modulo Hn Hm Hg) as (r' & E & Hr).
      rewrite E in H. injection H as <-. exact Hr.
    + rewrite invert_not_coprime in H by assumption. discriminate.
  - intros number modulo Hm. apply invert_guard. now right.
  - intros number modulo Hn Hm. rewrite invert_ts_positive by exact Hn.
    destruct (Z.leb_spec modulo 0); [lia|reflexivity].
  - apply invert_error.
  - apply Point_double_error.
  - apply Point_add_error.
  - apply multiplyDA_error.
  - apply multiplyCT_error.
  - apply multiplyPreCTJ_error.
  - apply toAffine_error.
  - apply JacobianPoint_double_total.
  - apply JacobianPoint_add_total.
Qed.

Lemma invert_raises_exactly_witness :
  0 < 7 /\
  (is_err (Part000.invert (-3) 7) = true <->
   -3 = 0 \/ Z.gcd (-3 mod 7) 7 <> 1).
Proof.
  split; [reflexivity|].
  apply (proj1 invert_raises_exactly (-3) 7). reflexivity.
Defined.

(** C5.  The two files do not implement the same functions: the guard of
    [invert] in secp256k1.ts rejects every negative number, so its
    [invert], its [add] (which passes [X2 - X1]) and its [multiplyDA]
    raise where part_000 returns; and it lets a negative modulus through,
    which part_000 rejects. *)
Theorem files_disagree :
  Secp256k1Ts.invert (-1) CURVE.P = Err InvertExpectedPositive /\
  Part000.invert (-1) CURVE.P = Ok (CURVE.P - 1) /\
  Secp256k1Ts.invert 1 (-7) = Ok 1 /\
  Part000.invert 1 (-7) = Err InvertExpectedPositive /\
  Secp256k1Ts.Point_add
    (mkPoint
       89565891926547004231252920425935692360644145829622209833684329913297188986597
       12158399299693830322967808612713398636155367887041628176798871954788371653930)
    G = Err InvertExpectedPositive /\
  Part000.Point_add
    (mkPoint
       89565891926547004231252920425935692360644145829622209833684329913297188986597
       12158399299693830322967808612713398636155367887041628176798871954788371653930)
    G =
    Ok (mkPoint
          112711660439710606056748659173929673102114977341539408544630613555209775888121
          25583027980570883691656905877401976406448868254816295069919888960541586679410) /\
  Secp256k1Ts.multiplyDA G 7 = Err InvertExpectedPositive /\
  Part000.multiplyDA G 7 =
    Ok (mkPoint
          41948375291644419605210209193538855353224492619856392092318293986323063962044
          48361766907851246668144012348516735800090617714386977531302791340517493990618).
Proof.
  split; [reflexivity|].
  split; [vm_compute; reflexivity|].
  split; [reflexivity|].
  split; [reflexivity|].
  split; [apply Point_add_ts_descending; cbn [Px Py G];
          solve [discriminate | reflexivity]|].
  split; [vm_compute; reflexivity|].
  split; [vm_compute; reflexivity|].
  apply Fast_multiplyDA_sound. vm_compute. reflexivity.
Qed.

(** C6.  [getPublicKey 1] is the generator, with the coordinates of the
    curve parameters. *)
Theorem getPublicKey_one :
  Part000.getPublicKey 1 =
    Ok (mkPoint
          55066263022277343669578718895168534326250603453777594175500187360389116729240
          32670510020758816978083085130507043184471273380659243275938904335757337482424) /\
  mkPoint
    55066263022277343669578718895168534326250603453777594175500187360389116729240
    32670510020758816978083085130507043184471273380659243275938904335757337482424 =
  mkPoint CURVE.Gx CURVE.Gy.
Proof.
  split; [|reflexivity].
  apply Fast_multiplyDA_sound. vm_compute. reflexivity.
Qed.

(** C7.  For every [a] in [1, P - 1], [invert a P] returns [r] with
    [(a * r) mod P = 1]; and [egcd a b] always returns a triple
    [(g, x, y)] with [a * x + b * y = g], where [g] is the gcd up to
    sign. *)
Theorem invert_correct :
  (forall a, 1 <= a <= CURVE.P - 1 ->
     exists r, Part000.invert a CURVE.P = Ok r /\ (a * r) mod CURVE.P = 1) /\
  (forall a b, exists g x y,
     egcd a b = Ok (g, x, y) /\ a * x + b * y = g /\ Z.abs g = Z.gcd a b).
Proof.
  split.
  - intros a Ha.
    assert (Hg : Z.gcd a CURVE.P = 1).
    { rewrite Z.gcd_comm. apply Z.coprime_prime_small; [exact prime_P|lia]. }
    destruct (invert_coprime a CURVE.P ltac:(lia) P_pos Hg) as (r & E & _ & H).
    exists r. split; [exact E|].
    rewrite H. apply Z.mod_small. pose proof P_gt_1. lia.
  - intros a b. destruct (egcd_terminates a b) as (g & x & y & E).
    exists g, x, y. split; [exact E|]. split.
    + exact (egcd_bezout _ _ _ _ _ E).
    + exact (egcd_loop_gcd _ _ _ _ _ _ _ _ _ _ E).
Qed.

Lemma invert_correct_witness :
  1 <= 2 <= CURVE.P - 1 /\
  exists r, Part000.invert 2 CURVE.P = Ok r /\ (2 * r) mod CURVE.P = 1.
Proof.
  split; [split; apply Z.leb_le; reflexivity|].
  apply (proj1 invert_correct 2).
  split; apply Z.leb_le; reflexivity.
Defined.

(** C8, as stated, fails at the identity sentinels: [add] returns the
    sentinel, the affine [double] raises on [y = 0], and the Jacobian
    [double] returns [(0, P - 8, 0)], not [(0, 1, 0)]. *)
Lemma add_self_differs_at_sentinel :
  Part000.Point_add Point_ZERO Point_ZERO = Ok Point_ZERO /\
  Part000.Point_double Point_ZERO = Err InvertExpectedPositive /\
  Part000.JacobianPoint_add JacobianPoint_ZERO JacobianPoint_ZERO =
    Ok JacobianPoint_ZERO /\
  Part000.JacobianPoint_double JacobianPoint_ZERO =
    Ok (mkJacobianPoint 0 (CURVE.P - 8) 0).
Proof. repeat split. Qed.

(** C8, amended.  For every affine point and every Jacobian point whose
    [x] and [y] are not zero, adding the point to itself is doubling it:
    the same result or the same exception. *)
Theorem add_self_is_double (p : Point) (j : JacobianPoint) :
  Px p <> 0 -> Py p <> 0 -> Jx j <> 0 -> Jy j <> 0 ->
  Part000.Point_add p p = Part000.Point_double p /\
  Part000.JacobianPoint_add j j = Part000.JacobianPoint_double j.
Proof.
  intros Hx Hy Hjx Hjy.
  split; [now apply Point_add_self|now apply JacobianPoint_add_self].
Qed.

Lemma add_self_is_double_witness :
  Px G <> 0 /\ Py G <> 0 /\
  Jx JacobianPoint_BASE <> 0 /\ Jy JacobianPoint_BASE <> 0 /\
  Part000.Point_add G G = Part000.Point_double G /\
  Part000.JacobianPoint_add JacobianPoint_BASE JacobianPoint_BASE =
    Part000.JacobianPoint_double JacobianPoint_BASE.
Proof.
  split; [discriminate|]. split; [discriminate|].
  split; [discriminate|]. split; [discriminate|].
  apply (add_self_is_double G JacobianPoint_BASE); discriminate.
Defined.

(** C9, as stated, fails: [2 * n] is congruent to 0 modulo the order,
    and [multiplyPreCTJ] returns a point for it, since the loop reads
    256 bits of the scalar and no more. *)
Lemma multiplyPreCTJ_twice_order_returns :
  (2 * CURVE.n) mod CURVE.n = 0 /\
  snd (Part000.multiplyPreCTJ empty_store G (2 * CURVE.n)) =
    Ok (mkPoint
          100056811408208733275829432225571761443897154861420255832015183193056831248263
          60566526027762671372996215584771165169296852327468804800455915050077397931708).
Proof.
  split; [vm_compute; reflexivity|].
  apply Fast_multiplyPreCTJ_sound; [reflexivity|]. vm_compute. reflexivity.
Qed.

(** C9, amended.  [multiplyPreCTJ] of the generator raises the exception
    of [invert] for every scalar whose low 256 bits are 0 or are the
    subgroup order [n], among them the scalars 0 and [n]: the Jacobian
    accumulator ends as the sentinel [(0, 1, 0)], and [toAffine] inverts
    its [z = 0]. *)
Theorem multiplyPreCTJ_raises (k : Z) :
  k mod 2 ^ 256 = 0 \/ k mod 2 ^ 256 = CURVE.n ->
  exists dbls,
    Part000.getPrecomputesJ empty_store G =
      (mkStore None (Some dbls), Ok dbls) /\
    Part000.multiplyPreCTJ_loop 256 0 dbls k
      JacobianPoint_ZERO JacobianPoint_ZERO = Ok JacobianPoint_ZERO /\
    Part000.JacobianPoint_toAffine JacobianPoint_ZERO =
      Err InvertExpectedPositive /\
    snd (Part000.multiplyPreCTJ empty_store G k) = Err InvertExpectedPositive.
Proof.
  intros H.
  destruct (getPrecomputesJ_fresh empty_store G eq_refl)
    as (t & Eg & Hlen & El).
  exists t. split; [exact Eg|].
  assert (Hloop : Part000.multiplyPreCTJ_loop 256 0 t k
                    JacobianPoint_ZERO JacobianPoint_ZERO =
                  Ok JacobianPoint_ZERO).
  { rewrite multiplyPreCTJ_loop_low_bits.
    change (2 ^ Z.of_nat 256) with (2 ^ 256).
    destruct H as [-> | ->].
    - apply multiplyPreCTJ_loop_zero. rewrite Hlen. apply Nat.le_refl.
    - pose proof (Fast_getPrecomputesJ_loop_sound 256 []
                    (Fast.JacobianPoint_fromAffine (Fast.ofPoint G))) as Hs.
      rewrite toJacobian_fromAffine in Hs. cbn [map] in Hs.
      rewrite El in Hs. apply (f_equal fst) in Hs. cbn [fst] in Hs.
      rewrite Hs, <- toJacobian_ZERO, Fast_multiplyPreCTJ_loop_sound.
      vm_compute. reflexivity. }
  split; [exact Hloop|]. split; [reflexivity|].
  unfold Part000.multiplyPreCTJ. rewrite Eg. cbn [snd bind].
  rewrite Hloop. reflexivity.
Qed.

Lemma multiplyPreCTJ_raises_witness :
  (CURVE.n mod 2 ^ 256 = 0 \/ CURVE.n mod 2 ^ 256 = CURVE.n) /\
  snd (Part000.multiplyPreCTJ empty_store G CURVE.n) =
    Err InvertExpectedPositive.
Proof.
  split; [right; reflexivity|].
  destruct (multiplyPreCTJ_raises CURVE.n) as (dbls & _ & _ & _ & H);
    [right; reflexivity|exact H].
Defined.

(** C10.  [getPublicKey 0] returns the identity sentinel [(0, 0)]: the
    loop of [multiplyDA] stops at its first test. *)
Theorem getPublicKey_zero : Part000.getPublicKey 0 = Ok Point_ZERO.
Proof. reflexivity. Qed.
(** * The field of [CURVE.P] *)

Add Field P_field : (Zmod.field_theory CURVE.P prime_P).

Lemma reduced_spec (x : Z) : reduced x = true <-> 0 <= x < CURVE.P.
Proof. unfold reduced. rewrite andb_true_iff, Z.leb_le, Z.ltb_lt. tauto. Qed.

Lemma reduced_mod (x : Z) : reduced (x mod CURVE.P) = true.
Proof. apply reduced_spec, Z.mod_pos_bound, P_pos. Qed.

Lemma fe_mod (x : Z) : fe (x mod CURVE.P) = fe x.
Proof. apply Zmod.of_Z_mod. Qed.

Lemma fe_add (x y : Z) : fe (x + y) = (fe x + fe y)%Zmod.
Proof. apply Zmod.of_Z_add. Qed.

Lemma fe_sub (x y : Z) : fe (x - y) = (fe x - fe y)%Zmod.
Proof. apply Zmod.of_Z_sub. Qed.

Lemma fe_mul (x y : Z) : fe (x * y) = (fe x * fe y)%Zmod.
Proof. apply Zmod.of_Z_mul. Qed.

Lemma fe_opp (x : Z) : fe (- x) = (- fe x)%Zmod.
Proof. apply Zmod.of_Z_opp. Qed.

Lemma fe_0 : fe 0 = 0%Zmod.
Proof. apply Zmod.of_Z_0. Qed.

Lemma fe_1 : fe 1 = 1%Zmod.
Proof. apply Zmod.of_Z_1. Qed.

Lemma fe_eq_iff (x y : Z) : fe x = fe y <-> x mod CURVE.P = y mod CURVE.P.
Proof. apply Zmod.of_Z_inj. Qed.

Lemma fe_0_iff (x : Z) : fe x = 0%Zmod <-> x mod CURVE.P = 0.
Proof. rewrite <- fe_0, fe_eq_iff, Z.mod_0_l; [tauto|]. pose proof P_pos. lia. Qed.

Lemma fe_reduced_inj (x y : Z) :
  reduced x = true -> reduced y = true -> fe x = fe y -> x = y.
Proof.
  rewrite !reduced_spec, fe_eq_iff. intros Hx Hy.
  now rewrite !Z.mod_small.
Qed.

Lemma fe_reduced_0 (x : Z) : reduced x = true -> fe x = 0%Zmod -> x = 0.
Proof.
  intros Hx H. apply fe_reduced_inj; [exact Hx|reflexivity|now rewrite fe_0].
Qed.

Lemma fe_to_Z (a : Zmod CURVE.P) : fe (Zmod.to_Z a) = a.
Proof. apply Zmod.of_Z_to_Z. Qed.

(** What [invert] does, read in the field. *)
Lemma invert_fe (a : Z) :
  fe a <> 0%Zmod ->
  exists i, Part000.invert a CURVE.P = Ok i /\ reduced i = true /\
            fe i = Zmod.inv (fe a).
Proof.
  intros Ha. rewrite fe_0_iff in Ha.
  assert (Hnz : a <> 0) by (intros ->; now apply Ha).
  assert (Hg : Z.gcd a CURVE.P = 1).
  { rewrite <- Z.gcd_mod_l, Z.gcd_comm.
    pose proof (Z.mod_pos_bound a CURVE.P P_pos).
    apply Z.coprime_prime_small; [exact prime_P|lia]. }
  destruct (invert_coprime a CURVE.P Hnz P_pos Hg) as (i & E & Hi & H1).
  exists i. split; [exact E|]. split; [now apply reduced_spec|].
  assert (Hone : (fe a * fe i)%Zmod = 1%Zmod).
  { rewrite <- fe_mul, <- fe_1. now apply fe_eq_iff. }
  assert (Hfa : fe a <> 0%Zmod) by (rewrite fe_0_iff; exact Ha).
  apply (Zmod.mul_cancel_l_prime (fe a)); [exact prime_P|exact Hfa|].
  rewrite Hone. symmetry. now apply Zmod.mul_inv_same_r_prime; [exact prime_P|].
Qed.

Lemma invert_fe_0 (a : Z) :
  fe a = 0%Zmod -> exists e, Part000.invert a CURVE.P = Err e.
Proof.
  intros Ha. rewrite fe_0_iff in Ha.
  destruct (Z.eq_dec a 0) as [->|Hnz]; [eexists; reflexivity|].
  exists InvertDoesNotExist. apply invert_not_coprime; [exact Hnz|exact P_pos|].
  rewrite <- Z.gcd_mod_l, Ha. cbn. discriminate.
Qed.

(** ** No curve point has a zero coordinate *)

(** If [t ^ k] were congruent to [c] for some [t], Fermat's little theorem
    would make [c ^ ((P - 1) / k)] congruent to [1]. *)
Lemma not_kth_power (c k e t : Z) :
  0 < k -> 0 <= e -> CURVE.P - 1 = k * e ->
  c mod CURVE.P <> 0 ->
  Primality.powmod c e CURVE.P <> 1 ->
  (t ^ k) mod CURVE.P <> c mod CURVE.P.
Proof.
  intros Hk He HP Hc Hpow Ht. apply Hpow.
  rewrite powmod_spec by exact He.
  rewrite <- Z.mod_pow_l, <- Ht, Z.mod_pow_l.
  rewrite <- Z.pow_mul_r, <- HP by lia.
  apply Z.fermat_nz; [exact prime_P|].
  intros H0. apply Hc. rewrite <- Ht, <- Z.mod_pow_l, H0.
  rewrite Z.pow_0_l by lia. apply Z.mod_0_l. pose proof P_pos. lia.
Qed.

(** [b = 7] is not a square modulo [P]: no curve point has [x = 0]. *)
Lemma b_not_square (y : Z) : (y ^ 2) mod CURVE.P <> CURVE.b mod CURVE.P.
Proof.
  apply (not_kth_power CURVE.b 2
    57896044618658097711785492504343953926634992332820282019728792003954417335831);
    [reflexivity|discriminate|reflexivity|discriminate|].
  vm_compute. discriminate.
Qed.

(** [- b] is not a cube modulo [P]: no curve point has [y = 0]. *)
Lemma minus_b_not_cube (x : Z) :
  (x ^ 3) mod CURVE.P <> (- CURVE.b) mod CURVE.P.
Proof.
  apply (not_kth_power (- CURVE.b) 3
    38597363079105398474523661669562635951089994888546854679819194669302944890554);
    [reflexivity|discriminate|reflexivity|discriminate|].
  vm_compute. discriminate.
Qed.

Local Open Scope Zmod_scope.

Lemma fe_pow2 (x : Z) : fe (x ^ 2) = fe x * fe x.
Proof. rewrite Z.pow_2_r. apply fe_mul. Qed.

Lemma fe_pow3 (x : Z) : fe (x ^ 3) = fe x * fe x * fe x.
Proof. replace (x ^ 3)%Z with (x * x * x)%Z by ring. now rewrite !fe_mul. Qed.

Lemma fe_pow4 (x : Z) : fe (x ^ 4) = fe x * fe x * (fe x * fe x).
Proof. replace (x ^ 4)%Z with (x * x * (x * x))%Z by ring. now rewrite !fe_mul. Qed.

Lemma fe_pow6 (x : Z) :
  fe (x ^ 6) = fe x * fe x * (fe x * fe x) * (fe x * fe x).
Proof.
  replace (x ^ 6)%Z with (x * x * (x * x) * (x * x))%Z by ring.
  now rewrite !fe_mul.
Qed.

Lemma fe_2 : fe 2 = 1 + 1.
Proof. change 2%Z with (1 + 1)%Z. now rewrite fe_add, fe_1. Qed.

Lemma fe_3 : fe 3 = 1 + 1 + 1.
Proof. change 3%Z with (1 + 1 + 1)%Z. now rewrite !fe_add, fe_1. Qed.

Lemma fe_8 : fe 8 = (1 + 1) * (1 + 1) * (1 + 1).
Proof. change 8%Z with (2 * 2 * 2)%Z. now rewrite !fe_mul, fe_2. Qed.

Lemma fe_a : fe CURVE.a = 0.
Proof. apply fe_0. Qed.

Ltac push_fe :=
  repeat first
    [ rewrite fe_mod | rewrite fe_add | rewrite fe_sub | rewrite fe_mul
    | rewrite fe_pow2 | rewrite fe_pow3 | rewrite fe_pow4 | rewrite fe_pow6
    | rewrite fe_2 | rewrite fe_3 | rewrite fe_8 | rewrite fe_a ].

Lemma F_sub_eq (a b : Zmod CURVE.P) : a - b = 0 -> a = b.
Proof. intros H. transitivity (a - b + b); [ring|]. rewrite H. ring. Qed.

Lemma F_one_nz : (1 : Zmod CURVE.P) <> 0.
Proof. apply Zmod.one_neq_zero. pose proof P_gt_1. lia. Qed.

Lemma F_two_nz : (1 + 1 : Zmod CURVE.P) <> 0.
Proof.
  rewrite <- fe_2, fe_0_iff. discriminate.
Qed.

Lemma F_mul_nz (a b : Zmod CURVE.P) : a <> 0 -> b <> 0 -> a * b <> 0.
Proof.
  intros Ha Hb H. apply (Zmod.mul_0_iff_prime prime_P) in H. tauto.
Qed.

(** From [H : L = R], a goal that differs from it by ring rearrangement. *)
Ltac ring_from H :=
  match type of H with
  | ?L = ?R =>
      apply F_sub_eq;
      match goal with
      | |- ?A - ?B = _ => transitivity (L - R); [ring|rewrite H; ring]
      end
  end.

Lemma on_curve_spec (p : Point) :
  on_curve p = true <->
  reduced (Px p) = true /\ reduced (Py p) = true /\
  fe (Py p) * fe (Py p) = fe (Px p) * fe (Px p) * fe (Px p) + fe CURVE.b.
Proof.
  unfold on_curve. rewrite !andb_true_iff, Z.eqb_eq, <- fe_0_iff.
  push_fe. split.
  - intros [[Hx Hy] H]. repeat split; try assumption.
    apply F_sub_eq. rewrite <- H. ring.
  - intros (Hx & Hy & H). repeat split; try assumption.
    rewrite H. ring.
Qed.

Lemma F_curve_nz (x y : Zmod CURVE.P) :
  y * y = x * x * x + fe CURVE.b -> x <> 0 /\ y <> 0.
Proof.
  intros H. split; intros ->.
  - apply (b_not_square (Zmod.to_Z y)). apply fe_eq_iff.
    rewrite fe_pow2, fe_to_Z, H. ring.
  - apply (minus_b_not_cube (Zmod.to_Z x)). apply fe_eq_iff.
    rewrite fe_pow3, fe_to_Z, fe_opp.
    apply F_sub_eq. transitivity (x * x * x + fe CURVE.b); [ring|].
    rewrite <- H. ring.
Qed.

Lemma on_curve_nz (p : Point) :
  on_curve p = true -> fe (Px p) <> 0 /\ fe (Py p) <> 0.
Proof.
  intros H. apply on_curve_spec in H as (_ & _ & E).
  exact (F_curve_nz _ _ E).
Qed.

(** The tangent at [(x, y)] with slope [s] meets the curve again at
    [(X3, - Y3)]. *)
Lemma F_double_closed (x y b s X3 Y3 : Zmod CURVE.P) :
  (1 + 1) * y * s = (1 + 1 + 1) * (x * x) ->
  y * y = x * x * x + b ->
  X3 = s * s - (1 + 1) * x ->
  Y3 = s * (x - X3) - y ->
  Y3 * Y3 = X3 * X3 * X3 + b.
Proof.
  intros Es E -> ->. apply F_sub_eq.
  transitivity (((1 + 1) * y * s - (1 + 1 + 1) * (x * x)) *
                (s * s - (1 + 1) * x - x) + (y * y - (x * x * x + b)));
    [ring|].
  rewrite Es, E. ring.
Qed.

Theorem Point_double_on_curve (p : Point) :
  on_curve p = true ->
  exists r, Part000.Point_double p = Ok r /\ on_curve r = true.
Proof.
  intros H. destruct (on_curve_nz p H) as [Hxnz Hynz].
  apply on_curve_spec in H as (Hx & Hy & E).
  destruct (invert_fe (2 * Py p)) as (i & Ei & Hi & Hfi).
  { push_fe. apply F_mul_nz; [exact F_two_nz|exact Hynz]. }
  unfold Part000.Point_double. rewrite Ei. cbn [bind].
  repeat (rewrite mod_P; cbn [bind]).
  eexists. split; [reflexivity|].
  apply on_curve_spec. cbn [Px Py].
  split; [apply reduced_mod|]. split; [apply reduced_mod|].
  revert Hfi. push_fe. intros ->.
  apply (F_double_closed (fe (Px p)) (fe (Py p)) (fe CURVE.b)
           ((1 + 1 + 1) * (fe (Px p) * fe (Px p)) *
            Zmod.inv ((1 + 1) * fe (Py p)))); try ring; [|exact E].
  field. split; [exact Hynz|exact F_two_nz].
Qed.

(** The chord through [(x1, y1)] and [(x2, y2)] with slope [s] meets
    the curve again at [(X3, - Y3)]. *)
Lemma F_add_closed (x1 y1 x2 y2 b s X3 Y3 : Zmod CURVE.P) :
  x2 - x1 <> 0 ->
  s * (x2 - x1) = y2 - y1 ->
  y1 * y1 = x1 * x1 * x1 + b ->
  y2 * y2 = x2 * x2 * x2 + b ->
  X3 = s * s - x1 - x2 ->
  Y3 = s * (x1 - X3) - y1 ->
  Y3 * Y3 = X3 * X3 * X3 + b.
Proof.
  intros Hd Es E1 E2 -> ->. apply F_sub_eq.
  set (X3 := s * s - x1 - x2).
  set (Y3 := s * (x1 - X3) - y1).
  set (c := s * (x2 - x1) - (y2 - y1)).
  assert (Hc : c = 0) by (unfold c; rewrite Es; ring).
  assert (H : (x2 - x1) * (Y3 * Y3 - (X3 * X3 * X3 + b)) = 0).
  { transitivity
      ((x2 - X3) * (y1 * y1 - (x1 * x1 * x1 + b)) +
       (X3 - x1) * (y2 * y2 - (x2 * x2 * x2 + b) +
                    (1 + 1) * c * y2 + c * c)).
    - unfold c, Y3, X3. ring.
    - rewrite Hc, E1, E2. ring. }
  apply (Zmod.mul_0_iff_prime prime_P) in H. tauto.
Qed.

Lemma fe_nz_nz (x : Z) : fe x <> 0 -> x <> 0%Z.
Proof. intros H ->. apply H, fe_0. Qed.

Lemma fe_sub_nz (x y : Z) :
  reduced x = true -> reduced y = true -> x <> y -> fe x - fe y <> 0.
Proof.
  intros Hx Hy Hne H. apply Hne, fe_reduced_inj; try assumption.
  apply F_sub_eq. exact H.
Qed.

(** On curve points [add] takes none of its shortcuts by mistake: it
    doubles equal points, computes the chord for points with different
    [x], and raises on opposite points. *)
Theorem Point_add_on_curve (p q : Point) :
  on_curve p = true -> on_curve q = true ->
  if Px p =? Px q then
    if Py p =? Py q then Part000.Point_add p q = Part000.Point_double p
    else Part000.Point_add p q = Err InvertExpectedPositive
  else exists r, Part000.Point_add p q = Ok r /\ on_curve r = true.
Proof.
  intros Hp Hq.
  destruct (on_curve_nz p Hp) as [Hx1 Hy1].
  destruct (on_curve_nz q Hq) as [Hx2 Hy2].
  apply fe_nz_nz in Hx1, Hy1, Hx2, Hy2.
  apply on_curve_spec in Hp as (Rx1 & Ry1 & E1).
  apply on_curve_spec in Hq as (Rx2 & Ry2 & E2).
  unfold Part000.Point_add. cbv zeta.
  destruct (Z.eqb_spec (Px p) 0) as [|_]; [contradiction|].
  destruct (Z.eqb_spec (Py p) 0) as [|_]; [contradiction|].
  destruct (Z.eqb_spec (Px q) 0) as [|_]; [contradiction|].
  destruct (Z.eqb_spec (Py q) 0) as [|_]; [contradiction|].
  cbn [orb].
  destruct (Z.eqb_spec (Px p) (Px q)) as [Ex|Nx]; cbn [andb].
  - destruct (Z.eqb_spec (Py p) (Py q)) as [Ey|Ny]; [reflexivity|].
    apply reduced_spec in Ry1, Ry2.
    destruct (Z.eqb_spec (Py p) (- Py q)) as [|_]; [lia|].
    rewrite Ex, Z.sub_diag. reflexivity.
  - destruct (invert_fe (Px q - Px p)) as (i & Ei & Hi & Hfi).
    { push_fe. now apply fe_sub_nz. }
    rewrite Ei. cbn [bind]. repeat (rewrite mod_P; cbn [bind]).
    eexists. split; [reflexivity|].
    apply on_curve_spec. cbn [Px Py].
    split; [apply reduced_mod|]. split; [apply reduced_mod|].
    revert Hfi. push_fe. intros ->.
    apply (F_add_closed (fe (Px p)) (fe (Py p)) (fe (Px q)) (fe (Py q))
             (fe CURVE.b)
             ((fe (Py q) - fe (Py p)) * Zmod.inv (fe (Px q) - fe (Px p))));
      try assumption; try ring.
    + now apply fe_sub_nz.
    + field. now apply fe_sub_nz.
Qed.

(** * Jacobian points on the curve *)

Lemma on_curve_J_spec (j : JacobianPoint) :
  on_curve_J j = true <->
  reduced (Jx j) = true /\ reduced (Jy j) = true /\ reduced (Jz j) = true /\
  fe (Jz j) <> 0 /\
  fe (Jy j) * fe (Jy j) =
    fe (Jx j) * fe (Jx j) * fe (Jx j) +
    fe CURVE.b * (fe (Jz j) * fe (Jz j) * (fe (Jz j) * fe (Jz j)) *
                  (fe (Jz j) * fe (Jz j))).
Proof.
  unfold on_curve_J.
  rewrite !andb_true_iff, negb_true_iff, Z.eqb_eq, Z.eqb_neq, <- fe_0_iff.
  push_fe. split.
  - intros [[[[Hx Hy] Hz] Hnz] H]. repeat split; try assumption.
    + intros H0. apply Hnz. now apply fe_reduced_0.
    + apply F_sub_eq. rewrite <- H. ring.
  - intros (Hx & Hy & Hz & Hnz & H). repeat split; try assumption.
    + now apply fe_nz_nz.
    + rewrite H. ring.
Qed.

(** The affine point that a Jacobian triple stands for is on the curve. *)
Lemma F_affine_of_J (X Y Z b : Zmod CURVE.P) :
  Z <> 0 ->
  Y * Y = X * X * X + b * (Z * Z * (Z * Z) * (Z * Z)) ->
  let w := Zmod.inv Z in
  (Y * (w * w) * w) * (Y * (w * w) * w) =
  (X * (w * w)) * (X * (w * w)) * (X * (w * w)) + b.
Proof.
  intros Hz E w. apply F_sub_eq.
  transitivity ((Y * Y - (X * X * X + b * (Z * Z * (Z * Z) * (Z * Z)))) *
                (w * w * (w * w) * (w * w))).
  - unfold w. field. exact Hz.
  - rewrite E. ring.
Qed.

Lemma F_inv_nz (a : Zmod CURVE.P) : a <> 0 -> Zmod.inv a <> 0.
Proof. apply Zmod.inv_nz_prime, prime_P. Qed.

Lemma F_curve_J_nz (X Y Z : Zmod CURVE.P) :
  Z <> 0 ->
  Y * Y = X * X * X + fe CURVE.b * (Z * Z * (Z * Z) * (Z * Z)) ->
  X <> 0 /\ Y <> 0.
Proof.
  intros Hz E.
  destruct (F_curve_nz _ _ (F_affine_of_J X Y Z (fe CURVE.b) Hz E)) as [Hx Hy].
  split; intros ->; [apply Hx|apply Hy]; ring.
Qed.

Lemma on_curve_J_nz (j : JacobianPoint) :
  on_curve_J j = true ->
  fe (Jx j) <> 0 /\ fe (Jy j) <> 0 /\ fe (Jz j) <> 0.
Proof.
  intros H. apply on_curve_J_spec in H as (_ & _ & _ & Hz & E).
  destruct (F_curve_J_nz _ _ _ Hz E). auto.
Qed.

(** The doubling formulas keep the curve equation, whatever [b] is. *)
Lemma F_J_double_closed (X1 Y1 Z1 b : Zmod CURVE.P) :
  Y1 * Y1 = X1 * X1 * X1 + b * (Z1 * Z1 * (Z1 * Z1) * (Z1 * Z1)) ->
  let A := X1 * X1 in
  let B := Y1 * Y1 in
  let C := B * B in
  let D := (1 + 1) * ((X1 + B) * (X1 + B) - A - C) in
  let E := (1 + 1 + 1) * A in
  let F := E * E in
  let X3 := F - (1 + 1) * D in
  let Y3 := E * (D - X3) - (1 + 1) * (1 + 1) * (1 + 1) * C in
  let Z3 := (1 + 1) * Y1 * Z1 in
  Y3 * Y3 = X3 * X3 * X3 + b * (Z3 * Z3 * (Z3 * Z3) * (Z3 * Z3)).
Proof.
  intros H. cbv zeta. apply F_sub_eq.
  transitivity
    ((1 + 1) * (1 + 1) * (1 + 1) * ((1 + 1) * (1 + 1) * (1 + 1)) *
     (Y1 * Y1 * (Y1 * Y1) * (Y1 * Y1)) *
     (Y1 * Y1 - (X1 * X1 * X1 + b * (Z1 * Z1 * (Z1 * Z1) * (Z1 * Z1)))));
    [ring|].
  rewrite H. ring.
Qed.

Theorem JacobianPoint_double_on_curve (j : JacobianPoint) :
  on_curve_J j = true ->
  exists r, Part000.JacobianPoint_double j = Ok r /\ on_curve_J r = true.
Proof.
  intros H. destruct (on_curve_J_nz j H) as (Hx & Hy & Hz).
  apply on_curve_J_spec in H as (Rx & Ry & Rz & _ & E).
  unfold Part000.JacobianPoint_double. cbv zeta.
  repeat (rewrite mod_P; cbn [bind]).
  eexists. split; [reflexivity|].
  apply on_curve_J_spec. cbn [Jx Jy Jz].
  repeat (split; [apply reduced_mod|]).
  push_fe. split.
  - apply F_mul_nz; [apply F_mul_nz; [exact F_two_nz|exact Hy]|exact Hz].
  - pose proof (F_J_double_closed _ _ _ _ E) as H. cbv zeta in H.
    ring_from H.
Qed.

(** The addition formulas keep the curve equation. *)
Lemma F_J_add_closed (X1 Y1 Z1 X2 Y2 Z2 b : Zmod CURVE.P) :
  Y1 * Y1 = X1 * X1 * X1 + b * (Z1 * Z1 * (Z1 * Z1) * (Z1 * Z1)) ->
  Y2 * Y2 = X2 * X2 * X2 + b * (Z2 * Z2 * (Z2 * Z2) * (Z2 * Z2)) ->
  let Z1Z1 := Z1 * Z1 in
  let Z2Z2 := Z2 * Z2 in
  let U1 := X1 * Z2Z2 in
  let U2 := X2 * Z1Z1 in
  let S1 := Y1 * Z2 * Z2Z2 in
  let S2 := Y2 * Z1 * Z1Z1 in
  let H := U2 - U1 in
  let r := S2 - S1 in
  let HH := H * H in
  let HHH := H * HH in
  let V := U1 * HH in
  let X3 := r * r - HHH - (1 + 1) * V in
  let Y3 := r * (V - X3) - S1 * HHH in
  let Z3 := Z1 * Z2 * H in
  Y3 * Y3 = X3 * X3 * X3 + b * (Z3 * Z3 * (Z3 * Z3) * (Z3 * Z3)).
Proof.
  intros E1 E2. cbv zeta. apply F_sub_eq.
  set (h1 := Y1 * Y1 - (X1 * X1 * X1 + b * (Z1 * Z1 * (Z1 * Z1) * (Z1 * Z1)))).
  set (h2 := Y2 * Y2 - (X2 * X2 * X2 + b * (Z2 * Z2 * (Z2 * Z2) * (Z2 * Z2)))).
  assert (H1 : h1 = 0) by (unfold h1; rewrite E1; ring).
  assert (H2 : h2 = 0) by (unfold h2; rewrite E2; ring).
  set (H := X2 * (Z1 * Z1) - X1 * (Z2 * Z2)).
  set (r := Y2 * Z1 * (Z1 * Z1) - Y1 * Z2 * (Z2 * Z2)).
  set (X3 := r * r - H * (H * H) - (1 + 1) * (X1 * (Z2 * Z2) * (H * H))).
  transitivity
    (H * (H * H) *
     ((X2 * (Z1 * Z1) * (H * H) - X3) *
        (Z2 * Z2 * (Z2 * Z2) * (Z2 * Z2)) * h1 +
      (X3 - X1 * (Z2 * Z2) * (H * H)) *
        (Z1 * Z1 * (Z1 * Z1) * (Z1 * Z1)) * h2)).
  - unfold h1, h2, X3, r, H. ring.
  - rewrite H1, H2. ring.
Qed.

(** The sum of two curve points is a curve point, or the sentinel
    [(0, 1, 0)] when the points are opposite. *)
Theorem JacobianPoint_add_on_curve (p q : JacobianPoint) :
  on_curve_J p = true -> on_curve_J q = true ->
  exists r, Part000.JacobianPoint_add p q = Ok r /\
            (r = JacobianPoint_ZERO \/ on_curve_J r = true).
Proof.
  intros Hp Hq.
  destruct (on_curve_J_nz p Hp) as (Hx1 & Hy1 & Hz1).
  destruct (on_curve_J_nz q Hq) as (Hx2 & Hy2 & Hz2).
  pose proof (fe_nz_nz _ Hx1) as Nx1. pose proof (fe_nz_nz _ Hy1) as Ny1.
  pose proof (fe_nz_nz _ Hx2) as Nx2. pose proof (fe_nz_nz _ Hy2) as Ny2.
  pose proof Hp as Hp'.
  apply on_curve_J_spec in Hp as (Rx1 & Ry1 & Rz1 & _ & E1).
  apply on_curve_J_spec in Hq as (Rx2 & Ry2 & Rz2 & _ & E2).
  unfold Part000.JacobianPoint_add. cbv zeta.
  destruct (Z.eqb_spec (Jx q) 0) as [|_]; [contradiction|].
  destruct (Z.eqb_spec (Jy q) 0) as [|_]; [contradiction|].
  destruct (Z.eqb_spec (Jx p) 0) as [|_]; [contradiction|].
  destruct (Z.eqb_spec (Jy p) 0) as [|_]; [contradiction|].
  cbn [orb]. rewrite !mod_P. cbn [bind].
  destruct (Z.eqb_spec ((Jx q * Jz p ^ 2 - Jx p * Jz q ^ 2) mod CURVE.P) 0)
    as [EH|NH].
  - destruct (_ =? 0)%Z.
    + destruct (JacobianPoint_double_on_curve p Hp') as (r & -> & Hr). eauto.
    + eauto.
  - repeat (rewrite mod_P; cbn [bind]).
    eexists. split; [reflexivity|]. right.
    apply on_curve_J_spec. cbn [Jx Jy Jz].
    repeat (split; [apply reduced_mod|]).
    rewrite <- fe_0_iff in NH. revert NH. push_fe. intros NH. split.
    + apply F_mul_nz; [apply F_mul_nz; assumption|exact NH].
    + pose proof (F_J_add_closed _ _ _ _ _ _ _ E1 E2) as H. cbv zeta in H.
      ring_from H.
Qed.

(** * Between Jacobian and affine points *)

Lemma invert_1 : Part000.invert 1 CURVE.P = Ok 1%Z.
Proof.
  apply invert_unique; [discriminate|pose proof P_gt_1; lia|reflexivity].
Qed.

(** [toAffine], read in the field. *)
Lemma toAffine_fe (j : JacobianPoint) :
  fe (Jz j) <> 0 ->
  exists a,
    Part000.JacobianPoint_toAffine j = Ok a /\
    reduced (Px a) = true /\ reduced (Py a) = true /\
    fe (Px a) = fe (Jx j) * (Zmod.inv (fe (Jz j)) * Zmod.inv (fe (Jz j))) /\
    fe (Py a) = fe (Jy j) * (Zmod.inv (fe (Jz j)) * Zmod.inv (fe (Jz j))) *
                Zmod.inv (fe (Jz j)).
Proof.
  intros Hz. destruct (invert_fe (Jz j) Hz) as (i & Ei & Hi & Hfi).
  unfold Part000.JacobianPoint_toAffine, Part000.JacobianPoint_toAffine_with.
  rewrite Ei. cbn [bind]. cbv zeta. repeat (rewrite mod_P; cbn [bind]).
  eexists. split; [reflexivity|]. cbn [Px Py].
  split; [apply reduced_mod|]. split; [apply reduced_mod|].
  push_fe. rewrite Hfi. split; reflexivity.
Qed.

(** A point with reduced coordinates survives the round trip through
    Jacobian coordinates. *)
Theorem toAffine_fromAffine (p : Point) :
  reduced (Px p) = true -> reduced (Py p) = true ->
  Part000.JacobianPoint_toAffine (Part000.JacobianPoint_fromAffine p) = Ok p.
Proof.
  intros Hx Hy. apply reduced_spec in Hx, Hy.
  unfold Part000.JacobianPoint_toAffine, Part000.JacobianPoint_toAffine_with,
    Part000.JacobianPoint_fromAffine.
  cbn [Jx Jy Jz]. rewrite invert_1. cbn [bind]. cbv zeta.
  repeat (rewrite mod_P; cbn [bind]).
  change (1 ^ 2)%Z with 1%Z. rewrite !Z.mul_1_r, !Z.mod_small by assumption.
  now destruct p.
Qed.

Lemma fromAffine_on_curve (p : Point) :
  on_curve p = true -> on_curve_J (Part000.JacobianPoint_fromAffine p) = true.
Proof.
  intros H. apply on_curve_spec in H as (Hx & Hy & E).
  apply on_curve_J_spec. cbn [Part000.JacobianPoint_fromAffine Jx Jy Jz].
  repeat (split; [assumption || reflexivity|]).
  rewrite fe_1. split; [exact F_one_nz|]. rewrite E. ring.
Qed.

(** [toAffine] of a Jacobian curve point returns an affine curve point. *)
Theorem toAffine_on_curve (j : JacobianPoint) :
  on_curve_J j = true ->
  exists a, Part000.JacobianPoint_toAffine j = Ok a /\ on_curve a = true.
Proof.
  intros H. apply on_curve_J_spec in H as (_ & _ & _ & Hz & E).
  destruct (toAffine_fe j Hz) as (a & Ea & Rx & Ry & Fx & Fy).
  exists a. split; [exact Ea|].
  apply on_curve_spec. repeat (split; [assumption|]).
  rewrite Fx, Fy. exact (F_affine_of_J _ _ _ _ Hz E).
Qed.

Lemma Point_double_fe (a : Point) :
  fe (Py a) <> 0 ->
  exists r,
    Part000.Point_double a = Ok r /\
    reduced (Px r) = true /\ reduced (Py r) = true /\
    let lam := (1 + 1 + 1) * (fe (Px a) * fe (Px a)) *
               Zmod.inv ((1 + 1) * fe (Py a)) in
    fe (Px r) = lam * lam - (1 + 1) * fe (Px a) /\
    fe (Py r) = lam * (fe (Px a) - fe (Px r)) - fe (Py a).
Proof.
  intros Hy. destruct (invert_fe (2 * Py a)) as (i & Ei & Hi & Hfi).
  { push_fe. apply F_mul_nz; [exact F_two_nz|exact Hy]. }
  unfold Part000.Point_double. rewrite Ei. cbn [bind].
  repeat (rewrite mod_P; cbn [bind]).
  eexists. split; [reflexivity|]. cbn [Px Py].
  split; [apply reduced_mod|]. split; [apply reduced_mod|].
  revert Hfi. push_fe. intros ->. cbv zeta. split; reflexivity.
Qed.

Lemma Point_eq (a b : Point) :
  reduced (Px a) = true -> reduced (Py a) = true ->
  reduced (Px b) = true -> reduced (Py b) = true ->
  fe (Px a) = fe (Px b) -> fe (Py a) = fe (Py b) -> a = b.
Proof.
  destruct a as [xa ya], b as [xb yb]. cbn [Px Py]. intros.
  f_equal; now apply fe_reduced_inj.
Qed.

(** The coordinates that [double] returns, read in the field. *)
Lemma JacobianPoint_double_fe (j : JacobianPoint) :
  exists r,
    Part000.JacobianPoint_double j = Ok r /\
    reduced (Jx r) = true /\ reduced (Jy r) = true /\ reduced (Jz r) = true /\
    let X1 := fe (Jx j) in
    let Y1 := fe (Jy j) in
    let Z1 := fe (Jz j) in
    let A := X1 * X1 in
    let B := Y1 * Y1 in
    let C := B * B in
    let D := (1 + 1) * ((X1 + B) * (X1 + B) - A - C) in
    let E := (1 + 1 + 1) * A in
    let F := E * E in
    fe (Jx r) = F - (1 + 1) * D /\
    fe (Jy r) = E * (D - fe (Jx r)) - (1 + 1) * (1 + 1) * (1 + 1) * C /\
    fe (Jz r) = (1 + 1) * Y1 * Z1.
Proof.
  unfold Part000.JacobianPoint_double. cbv zeta.
  repeat (rewrite mod_P; cbn [bind]).
  eexists. split; [reflexivity|]. cbn [Jx Jy Jz].
  repeat (split; [apply reduced_mod|]).
  push_fe. repeat split; reflexivity.
Qed.

(** Doubling commutes with the conversion to affine coordinates. *)
Theorem toAffine_double (j : JacobianPoint) (a : Point) :
  on_curve_J j = true ->
  Part000.JacobianPoint_toAffine j = Ok a ->
  exists j' a',
    Part000.JacobianPoint_double j = Ok j' /\
    Part000.Point_double a = Ok a' /\
    Part000.JacobianPoint_toAffine j' = Ok a'.
Proof.
  intros H Ea. destruct (on_curve_J_nz j H) as (Hx & Hy & Hz).
  destruct (toAffine_fe j Hz) as (a0 & Ea0 & Rx & Ry & Fx & Fy).
  rewrite Ea in Ea0. injection Ea0 as <-.
  destruct (Point_double_fe a) as (a' & Ed & Rx' & Ry' & Fx' & Fy').
  { rewrite Fy.
    apply F_mul_nz; [apply F_mul_nz; [exact Hy|]|]; auto using F_mul_nz, F_inv_nz. }
  destruct (JacobianPoint_double_fe j)
    as (j' & Ej & _ & _ & _ & Jx' & Jy' & Jz').
  assert (Hz' : fe (Jz j') <> 0).
  { rewrite Jz'.
    apply F_mul_nz; [apply F_mul_nz; [exact F_two_nz|exact Hy]|exact Hz]. }
  destruct (toAffine_fe j' Hz') as (a2 & Ea2 & Rx2 & Ry2 & Fx2 & Fy2).
  exists j', a'. repeat (split; [assumption|]).
  rewrite Ea2. f_equal. apply Point_eq; try assumption.
  - rewrite Fx2, Fx', Jx', Jz', Fx, Fy. field. auto using F_two_nz.
  - rewrite Fy2, Fy', Fx', Jy', Jx', Jz', Fx, Fy. field. auto using F_two_nz.
Qed.

(** The chord case of the affine [add], read in the field. *)
Lemma Point_add_fe (a b : Point) :
  Px a <> 0%Z -> Py a <> 0%Z -> Px b <> 0%Z -> Py b <> 0%Z ->
  fe (Px b) - fe (Px a) <> 0 ->
  exists r,
    Part000.Point_add a b = Ok r /\
    reduced (Px r) = true /\ reduced (Py r) = true /\
    let lam := (fe (Py b) - fe (Py a)) *
               Zmod.inv (fe (Px b) - fe (Px a)) in
    fe (Px r) = lam * lam - fe (Px a) - fe (Px b) /\
    fe (Py r) = lam * (fe (Px a) - fe (Px r)) - fe (Py a).
Proof.
  intros Hx1 Hy1 Hx2 Hy2 Hd.
  unfold Part000.Point_add. cbv zeta.
  destruct (Z.eqb_spec (Px a) 0) as [|_]; [contradiction|].
  destruct (Z.eqb_spec (Py a) 0) as [|_]; [contradiction|].
  destruct (Z.eqb_spec (Px b) 0) as [|_]; [contradiction|].
  destruct (Z.eqb_spec (Py b) 0) as [|_]; [contradiction|].
  destruct (Z.eqb_spec (Px a) (Px b)) as [Ex|_].
  { exfalso. apply Hd. rewrite Ex. ring. }
  cbn [orb andb].
  destruct (invert_fe (Px b - Px a)) as (i & Ei & Hi & Hfi).
  { push_fe. exact Hd. }
  rewrite Ei. cbn [bind]. repeat (rewrite mod_P; cbn [bind]).
  eexists. split; [reflexivity|]. cbn [Px Py].
  split; [apply reduced_mod|]. split; [apply reduced_mod|].
  revert Hfi. push_fe. intros ->. cbv zeta. split; reflexivity.
Qed.

(** The three outcomes of the Jacobian [add] on operands that are not
    sentinels, read in the field. *)
Lemma JacobianPoint_add_fe (p q : JacobianPoint) :
  Jx p <> 0%Z -> Jy p <> 0%Z -> Jx q <> 0%Z -> Jy q <> 0%Z ->
  let X1 := fe (Jx p) in
  let Y1 := fe (Jy p) in
  let Z1 := fe (Jz p) in
  let X2 := fe (Jx q) in
  let Y2 := fe (Jy q) in
  let Z2 := fe (Jz q) in
  let U1 := X1 * (Z2 * Z2) in
  let U2 := X2 * (Z1 * Z1) in
  let S1 := Y1 * Z2 * (Z2 * Z2) in
  let S2 := Y2 * Z1 * (Z1 * Z1) in
  let H := U2 - U1 in
  let r := S2 - S1 in
  (H = 0 -> r = 0 ->
   Part000.JacobianPoint_add p q = Part000.JacobianPoint_double p) /\
  (H = 0 -> r <> 0 ->
   Part000.JacobianPoint_add p q = Ok JacobianPoint_ZERO) /\
  (H <> 0 ->
   exists j,
     Part000.JacobianPoint_add p q = Ok j /\
     reduced (Jx j) = true /\ reduced (Jy j) = true /\
     reduced (Jz j) = true /\
     fe (Jx j) = r * r - H * (H * H) - (1 + 1) * (U1 * (H * H)) /\
     fe (Jy j) = r * (U1 * (H * H) - fe (Jx j)) - S1 * (H * (H * H)) /\
     fe (Jz j) = Z1 * Z2 * H).
Proof.
  intros Hx1 Hy1 Hx2 Hy2. cbv zeta.
  assert (EH : fe ((Jx q * Jz p ^ 2 - Jx p * Jz q ^ 2) mod CURVE.P) =
               fe (Jx q) * (fe (Jz p) * fe (Jz p)) -
               fe (Jx p) * (fe (Jz q) * fe (Jz q))) by (push_fe; reflexivity).
  assert (Er : fe ((Jy q * Jz p * Jz p ^ 2 - Jy p * Jz q * Jz q ^ 2)
                     mod CURVE.P) =
               fe (Jy q) * fe (Jz p) * (fe (Jz p) * fe (Jz p)) -
               fe (Jy p) * fe (Jz q) * (fe (Jz q) * fe (Jz q)))
    by (push_fe; reflexivity).
  unfold Part000.JacobianPoint_add. cbv zeta.
  destruct (Z.eqb_spec (Jx q) 0) as [|_]; [contradiction|].
  destruct (Z.eqb_spec (Jy q) 0) as [|_]; [contradiction|].
  destruct (Z.eqb_spec (Jx p) 0) as [|_]; [contradiction|].
  destruct (Z.eqb_spec (Jy p) 0) as [|_]; [contradiction|].
  cbn [orb]. rewrite !mod_P. cbn [bind].
  rewrite <- EH, <- Er.
  set (Hz := ((Jx q * Jz p ^ 2 - Jx p * Jz q ^ 2) mod CURVE.P)%Z).
  set (rz := ((Jy q * Jz p * Jz p ^ 2 - Jy p * Jz q * Jz q ^ 2)
                mod CURVE.P)%Z).
  assert (RH : reduced Hz = true) by apply reduced_mod.
  assert (Rr : reduced rz = true) by apply reduced_mod.
  split; [|split].
  - intros H0 r0. apply fe_reduced_0 in H0, r0; try assumption.
    rewrite H0, r0. reflexivity.
  - intros H0 r0. apply fe_reduced_0 in H0; try assumption.
    rewrite H0. cbn [Z.eqb].
    destruct (Z.eqb_spec rz 0) as [E|_]; [|reflexivity].
    exfalso. apply r0. rewrite E. apply fe_0.
  - intros H0. destruct (Z.eqb_spec Hz 0) as [E|_].
    { exfalso. apply H0. rewrite E. apply fe_0. }
    repeat (rewrite mod_P; cbn [bind]).
    eexists. split; [reflexivity|]. cbn [Jx Jy Jz].
    repeat (split; [apply reduced_mod|]).
    push_fe. repeat split; reflexivity.
Qed.

Lemma toAffine_det (j : JacobianPoint) (a : Point) :
  on_curve_J j = true ->
  Part000.JacobianPoint_toAffine j = Ok a ->
  on_curve a = true /\
  fe (Px a) = fe (Jx j) * (Zmod.inv (fe (Jz j)) * Zmod.inv (fe (Jz j))) /\
  fe (Py a) = fe (Jy j) * (Zmod.inv (fe (Jz j)) * Zmod.inv (fe (Jz j))) *
              Zmod.inv (fe (Jz j)).
Proof.
  intros H Ea. pose proof H as H'.
  apply on_curve_J_spec in H as (_ & _ & _ & Hz & E).
  destruct (toAffine_fe j Hz) as (a0 & Ea0 & Rx & Ry & Fx & Fy).
  rewrite Ea in Ea0. injection Ea0 as <-.
  split; [|split; assumption].
  apply on_curve_spec. repeat (split; [assumption|]).
  rewrite Fx, Fy. exact (F_affine_of_J _ _ _ _ Hz E).
Qed.

(** Addition commutes with the conversion to affine coordinates; on
    opposite points the Jacobian [add] returns its sentinel. *)
Theorem toAffine_add (p q : JacobianPoint) (a b : Point) :
  on_curve_J p = true -> on_curve_J q = true ->
  Part000.JacobianPoint_toAffine p = Ok a ->
  Part000.JacobianPoint_toAffine q = Ok b ->
  if Px a =? Px b then
    if Py a =? Py b then
      Part000.JacobianPoint_add p q = Part000.JacobianPoint_double p
    else Part000.JacobianPoint_add p q = Ok JacobianPoint_ZERO
  else
    exists j r,
      Part000.JacobianPoint_add p q = Ok j /\ on_curve_J j = true /\
      Part000.Point_add a b = Ok r /\
      Part000.JacobianPoint_toAffine j = Ok r.
Proof.
  intros Hp Hq Ea Eb.
  destruct (on_curve_J_nz p Hp) as (Hx1 & Hy1 & Hz1).
  destruct (on_curve_J_nz q Hq) as (Hx2 & Hy2 & Hz2).
  destruct (toAffine_det p a Hp Ea) as (Ha & Fxa & Fya).
  destruct (toAffine_det q b Hq Eb) as (Hb & Fxb & Fyb).
  destruct (on_curve_nz a Ha) as [Hxa Hya].
  destruct (on_curve_nz b Hb) as [Hxb Hyb].
  pose proof Ha as Ha'. pose proof Hb as Hb'.
  apply on_curve_spec in Ha' as (Rxa & Rya & _).
  apply on_curve_spec in Hb' as (Rxb & Ryb & _).
  destruct (JacobianPoint_add_fe p q) as (Hdbl & Hopp & Hgen);
    try (apply fe_nz_nz; assumption).
  cbv zeta in Hdbl, Hopp, Hgen.
  set (w1 := Zmod.inv (fe (Jz p))) in *.
  set (w2 := Zmod.inv (fe (Jz q))) in *.
  set (H := fe (Jx q) * (fe (Jz p) * fe (Jz p)) -
            fe (Jx p) * (fe (Jz q) * fe (Jz q))) in *.
  set (r := fe (Jy q) * fe (Jz p) * (fe (Jz p) * fe (Jz p)) -
            fe (Jy p) * fe (Jz q) * (fe (Jz q) * fe (Jz q))) in *.
  assert (Hw1 : w1 <> 0) by now apply F_inv_nz.
  assert (Hw2 : w2 <> 0) by now apply F_inv_nz.
  assert (EH : fe (Px b) - fe (Px a) = H * (w1 * w1) * (w2 * w2)).
  { rewrite Fxa, Fxb. unfold H, w1, w2. field. auto. }
  assert (Er : fe (Py b) - fe (Py a) = r * (w1 * w1 * w1) * (w2 * w2 * w2)).
  { rewrite Fya, Fyb. unfold r, w1, w2. field. auto. }
  destruct (Z.eqb_spec (Px a) (Px b)) as [Ex|Nx].
  - assert (H0 : H = 0).
    { rewrite Ex in EH.
      assert (E0 : H * (w1 * w1) * (w2 * w2) = 0) by (rewrite <- EH; ring).
      repeat (apply (Zmod.mul_0_iff_prime prime_P) in E0;
              destruct E0 as [E0|E0]; try contradiction).
      exact E0. }
    destruct (Z.eqb_spec (Py a) (Py b)) as [Ey|Ny].
    + apply Hdbl; [exact H0|].
      rewrite Ey in Er.
      assert (E0 : r * (w1 * w1 * w1) * (w2 * w2 * w2) = 0)
        by (rewrite <- Er; ring).
      repeat (apply (Zmod.mul_0_iff_prime prime_P) in E0;
              destruct E0 as [E0|E0]; try contradiction).
      exact E0.
    + apply Hopp; [exact H0|].
      intros r0. apply Ny. symmetry. apply fe_reduced_inj; try assumption.
      apply F_sub_eq. rewrite Er, r0. ring.
  - assert (Hd : fe (Px b) - fe (Px a) <> 0) by now apply fe_sub_nz; auto.
    assert (HH : H <> 0).
    { intros H0. apply Hd. rewrite EH, H0. ring. }
    destruct (Hgen HH) as (j & Ej & Rjx & Rjy & Rjz & Fjx & Fjy & Fjz).
    destruct (JacobianPoint_add_on_curve p q Hp Hq) as (j0 & Ej0 & Hj0).
    rewrite Ej in Ej0. injection Ej0 as <-.
    assert (Hzj : fe (Jz j) <> 0).
    { rewrite Fjz. apply F_mul_nz; [apply F_mul_nz|]; assumption. }
    assert (Hj : on_curve_J j = true).
    { destruct Hj0 as [->|Hj0]; [|exact Hj0].
      exfalso. apply Hzj. apply fe_0. }
    destruct (Point_add_fe a b) as (s & Es & Rsx & Rsy & Fsx & Fsy);
      try (apply fe_nz_nz; assumption); [exact Hd|].
    cbv zeta in Fsx, Fsy.
    destruct (toAffine_fe j Hzj) as (t & Et & Rtx & Rty & Ftx & Fty).
    exists j, s. repeat (split; [assumption|]).
    rewrite Et. f_equal. apply Point_eq; try assumption.
    + rewrite Ftx, Fsx, Fjx, Fjz, EH, Er, Fxa, Fxb.
      unfold r, H, w1, w2. field. repeat split; assumption.
    + rewrite Fty, Fsy, Fsx, Fjy, Fjx, Fjz, EH, Er, Fxa, Fxb, Fya.
      unfold r, H, w1, w2. field. repeat split; assumption.
Qed.

Local Close Scope Zmod_scope.

(** * Scalar multiplication on curve points *)

Lemma represents_on_curve (j : JacobianPoint) (a : Point) :
  represents j a -> on_curve a = true.
Proof. intros [Hj Ea]. now destruct (toAffine_det j a Hj Ea). Qed.

Lemma represents_fromAffine (p : Point) :
  on_curve p = true -> represents (Part000.JacobianPoint_fromAffine p) p.
Proof.
  intros H. split; [now apply fromAffine_on_curve|].
  apply on_curve_spec in H as (Hx & Hy & _). now apply toAffine_fromAffine.
Qed.

Lemma represents_double (j : JacobianPoint) (a a' : Point) :
  represents j a -> Part000.Point_double a = Ok a' ->
  exists j', Part000.JacobianPoint_double j = Ok j' /\ represents j' a'.
Proof.
  intros [Hj Ea] Ed.
  destruct (toAffine_double j a Hj Ea) as (j' & a0 & Ej & Ed0 & Et).
  rewrite Ed in Ed0. injection Ed0 as <-.
  exists j'. split; [exact Ej|]. split; [|exact Et].
  destruct (JacobianPoint_double_on_curve j Hj) as (j0 & Ej0 & Hj0).
  rewrite Ej in Ej0. now injection Ej0 as <-.
Qed.

Lemma Point_add_ZERO_l (q : Point) : Part000.Point_add Point_ZERO q = Ok q.
Proof. reflexivity. Qed.

Lemma JacobianPoint_add_ZERO_l (q : JacobianPoint) :
  on_curve_J q = true ->
  Part000.JacobianPoint_add JacobianPoint_ZERO q = Ok q.
Proof.
  intros H. destruct (on_curve_J_nz q H) as (Hx & Hy & _).
  apply fe_nz_nz in Hx, Hy. unfold Part000.JacobianPoint_add. cbv zeta.
  destruct (Z.eqb_spec (Jx q) 0) as [|_]; [contradiction|].
  destruct (Z.eqb_spec (Jy q) 0) as [|_]; [contradiction|].
  reflexivity.
Qed.

(** One addition of the accumulator: where the affine [add] returns, the
    Jacobian [add] returns a representative of the same point. *)
Lemma same_point_add (pJ dJ : JacobianPoint) (pA dA r : Point) :
  same_point pJ pA -> represents dJ dA ->
  Part000.Point_add pA dA = Ok r ->
  exists pJ', Part000.JacobianPoint_add pJ dJ = Ok pJ' /\ represents pJ' r.
Proof.
  intros [[-> ->]|Hp] Hd Ea.
  - rewrite Point_add_ZERO_l in Ea. injection Ea as <-.
    exists dJ. split; [|exact Hd]. apply JacobianPoint_add_ZERO_l, Hd.
  - pose proof (represents_on_curve _ _ Hp) as HpA.
    pose proof (represents_on_curve _ _ Hd) as HdA.
    destruct Hp as [HpJ Ep]. destruct Hd as [HdJ Ed].
    pose proof (toAffine_add pJ dJ pA dA HpJ HdJ Ep Ed) as HJ.
    pose proof (Point_add_on_curve pA dA HpA HdA) as HA.
    destruct (Px pA =? Px dA).
    + destruct (Py pA =? Py dA).
      * rewrite HA in Ea. rewrite HJ.
        apply (represents_double pJ pA r); [split; assumption|exact Ea].
      * rewrite HA in Ea. discriminate.
    + destruct HJ as (j & s & Ej & Hj & Es & Et).
      rewrite Ea in Es. injection Es as <-.
      exists j. split; [exact Ej|]. split; assumption.
Qed.

Lemma getPrecomputesJ_loop_app (k : nat) (acc : list JacobianPoint)
  (d : JacobianPoint) (t : list JacobianPoint) :
  Part000.getPrecomputesJ_loop k acc d = (t, Ok tt) ->
  exists ds, t = acc ++ ds /\ length ds = k.
Proof.
  intros H. destruct (getPrecomputesJ_loop_total k acc d) as (ds & E & Hlen).
  rewrite E in H. injection H as <-. eauto.
Qed.

Lemma multiplyDA_loop_multiplyPreCTJ_loop (k : nat) :
  forall acc dJ dA t n pJ pA f r fuel,
    Part000.getPrecomputesJ_loop k acc dJ = (t, Ok tt) ->
    represents dJ dA -> same_point pJ pA ->
    0 <= n < 2 ^ Z.of_nat k ->
    Part000.multiplyDA_loop fuel pA dA n = Ok r ->
    exists pJ',
      Part000.multiplyPreCTJ_loop k (length acc) t n pJ f = Ok pJ' /\
      same_point pJ' r /\
      (represents pJ pA \/ 0 < n -> represents pJ' r).
Proof.
  induction k as [|k IH]; intros acc dJ dA t n pJ pA f r fuel Ht Hd Hp Hn HA.
  - cbn [Part000.multiplyPreCTJ_loop]. simpl in Hn.
    assert (n = 0) as -> by lia.
    destruct fuel as [|fuel]; [discriminate|].
    cbn in HA. injection HA as <-.
    exists pJ. split; [reflexivity|]. split; [exact Hp|].
    intros [H|H]; [exact H|lia].
  - destruct (getPrecomputesJ_loop_app _ _ _ _ Ht) as (ds & Et & Hlen).
    destruct (Z.eq_dec n 0) as [->|Hnz].
    { destruct fuel as [|fuel]; [discriminate|].
      cbn in HA. injection HA as <-.
      exists pJ. split.
      - apply multiplyPreCTJ_loop_zero. rewrite Et, length_app. lia.
      - split; [exact Hp|]. intros [H|H]; [exact H|lia]. }
    destruct fuel as [|fuel]; [discriminate|].
    cbn [Part000.multiplyDA_loop] in HA.
    destruct (Z.gtb_spec n 0) as [_|]; [|lia].
    cbn [Part000.getPrecomputesJ_loop] in Ht.
    destruct (Part000.Point_double dA) as [dA'|e] eqn:EdA.
    2:{ destruct (if negb (Z.land n 1 =? 0) then Part000.Point_add pA dA
                  else Ok pA); discriminate. }
    destruct (represents_double dJ dA dA' Hd EdA) as (dJ' & EdJ & Hd').
    rewrite EdJ in Ht.
    assert (Hnth : nth_error t (length acc) = Some dJ).
    { destruct ds as [|d0 ds]; [discriminate|].
      destruct (getPrecomputesJ_loop_app _ _ _ _ Ht) as (ds' & Et' & _).
      rewrite Et', <- app_assoc, nth_error_app2, Nat.sub_diag by lia.
      reflexivity. }
    cbn [Part000.multiplyPreCTJ_loop]. rewrite Hnth.
    assert (Hlen' : S (length acc) = length (acc ++ [dJ])).
    { rewrite length_app. cbn [length]. lia. }
    rewrite Hlen'.
    assert (Hsh : 0 <= Z.shiftr n 1 < 2 ^ Z.of_nat k).
    { split; [apply Z.shiftr_nonneg; lia|].
      rewrite Z.shiftr_div_pow2, Z.pow_1_r by lia.
      rewrite Nat2Z.inj_succ, Z.pow_succ_r in Hn by lia.
      apply Z.div_lt_upper_bound; lia. }
    destruct (land_1_cases n) as [E|E]; rewrite E in *;
      cbn [Z.eqb Pos.eqb negb bind] in *.
    + destruct (JacobianPoint_add_total f dJ) as [f' ->]. cbn [bind].
      destruct (IH (acc ++ [dJ]) dJ' dA' t (Z.shiftr n 1) pJ pA f' r fuel
                  Ht Hd' Hp Hsh HA) as (pJ' & El & Hs & Hr).
      exists pJ'. split; [exact El|]. split; [exact Hs|].
      intros [H|H]; apply Hr; [left; exact H|right].
      assert (Z.shiftr n 1 <> 0); [|lia].
      rewrite Z.shiftr_div_pow2, Z.pow_1_r by lia.
      rewrite land_1_mod_2 in E.
      pose proof (Z.div_mod n 2 ltac:(lia)). lia.
    + destruct (Part000.Point_add pA dA) as [pA'|e] eqn:Ea;
        cbn [bind] in HA; [|discriminate].
      destruct (same_point_add pJ dJ pA dA pA' Hp Hd Ea) as (pJ1 & EJ & H1).
      rewrite EJ. cbn [bind].
      destruct (IH (acc ++ [dJ]) dJ' dA' t (Z.shiftr n 1) pJ1 pA' f r fuel
                  Ht Hd' (or_intror H1) Hsh HA) as (pJ' & El & Hs & Hr).
      exists pJ'. split; [exact El|]. split; [exact Hs|].
      intros _. apply Hr. left. exact H1.
Qed.

(** ** What the strategies return is on the curve *)

Lemma Point_add_acc_on_curve (p d r : Point) :
  p = Point_ZERO \/ on_curve p = true -> on_curve d = true ->
  Part000.Point_add p d = Ok r -> on_curve r = true.
Proof.
  intros [->|Hp] Hd.
  - rewrite Point_add_ZERO_l. now intros [= <-].
  - pose proof (Point_add_on_curve p d Hp Hd) as H.
    destruct (Px p =? Px d).
    + destruct (Py p =? Py d); rewrite H; [|discriminate].
      destruct (Point_double_on_curve p Hp) as (r' & -> & Hr').
      now intros [= <-].
    + destruct H as (r' & -> & Hr'). now intros [= <-].
Qed.

Lemma multiplyDA_loop_on_curve (fuel : nat) :
  forall p d n r,
    on_curve d = true ->
    p = Point_ZERO \/ on_curve p = true ->
    Part000.multiplyDA_loop fuel p d n = Ok r ->
    (r = Point_ZERO \/ on_curve r = true) /\
    (on_curve p = true \/ 0 < n -> on_curve r = true).
Proof.
  induction fuel as [|fuel IH]; intros p d n r Hd Hp;
    cbn [Part000.multiplyDA_loop]; [discriminate|].
  destruct (Z.gtb_spec n 0) as [Hpos|Hle].
  - destruct (if negb (Z.land n 1 =? 0) then Part000.Point_add p d else Ok p)
      as [p'|e] eqn:Ea; cbn [bind]; [|discriminate].
    destruct (Point_double_on_curve d Hd) as (d' & -> & Hd'). cbn [bind].
    intros HL.
    assert (Hp' : p' = Point_ZERO \/ on_curve p' = true).
    { destruct (negb _).
      - right. exact (Point_add_acc_on_curve p d p' Hp Hd Ea).
      - injection Ea as <-. exact Hp. }
    destruct (IH p' d' (Z.shiftr n 1) r Hd' Hp' HL) as [H1 H2].
    split; [exact H1|]. intros _. apply H2.
    destruct (land_1_cases n) as [E|E]; rewrite E in Ea;
      cbn [Z.eqb Pos.eqb negb] in Ea.
    + injection Ea as <-. 
      destruct (Z.eq_dec (Z.shiftr n 1) 0) as [E0|]; [|right].
      * rewrite Z.shiftr_div_pow2, Z.pow_1_r in E0 by lia.
        rewrite land_1_mod_2 in E.
        pose proof (Z.div_mod n 2 ltac:(lia)). lia.
      * pose proof (Z.shiftr_nonneg n 1). lia.
    + left. exact (Point_add_acc_on_curve p d p' Hp Hd Ea).
  - intros [= <-]. split; [exact Hp|]. intros [H|H]; [exact H|lia].
Qed.

Lemma getPrecomputesJ_loop_on_curve (k : nat) :
  forall acc d t,
    Forall (fun j => on_curve_J j = true) acc ->
    on_curve_J d = true ->
    Part000.getPrecomputesJ_loop k acc d = (t, Ok tt) ->
    Forall (fun j => on_curve_J j = true) t.
Proof.
  induction k as [|k IH]; intros acc d t Hacc Hd;
    cbn [Part000.getPrecomputesJ_loop].
  - now intros [= <-].
  - destruct (JacobianPoint_double_on_curve d Hd) as (d' & -> & Hd').
    apply IH; [|exact Hd'].
    apply Forall_app. split; [exact Hacc|]. now constructor.
Qed.

Lemma JacobianPoint_add_acc_on_curve (p d r : JacobianPoint) :
  p = JacobianPoint_ZERO \/ on_curve_J p = true -> on_curve_J d = true ->
  Part000.JacobianPoint_add p d = Ok r ->
  r = JacobianPoint_ZERO \/ on_curve_J r = true.
Proof.
  intros [->|Hp] Hd.
  - rewrite JacobianPoint_add_ZERO_l by exact Hd. intros [= <-]. now right.
  - destruct (JacobianPoint_add_on_curve p d Hp Hd) as (r' & -> & Hr').
    now intros [= <-].
Qed.

Lemma multiplyPreCTJ_loop_on_curve (k : nat) :
  forall i t n p f r,
    Forall (fun j => on_curve_J j = true) t ->
    p = JacobianPoint_ZERO \/ on_curve_J p = true ->
    Part000.multiplyPreCTJ_loop k i t n p f = Ok r ->
    r = JacobianPoint_ZERO \/ on_curve_J r = true.
Proof.
  induction k as [|k IH]; intros i t n p f r Ht Hp;
    cbn [Part000.multiplyPreCTJ_loop].
  - now intros [= <-].
  - destruct (nth_error t i) as [dbl|] eqn:E; [|discriminate].
    assert (Hdbl : on_curve_J dbl = true).
    { rewrite Forall_forall in Ht. apply Ht. eapply nth_error_In, E. }
    destruct (Z.land n 1 =? 1).
    + destruct (Part000.JacobianPoint_add p dbl) as [p'|e] eqn:Ea;
        cbn [bind]; [|discriminate].
      apply IH; [exact Ht|].
      exact (JacobianPoint_add_acc_on_curve p dbl p' Hp Hdbl Ea).
    + destruct (Part000.JacobianPoint_add f dbl) as [f'|e];
        cbn [bind]; [|discriminate].
      apply IH; assumption.
Qed.

Lemma toAffine_ZERO :
  Part000.JacobianPoint_toAffine JacobianPoint_ZERO =
    Err InvertExpectedPositive.
Proof. reflexivity. Qed.

(** ** The scalar as the loops read it *)

Lemma multiplyCT_loop_low_bits (k : nat) :
  forall i dbls n p f,
    Part000.multiplyCT_loop k i dbls n p f =
    Part000.multiplyCT_loop k i dbls (n mod 2 ^ Z.of_nat k) p f.
Proof.
  induction k as [|k IH]; intros i dbls n p f;
    cbn [Part000.multiplyCT_loop]; [reflexivity|].
  destruct (nth_error dbls i) as [dbl|]; [|reflexivity].
  rewrite land_1_mod_pow2, shiftr_1_mod_pow2.
  destruct (Z.land n 1 =? 1);
    destruct (Part000.Point_add _ dbl); cbn [bind];
    try reflexivity; apply IH.
Qed.

Lemma multiplyCT_low_bits (st : Store) (this : Point) (n : Z) :
  Part000.multiplyCT st this n =
  Part000.multiplyCT st this (n mod 2 ^ 256).
Proof.
  unfold Part000.multiplyCT.
  generalize (Part000.getPrecomputes st this).
  intros [st' [dbls|e]]; cbn [bind]; [|reflexivity].
  rewrite multiplyCT_loop_low_bits. reflexivity.
Qed.

Lemma multiplyDA_nonpositive (this : Point) (n : Z) :
  n <= 0 -> Part000.multiplyDA this n = Ok Point_ZERO.
Proof.
  intros Hn. unfold Part000.multiplyDA.
  destruct (multiplyDA_fuel_enough n) as (fuel & -> & _).
  cbn [Part000.multiplyDA_loop].
  destruct (Z.gtb_spec n 0) as [|_]; [lia|reflexivity].
Qed.

(** ** The tables are built once *)

Lemma getPrecomputes_loop_on_curve (k : nat) :
  forall acc d,
    on_curve d = true ->
    exists ds,
      Part000.getPrecomputes_loop k acc d = (acc ++ ds, Ok tt) /\
      length ds = k /\ Forall (fun p => on_curve p = true) ds.
Proof.
  induction k as [|k IH]; intros acc d Hd; cbn [Part000.getPrecomputes_loop].
  - exists []. rewrite app_nil_r. repeat split. constructor.
  - destruct (Point_double_on_curve d Hd) as (d' & -> & Hd').
    destruct (IH (acc ++ [d]) d' Hd') as (ds & -> & Hlen & Hds).
    exists (d :: ds). rewrite <- app_assoc. split; [reflexivity|].
    split; [cbn [length]; now rewrite Hlen|]. now constructor.
Qed.

Lemma multiplyCT_shared (st : Store) (this : Point) :
  on_curve this = true -> precomputes st = None ->
  exists t,
    length t = 256%nat /\
    forall k,
      fst (Part000.multiplyCT st this k) = mkStore (Some t) (precomputesJ st) /\
      forall Q n,
        Part000.multiplyCT (mkStore (Some t) (precomputesJ st)) Q n =
        (mkStore (Some t) (precomputesJ st),
         snd (Part000.multiplyCT st this n)).
Proof.
  intros Hthis Hst.
  destruct (getPrecomputes_loop_on_curve 256 [] this Hthis)
    as (t & Et & Hlen & _).
  cbn [app] in Et. exists t. split; [exact Hlen|]. intros k.
  unfold Part000.multiplyCT, Part000.getPrecomputes. rewrite Hst, Et.
  cbn [fst snd precomputes bind]. split; reflexivity.
Qed.

Lemma multiplyPreCTJ_shared (st : Store) (this : Point) :
  precomputesJ st = None ->
  exists t,
    length t = 256%nat /\
    forall k,
      fst (Part000.multiplyPreCTJ st this k) =
        mkStore (precomputes st) (Some t) /\
      forall Q n,
        Part000.multiplyPreCTJ (mkStore (precomputes st) (Some t)) Q n =
        (mkStore (precomputes st) (Some t),
         snd (Part000.multiplyPreCTJ st this n)).
Proof.
  intros Hst.
  destruct (getPrecomputesJ_fresh st this Hst) as (t & Eg & Hlen & _).
  exists t. split; [exact Hlen|]. intros k.
  unfold Part000.multiplyPreCTJ. rewrite Eg.
  unfold Part000.getPrecomputesJ.
  cbn [fst snd precomputesJ bind]. split; reflexivity.
Qed.

Lemma getPrecomputes_loop_S (k : nat) (acc : list Point) (d : Point) :
  Part000.getPrecomputes_loop (S k) acc d =
  match Part000.Point_double d with
  | Err e => (acc ++ [d], Err e)
  | Ok d' => Part000.getPrecomputes_loop k (acc ++ [d]) d'
  end.
Proof. reflexivity. Qed.

Lemma multiplyCT_loop_S (k i : nat) (dbls : list Point) (n : Z)
  (p f : Point) :
  Part000.multiplyCT_loop (S k) i dbls n p f =
  match nth_error dbls i with
  | None => Err TypeError
  | Some dbl =>
      if Z.land n 1 =? 1 then
        p' <- Part000.Point_add p dbl ;;
        Part000.multiplyCT_loop k (S i) dbls (Z.shiftr n 1) p' f
      else
        f' <- Part000.Point_add f dbl ;;
        Part000.multiplyCT_loop k (S i) dbls (Z.shiftr n 1) p f'
  end.
Proof. reflexivity. Qed.

(** ** [multiplyDA] on an even scalar *)

Lemma multiplyDA_fuel_double (n : Z) :
  0 < n -> multiplyDA_fuel (2 * n) = S (multiplyDA_fuel n).
Proof.
  intros Hn. unfold multiplyDA_fuel.
  rewrite Z.log2_double by exact Hn.
  pose proof (Z.log2_nonneg n). rewrite Z2Nat.inj_succ by lia. lia.
Qed.

(** ** [mod] *)

Lemma mod_negative (a b : Z) :
  b < 0 ->
  exists r, mod_ a b = Ok r /\ (b | a - r) /\
            (0 <= r < - b \/ 2 * b < r < b).
Proof.
  intros Hb. unfold mod_.
  destruct (Z.eqb_spec b 0) as [->|_]; [lia|].
  pose proof (Z.rem_bound_abs a b ltac:(lia)) as Hr.
  pose proof (Z.quot_rem' a b) as Hq.
  eexists. split; [reflexivity|].
  destruct (Z.geb_spec (Z.rem a b) 0) as [Hge|Hlt].
  - split; [exists (Z.quot a b); lia|]. left. lia.
  - split; [exists (Z.quot a b - 1); lia|]. right. lia.
Qed.

(** ** [invert] *)

Lemma invert_returns (a m i : Z) :
  Part000.invert a m = Ok i ->
  a <> 0 /\ 0 < m /\ 0 <= i < m /\ (a * i) mod m = 1 mod m.
Proof.
  intros H.
  destruct (Z.eq_dec a 0) as [->|Ha].
  { rewrite invert_guard in H by auto. discriminate. }
  destruct (Z.le_gt_cases m 0) as [Hle|Hm].
  { rewrite invert_guard in H by auto. discriminate. }
  destruct (Z.eq_dec (Z.gcd a m) 1) as [Hg|Hg].
  - destruct (invert_coprime a m Ha Hm Hg) as (r & E & Hr & H1).
    rewrite E in H. injection H as <-. auto.
  - rewrite invert_not_coprime in H by assumption. discriminate.
Qed.

(** ** The only exception on curve points *)

Lemma curve_point_nonzero (p : Point) :
  on_curve p = true -> Px p <> 0 /\ Py p <> 0.
Proof.
  intros H. destruct (on_curve_nz p H). split; now apply fe_nz_nz.
Qed.

Lemma Point_add_acc_error (p d : Point) (e : error) :
  p = Point_ZERO \/ on_curve p = true -> on_curve d = true ->
  Part000.Point_add p d = Err e -> e = InvertExpectedPositive.
Proof.
  intros [->|Hp] Hd.
  - rewrite Point_add_ZERO_l. discriminate.
  - pose proof (Point_add_on_curve p d Hp Hd) as H.
    destruct (Px p =? Px d).
    + destruct (Py p =? Py d); rewrite H.
      * destruct (Point_double_on_curve p Hp) as (r' & -> & _). discriminate.
      * now intros [= <-].
    + destruct H as (r' & -> & _). discriminate.
Qed.

Lemma multiplyDA_loop_on_curve_error (fuel : nat) :
  forall p d n e,
    on_curve d = true ->
    p = Point_ZERO \/ on_curve p = true ->
    Part000.multiplyDA_loop fuel p d n = Err e ->
    e = InvertExpectedPositive \/ e = OutOfFuel.
Proof.
  induction fuel as [|fuel IH]; intros p d n e Hd Hp;
    cbn [Part000.multiplyDA_loop].
  - intros [= <-]. now right.
  - destruct (n >? 0); [|discriminate].
    destruct (Point_double_on_curve d Hd) as (d' & -> & Hd').
    destruct (negb (Z.land n 1 =? 0)).
    + destruct (Part000.Point_add p d) as [p'|e'] eqn:Ea; cbn [bind].
      * apply IH; [exact Hd'|].
        right. exact (Point_add_acc_on_curve p d p' Hp Hd Ea).
      * intros [= <-]. left. exact (Point_add_acc_error p d e' Hp Hd Ea).
    + cbn [bind]. apply IH; assumption.
Qed.

Lemma multiplyCT_loop_curve (k : nat) :
  forall i t n p f,
    Forall (fun q => on_curve q = true) t ->
    (i + k <= length t)%nat ->
    p = Point_ZERO \/ on_curve p = true ->
    f = Point_ZERO \/ on_curve f = true ->
    match Part000.multiplyCT_loop k i t n p f with
    | Ok r => r = Point_ZERO \/ on_curve r = true
    | Err e => e = InvertExpectedPositive
    end.
Proof.
  induction k as [|k IH]; intros i t n p f Ht Hlen Hp Hf;
    cbn [Part000.multiplyCT_loop]; [exact Hp|].
  destruct (nth_error t i) as [dbl|] eqn:E.
  2:{ apply nth_error_None in E. lia. }
  assert (Hdbl : on_curve dbl = true).
  { rewrite Forall_forall in Ht. apply Ht. eapply nth_error_In, E. }
  destruct (Z.land n 1 =? 1).
  - destruct (Part000.Point_add p dbl) as [p'|e] eqn:Ea; cbn [bind].
    + apply IH; try assumption; [lia|].
      right. exact (Point_add_acc_on_curve p dbl p' Hp Hdbl Ea).
    + exact (Point_add_acc_error p dbl e Hp Hdbl Ea).
  - destruct (Part000.Point_add f dbl) as [f'|e] eqn:Ea; cbn [bind].
    + apply IH; try assumption; [lia|].
      right. exact (Point_add_acc_on_curve f dbl f' Hf Hdbl Ea).
    + exact (Point_add_acc_error f dbl e Hf Hdbl Ea).
Qed.

Local Open Scope Zmod_scope.

(** ** secp256k1.ts returns what part_000 returns *)

Lemma invert_ts_returns (a i : Z) :
  Secp256k1Ts.invert a CURVE.P = Ok i -> Part000.invert a CURVE.P = Ok i.
Proof.
  destruct (Z.le_gt_cases a 0) as [Hle|Hpos].
  - rewrite invert_ts_nonpositive by exact Hle. discriminate.
  - rewrite invert_ts_positive by exact Hpos.
    destruct (Z.leb_spec CURVE.P 0) as [H|_]; [pose proof P_pos; lia|].
    trivial.
Qed.

Lemma Point_double_ts_returns (p r : Point) :
  Secp256k1Ts.Point_double p = Ok r -> Part000.Point_double p = Ok r.
Proof.
  unfold Secp256k1Ts.Point_double, Part000.Point_double.
  destruct (Secp256k1Ts.invert (2 * Py p) CURVE.P) as [i|e] eqn:E;
    cbn [bind]; [|discriminate].
  rewrite (invert_ts_returns _ _ E). trivial.
Qed.

Lemma mod_eq_fe (x y : Z) : fe x = fe y -> (x mod CURVE.P = y mod CURVE.P)%Z.
Proof. apply fe_eq_iff. Qed.

(** The slope that secp256k1.ts leaves unreduced gives the same
    coordinates. *)
Lemma Point_add_ts_returns (p q r : Point) :
  Secp256k1Ts.Point_add p q = Ok r -> Part000.Point_add p q = Ok r.
Proof.
  unfold Secp256k1Ts.Point_add, Part000.Point_add. cbv zeta.
  destruct (_ || _)%bool; [trivial|].
  destruct (_ || _)%bool; [trivial|].
  destruct (_ && _)%bool; [apply Point_double_ts_returns|].
  destruct (_ && _)%bool; [trivial|].
  rewrite mod_P. cbn [bind].
  destruct (Secp256k1Ts.invert (Px q - Px p) CURVE.P) as [i|e] eqn:E;
    cbn [bind]; [|discriminate].
  rewrite (invert_ts_returns _ _ E). cbn [bind].
  repeat (rewrite mod_P; cbn [bind]).
  intros [= <-]. f_equal.
  assert (EX : ((((Py q - Py p) * i) mod CURVE.P *
                 (((Py q - Py p) * i) mod CURVE.P) - Px p - Px q)
                  mod CURVE.P =
                ((Py q - Py p) mod CURVE.P * i *
                 ((Py q - Py p) mod CURVE.P * i) - Px p - Px q)
                  mod CURVE.P)%Z).
  { apply mod_eq_fe. push_fe. reflexivity. }
  rewrite EX. f_equal.
  apply mod_eq_fe. push_fe. reflexivity.
Qed.

Lemma multiplyDA_loop_ts_returns (fuel : nat) :
  forall p d n r,
    Secp256k1Ts.multiplyDA_loop fuel p d n = Ok r ->
    Part000.multiplyDA_loop fuel p d n = Ok r.
Proof.
  induction fuel as [|fuel IH]; intros p d n r;
    cbn [Secp256k1Ts.multiplyDA_loop Part000.multiplyDA_loop]; [trivial|].
  destruct (n >? 0)%Z; [|trivial].
  destruct (negb (Z.land n 1 =? 0)%Z).
  - destruct (Secp256k1Ts.Point_add p d) as [p'|e] eqn:Ea;
      cbn [bind]; [|discriminate].
    rewrite (Point_add_ts_returns _ _ _ Ea). cbn [bind].
    destruct (Secp256k1Ts.Point_double d) as [d'|e] eqn:Ed;
      cbn [bind]; [|discriminate].
    rewrite (Point_double_ts_returns _ _ Ed). cbn [bind]. apply IH.
  - cbn [bind].
    destruct (Secp256k1Ts.Point_double d) as [d'|e] eqn:Ed;
      cbn [bind]; [|discriminate].
    rewrite (Point_double_ts_returns _ _ Ed). cbn [bind]. apply IH.
Qed.

(** ** The affine [add] is commutative on curve points *)

Lemma Point_add_comm (p q : Point) :
  on_curve p = true -> on_curve q = true ->
  Part000.Point_add p q = Part000.Point_add q p.
Proof.
  intros Hp Hq.
  pose proof (Point_add_on_curve p q Hp Hq) as Hpq.
  pose proof (Point_add_on_curve q p Hq Hp) as Hqp.
  rewrite (Z.eqb_sym (Px q) (Px p)), (Z.eqb_sym (Py q) (Py p)) in Hqp.
  destruct (Z.eqb_spec (Px p) (Px q)) as [Ex|Nx].
  - destruct (Z.eqb_spec (Py p) (Py q)) as [Ey|Ny].
    + destruct p as [x1 y1], q as [x2 y2]. cbn [Px Py] in Ex, Ey.
      now subst.
    + now rewrite Hpq, Hqp.
  - clear Hpq Hqp.
    destruct (on_curve_nz p Hp) as [Hx1 Hy1].
    destruct (on_curve_nz q Hq) as [Hx2 Hy2].
    apply fe_nz_nz in Hx1, Hy1, Hx2, Hy2.
    apply on_curve_spec in Hp as (Rx1 & Ry1 & _).
    apply on_curve_spec in Hq as (Rx2 & Ry2 & _).
    assert (D1 : fe (Px q) - fe (Px p) <> 0) by (apply fe_sub_nz; auto).
    assert (D2 : fe (Px p) - fe (Px q) <> 0) by (apply fe_sub_nz; auto).
    destruct (Point_add_fe p q) as (r & -> & Rx & Ry & Fx & Fy);
      try assumption.
    destruct (Point_add_fe q p) as (s & -> & Sx & Sy & Gx & Gy);
      try assumption.
    cbv zeta in Fx, Fy, Gx, Gy.
    f_equal. apply Point_eq; try assumption.
    + rewrite Fx, Gx. field. split; assumption.
    + rewrite Fy, Gy, Fx, Gx. field. split; assumption.
Qed.

Local Close Scope Zmod_scope.

(** The Jacobian [add] is commutative up to the representative: the two
    orders give triples of the same affine point. *)
Lemma JacobianPoint_add_comm (p q : JacobianPoint) :
  on_curve_J p = true -> on_curve_J q = true ->
  exists j j',
    Part000.JacobianPoint_add p q = Ok j /\
    Part000.JacobianPoint_add q p = Ok j' /\
    Part000.JacobianPoint_toAffine j = Part000.JacobianPoint_toAffine j'.
Proof.
  intros Hp Hq.
  destruct (toAffine_on_curve p Hp) as (a & Ea & Ha).
  destruct (toAffine_on_curve q Hq) as (b & Eb & Hb).
  pose proof (toAffine_add p q a b Hp Hq Ea Eb) as Hpq.
  pose proof (toAffine_add q p b a Hq Hp Eb Ea) as Hqp.
  rewrite (Z.eqb_sym (Px b) (Px a)), (Z.eqb_sym (Py b) (Py a)) in Hqp.
  destruct (Z.eqb_spec (Px a) (Px b)) as [Ex|Nx].
  - destruct (Z.eqb_spec (Py a) (Py b)) as [Ey|Ny].
    + assert (a = b) as <-.
      { destruct a as [x1 y1], b as [x2 y2]. cbn [Px Py] in Ex, Ey.
        now subst. }
      destruct (toAffine_double p a Hp Ea) as (j & a' & Ej & Ed & Et).
      destruct (toAffine_double q a Hq Eb) as (j' & a'' & Ej' & Ed' & Et').
      rewrite Ed in Ed'. injection Ed' as <-.
      exists j, j'. rewrite Hpq, Hqp, Et, Et'. auto.
    + exists JacobianPoint_ZERO, JacobianPoint_ZERO. auto.
  - destruct Hpq as (j & r & Ej & _ & Er & Et).
    destruct Hqp as (j' & r' & Ej' & _ & Er' & Et').
    rewrite (Point_add_comm a b Ha Hb), Er' in Er. injection Er as ->.
    exists j, j'. rewrite Et, Et'. auto.
Qed.

(** * Further properties of the code *)

(** Evaluations on the generator that the examples below start from. *)

Lemma G_on_curve : on_curve G = true.
Proof. vm_compute. reflexivity. Qed.

Lemma BASE_on_curve : on_curve_J JacobianPoint_BASE = true.
Proof. vm_compute. reflexivity. Qed.

Lemma toAffine_BASE : Part000.JacobianPoint_toAffine JacobianPoint_BASE = Ok G.
Proof. apply (toAffine_fromAffine G); reflexivity. Qed.

Lemma multiplyDA_G_1 : Part000.multiplyDA G 1 = Ok G.
Proof. vm_compute. reflexivity. Qed.

Lemma multiplyDA_ts_G_1 : Secp256k1Ts.multiplyDA G 1 = Ok G.
Proof. vm_compute. reflexivity. Qed.

Lemma multiplyCT_G_3 :
  snd (Part000.multiplyCT empty_store G 3) =
    Ok (mkPoint
          112711660439710606056748659173929673102114977341539408544630613555209775888121
          25583027980570883691656905877401976406448868254816295069919888960541586679410).
Proof. apply Fast_multiplyCT_sound; [reflexivity|]. vm_compute. reflexivity. Qed.

Lemma multiplyPreCTJ_G_1 :
  snd (Part000.multiplyPreCTJ empty_store G 1) = Ok G.
Proof.
  apply Fast_multiplyPreCTJ_sound; [reflexivity|]. vm_compute. reflexivity.
Qed.

(** X1.  No point of the curve has a zero coordinate, in affine or in
    Jacobian coordinates: the tests [x === 0n || y === 0n] by which both
    [add] methods recognise the identity never fire on a curve point. *)
Theorem curve_points_have_no_zero_coordinate (p : Point)
  (j : JacobianPoint) :
  on_curve p = true -> on_curve_J j = true ->
  (Px p <> 0 /\ Py p <> 0) /\ (Jx j <> 0 /\ Jy j <> 0 /\ Jz j <> 0).
Proof.
  intros Hp Hj.
  destruct (on_curve_nz p Hp) as [Hx Hy].
  destruct (on_curve_J_nz j Hj) as (HX & HY & HZ).
  repeat split; apply fe_nz_nz; assumption.
Qed.

Lemma curve_points_have_no_zero_coordinate_witness :
  on_curve G = true /\ on_curve_J JacobianPoint_BASE = true /\
  (Px G <> 0 /\ Py G <> 0) /\
  (Jx JacobianPoint_BASE <> 0 /\ Jy JacobianPoint_BASE <> 0 /\
   Jz JacobianPoint_BASE <> 0).
Proof.
  split; [exact G_on_curve|]. split; [exact BASE_on_curve|].
  exact (curve_points_have_no_zero_coordinate G JacobianPoint_BASE
           G_on_curve BASE_on_curve).
Defined.

(** X2.  The affine [double] of a curve point never raises, and returns
    a curve point. *)
Theorem double_stays_on_curve (p : Point) :
  on_curve p = true ->
  exists r, Part000.Point_double p = Ok r /\ on_curve r = true.
Proof. exact (Point_double_on_curve p). Qed.

Lemma double_stays_on_curve_witness :
  on_curve G = true /\
  exists r, Part000.Point_double G = Ok r /\ on_curve r = true.
Proof.
  split; [exact G_on_curve|].
  exact (double_stays_on_curve G G_on_curve).
Defined.

(** X3.  The affine [add] on two curve points: equal points are doubled,
    points with the same [x] and different [y] (opposite points) raise
    [invert]'s exception, and points with different [x] give a curve
    point. *)
Theorem add_on_curve_points (p q : Point) :
  on_curve p = true -> on_curve q = true ->
  if Px p =? Px q then
    if Py p =? Py q then Part000.Point_add p q = Part000.Point_double p
    else Part000.Point_add p q = Err InvertExpectedPositive
  else exists r, Part000.Point_add p q = Ok r /\ on_curve r = true.
Proof. exact (Point_add_on_curve p q). Qed.

Lemma add_on_curve_points_witness :
  on_curve G = true /\
  on_curve (mkPoint
    89565891926547004231252920425935692360644145829622209833684329913297188986597
    12158399299693830322967808612713398636155367887041628176798871954788371653930)
    = true /\
  exists r,
    Part000.Point_add G (mkPoint
      89565891926547004231252920425935692360644145829622209833684329913297188986597
      12158399299693830322967808612713398636155367887041628176798871954788371653930)
      = Ok r /\ on_curve r = true.
Proof.
  split; [exact G_on_curve|]. split; [vm_compute; reflexivity|].
  apply (add_on_curve_points G (mkPoint
    89565891926547004231252920425935692360644145829622209833684329913297188986597
    12158399299693830322967808612713398636155367887041628176798871954788371653930));
    vm_compute; reflexivity.
Defined.

(** X4.  On curve points the affine [add] is commutative: the same
    point, or the same exception, in both orders. *)
Theorem add_commutes_on_curve (p q : Point) :
  on_curve p = true -> on_curve q = true ->
  Part000.Point_add p q = Part000.Point_add q p.
Proof. exact (Point_add_comm p q). Qed.

Lemma add_commutes_on_curve_witness :
  on_curve G = true /\
  on_curve (mkPoint
    89565891926547004231252920425935692360644145829622209833684329913297188986597
    12158399299693830322967808612713398636155367887041628176798871954788371653930)
    = true /\
  Part000.Point_add G (mkPoint
    89565891926547004231252920425935692360644145829622209833684329913297188986597
    12158399299693830322967808612713398636155367887041628176798871954788371653930) =
  Part000.Point_add (mkPoint
    89565891926547004231252920425935692360644145829622209833684329913297188986597
    12158399299693830322967808612713398636155367887041628176798871954788371653930) G.
Proof.
  split; [exact G_on_curve|]. split; [vm_compute; reflexivity|].
  apply add_commutes_on_curve; vm_compute; reflexivity.
Defined.

(** X5.  The Jacobian [double] of a curve point (a triple with [z] not
    zero that satisfies the curve equation) is a curve point. *)
Theorem Jacobian_double_stays_on_curve (j : JacobianPoint) :
  on_curve_J j = true ->
  exists r, Part000.JacobianPoint_double j = Ok r /\ on_curve_J r = true.
Proof. exact (JacobianPoint_double_on_curve j). Qed.

Lemma Jacobian_double_stays_on_curve_witness :
  on_curve_J JacobianPoint_BASE = true /\
  exists r, Part000.JacobianPoint_double JacobianPoint_BASE = Ok r /\
            on_curve_J r = true.
Proof.
  split; [exact BASE_on_curve|].
  exact (Jacobian_double_stays_on_curve JacobianPoint_BASE BASE_on_curve).
Defined.

(** X6.  The Jacobian [add] of two curve points returns a curve point,
    or the sentinel [(0, 1, 0)]. *)
Theorem Jacobian_add_stays_on_curve (p q : JacobianPoint) :
  on_curve_J p = true -> on_curve_J q = true ->
  exists r, Part000.JacobianPoint_add p q = Ok r /\
            (r = JacobianPoint_ZERO \/ on_curve_J r = true).
Proof. exact (JacobianPoint_add_on_curve p q). Qed.

Lemma Jacobian_add_stays_on_curve_witness :
  on_curve_J JacobianPoint_BASE = true /\
  exists r,
    Part000.JacobianPoint_add JacobianPoint_BASE JacobianPoint_BASE = Ok r /\
    (r = JacobianPoint_ZERO \/ on_curve_J r = true).
Proof.
  split; [exact BASE_on_curve|].
  exact (Jacobian_add_stays_on_curve JacobianPoint_BASE JacobianPoint_BASE
           BASE_on_curve BASE_on_curve).
Defined.

(** X7.  The Jacobian [add] is commutative up to the representative:
    the two orders return triples that [toAffine] takes to the same
    result. *)
Theorem Jacobian_add_commutes (p q : JacobianPoint) :
  on_curve_J p = true -> on_curve_J q = true ->
  exists j j',
    Part000.JacobianPoint_add p q = Ok j /\
    Part000.JacobianPoint_add q p = Ok j' /\
    Part000.JacobianPoint_toAffine j = Part000.JacobianPoint_toAffine j'.
Proof. exact (JacobianPoint_add_comm p q). Qed.

Lemma Jacobian_add_commutes_witness :
  on_curve_J JacobianPoint_BASE = true /\
  exists j j',
    Part000.JacobianPoint_add JacobianPoint_BASE JacobianPoint_BASE = Ok j /\
    Part000.JacobianPoint_add JacobianPoint_BASE JacobianPoint_BASE = Ok j' /\
    Part000.JacobianPoint_toAffine j = Part000.JacobianPoint_toAffine j'.
Proof.
  split; [exact BASE_on_curve|].
  exact (Jacobian_add_commutes JacobianPoint_BASE JacobianPoint_BASE
           BASE_on_curve BASE_on_curve).
Defined.

(** X8.  [fromAffine] then [toAffine] gives back the point, for every
    point with coordinates in [[0, P)]. *)
Theorem fromAffine_toAffine_round_trip (p : Point) :
  reduced (Px p) = true -> reduced (Py p) = true ->
  Part000.JacobianPoint_toAffine (Part000.JacobianPoint_fromAffine p) = Ok p.
Proof. exact (toAffine_fromAffine p). Qed.

Lemma fromAffine_toAffine_round_trip_witness :
  reduced (Px G) = true /\ reduced (Py G) = true /\
  Part000.JacobianPoint_toAffine (Part000.JacobianPoint_fromAffine G) = Ok G.
Proof.
  split; [reflexivity|]. split; [reflexivity|].
  apply fromAffine_toAffine_round_trip; reflexivity.
Defined.

(** X9.  [toAffine] of a Jacobian curve point never raises and returns
    an affine curve point. *)
Theorem toAffine_returns_curve_point (j : JacobianPoint) :
  on_curve_J j = true ->
  exists a, Part000.JacobianPoint_toAffine j = Ok a /\ on_curve a = true.
Proof. exact (toAffine_on_curve j). Qed.

Lemma toAffine_returns_curve_point_witness :
  on_curve_J JacobianPoint_BASE = true /\
  exists a, Part000.JacobianPoint_toAffine JacobianPoint_BASE = Ok a /\
            on_curve a = true.
Proof.
  split; [exact BASE_on_curve|].
  exact (toAffine_returns_curve_point JacobianPoint_BASE BASE_on_curve).
Defined.

(** X10.  Doubling commutes with the conversion: for a Jacobian curve
    point [j] with [toAffine j = a], [toAffine (double j)] is the affine
    [double a], and neither raises. *)
Theorem double_commutes_with_toAffine (j : JacobianPoint) (a : Point) :
  on_curve_J j = true ->
  Part000.JacobianPoint_toAffine j = Ok a ->
  exists j' a',
    Part000.JacobianPoint_double j = Ok j' /\
    Part000.Point_double a = Ok a' /\
    Part000.JacobianPoint_toAffine j' = Ok a'.
Proof. exact (toAffine_double j a). Qed.

Lemma double_commutes_with_toAffine_witness :
  on_curve_J JacobianPoint_BASE = true /\
  Part000.JacobianPoint_toAffine JacobianPoint_BASE = Ok G /\
  exists j' a',
    Part000.JacobianPoint_double JacobianPoint_BASE = Ok j' /\
    Part000.Point_double G = Ok a' /\
    Part000.JacobianPoint_toAffine j' = Ok a'.
Proof.
  split; [exact BASE_on_curve|]. split; [exact toAffine_BASE|].
  exact (double_commutes_with_toAffine JacobianPoint_BASE G
           BASE_on_curve toAffine_BASE).
Defined.

(** X11.  Addition commutes with the conversion: for Jacobian curve
    points with affine forms [a] and [b], the Jacobian [add] doubles
    when [a = b], returns the sentinel [(0, 1, 0)] when [a] and [b] are
    opposite (where the affine [add] raises), and otherwise returns a
    curve point whose affine form is the affine [add a b]. *)
Theorem add_commutes_with_toAffine (p q : JacobianPoint) (a b : Point) :
  on_curve_J p = true -> on_curve_J q = true ->
  Part000.JacobianPoint_toAffine p = Ok a ->
  Part000.JacobianPoint_toAffine q = Ok b ->
  if Px a =? Px b then
    if Py a =? Py b then
      Part000.JacobianPoint_add p q = Part000.JacobianPoint_double p
    else Part000.JacobianPoint_add p q = Ok JacobianPoint_ZERO
  else
    exists j r,
      Part000.JacobianPoint_add p q = Ok j /\ on_curve_J j = true /\
      Part000.Point_add a b = Ok r /\
      Part000.JacobianPoint_toAffine j = Ok r.
Proof. exact (toAffine_add p q a b). Qed.

Lemma add_commutes_with_toAffine_witness :
  on_curve_J JacobianPoint_BASE = true /\
  Part000.JacobianPoint_toAffine JacobianPoint_BASE = Ok G /\
  Part000.JacobianPoint_add JacobianPoint_BASE JacobianPoint_BASE =
    Part000.JacobianPoint_double JacobianPoint_BASE.
Proof.
  split; [exact BASE_on_curve|]. split; [exact toAffine_BASE|].
  exact (add_commutes_with_toAffine JacobianPoint_BASE JacobianPoint_BASE
           G G BASE_on_curve BASE_on_curve toAffine_BASE toAffine_BASE).
Defined.

(** X12.  Wherever [multiplyDA] returns for a scalar in [(0, 2^256)] on
    a curve point, [multiplyPreCTJ], called with no table in the store,
    returns the same point. *)
Theorem multiplyDA_returns_multiplyPreCTJ (st : Store) (this : Point)
  (n : Z) (r : Point) :
  on_curve this = true ->
  precomputesJ st = None ->
  0 < n < 2 ^ 256 ->
  Part000.multiplyDA this n = Ok r ->
  snd (Part000.multiplyPreCTJ st this n) = Ok r.
Proof.
  intros Hthis Hst Hn HA.
  destruct (getPrecomputesJ_fresh st this Hst) as (t & Eg & Hlen & Ht).
  unfold Part000.multiplyPreCTJ. rewrite Eg. cbn [snd bind].
  destruct (multiplyDA_loop_multiplyPreCTJ_loop 256 []
              (Part000.JacobianPoint_fromAffine this) this t n
              JacobianPoint_ZERO Point_ZERO JacobianPoint_ZERO r
              (multiplyDA_fuel n) Ht (represents_fromAffine this Hthis))
    as (pJ & El & _ & Hr).
  - left. split; reflexivity.
  - split; [lia|]. apply Hn.
  - exact HA.
  - cbn [length] in El. rewrite El. cbn [bind].
    apply Hr. right. lia.
Qed.

Lemma multiplyDA_returns_multiplyPreCTJ_witness :
  on_curve G = true /\ precomputesJ empty_store = None /\
  0 < 1 < 2 ^ 256 /\ Part000.multiplyDA G 1 = Ok G /\
  snd (Part000.multiplyPreCTJ empty_store G 1) = Ok G.
Proof.
  split; [exact G_on_curve|]. split; [reflexivity|].
  split; [split; reflexivity|]. split; [exact multiplyDA_G_1|].
  apply (multiplyDA_returns_multiplyPreCTJ empty_store G 1 G);
    [exact G_on_curve|reflexivity|split; reflexivity|exact multiplyDA_G_1].
Defined.

(** X13.  [multiplyDA] on a curve point returns a curve point when the
    scalar is positive and the sentinel [(0, 0)] when it is not, or it
    raises [invert]'s first exception (an addition met opposite points);
    it raises nothing else. *)
Theorem multiplyDA_on_curve (this : Point) (n : Z) :
  on_curve this = true ->
  match Part000.multiplyDA this n with
  | Ok r => if 0 <? n then on_curve r = true else r = Point_ZERO
  | Err e => e = InvertExpectedPositive
  end.
Proof.
  intros Hthis.
  destruct (Part000.multiplyDA this n) as [r|e] eqn:E.
  - revert E. unfold Part000.multiplyDA.
    destruct (Z.ltb_spec 0 n) as [Hpos|Hle].
    + intros H.
      apply (multiplyDA_loop_on_curve _ _ _ _ _ Hthis (or_introl eq_refl)) in H.
      apply H. right. exact Hpos.
    + destruct (multiplyDA_fuel_enough n) as (fuel & -> & _).
      cbn [Part000.multiplyDA_loop].
      destruct (Z.gtb_spec n 0) as [|_]; [lia|]. now intros [= <-].
  - pose proof (multiplyDA_error this n e E) as HD.
    apply (multiplyDA_loop_on_curve_error _ _ _ _ _ Hthis
             (or_introl eq_refl)) in E.
    destruct E as [->| ->]; [reflexivity|discriminate].
Qed.

Lemma multiplyDA_on_curve_witness :
  on_curve G = true /\ Part000.multiplyDA G 1 = Ok G /\ on_curve G = true.
Proof.
  split; [exact G_on_curve|]. split; [exact multiplyDA_G_1|].
  pose proof (multiplyDA_on_curve G 1 G_on_curve) as H.
  rewrite multiplyDA_G_1 in H. exact H.
Defined.

(** X14.  [multiplyPreCTJ] on a curve point, called with no table in
    the store, returns a curve point or raises [invert]'s first
    exception (the final [toAffine] met the sentinel), for every integer
    scalar; it raises nothing else. *)
Theorem multiplyPreCTJ_on_curve (st : Store) (this : Point) (n : Z) :
  on_curve this = true ->
  precomputesJ st = None ->
  match snd (Part000.multiplyPreCTJ st this n) with
  | Ok r => on_curve r = true
  | Err e => e = InvertExpectedPositive
  end.
Proof.
  intros Hthis Hst.
  destruct (getPrecomputesJ_fresh st this Hst) as (t & Eg & Hlen & Ht).
  unfold Part000.multiplyPreCTJ. rewrite Eg. cbn [snd bind].
  destruct (multiplyPreCTJ_loop_total 256 0 t n JacobianPoint_ZERO
              JacobianPoint_ZERO) as [pJ El];
    [rewrite Hlen; apply Nat.le_refl|].
  rewrite El. cbn [bind].
  apply multiplyPreCTJ_loop_on_curve in El.
  - destruct El as [->|HpJ]; [rewrite toAffine_ZERO; reflexivity|].
    destruct (toAffine_on_curve pJ HpJ) as (a & -> & Ha). exact Ha.
  - apply (getPrecomputesJ_loop_on_curve 256 []
             (Part000.JacobianPoint_fromAffine this));
      [constructor|now apply fromAffine_on_curve|exact Ht].
  - now left.
Qed.

Lemma multiplyPreCTJ_on_curve_witness :
  on_curve G = true /\ precomputesJ empty_store = None /\
  snd (Part000.multiplyPreCTJ empty_store G 1) = Ok G /\
  on_curve G = true.
Proof.
  split; [exact G_on_curve|]. split; [reflexivity|].
  split; [exact multiplyPreCTJ_G_1|].
  pose proof (multiplyPreCTJ_on_curve empty_store G 1 G_on_curve eq_refl)
    as H.
  rewrite multiplyPreCTJ_G_1 in H. exact H.
Defined.

(** X28.  [multiplyCT] on a curve point, called with no table in the
    store, returns the sentinel [(0, 0)] when the low 256 bits of the
    scalar are zero and a curve point otherwise, or it raises [invert]'s
    first exception; it raises nothing else. *)
Theorem multiplyCT_on_curve (st : Store) (this : Point) (n : Z) :
  on_curve this = true ->
  precomputes st = None ->
  match snd (Part000.multiplyCT st this n) with
  | Ok r => if n mod 2 ^ 256 =? 0 then r = Point_ZERO else on_curve r = true
  | Err e => e = InvertExpectedPositive
  end.
Proof.
  intros Hthis Hst. rewrite multiplyCT_low_bits.
  pose proof (Z.mod_pos_bound n (2 ^ 256) ltac:(lia)) as Hn.
  set (n' := n mod 2 ^ 256) in *.
  destruct (getPrecomputes_loop_on_curve 256 [] this Hthis)
    as (t & Et & Hlen & Hcurve).
  cbn [app] in Et.
  unfold Part000.multiplyCT, Part000.getPrecomputes. rewrite Hst, Et.
  cbn [snd bind].
  pose proof (multiplyCT_loop_curve 256 0 t n' Point_ZERO Point_ZERO Hcurve
                ltac:(rewrite Hlen; apply Nat.le_refl)
                (or_introl eq_refl) (or_introl eq_refl)) as HC.
  destruct (Part000.multiplyCT_loop 256 0 t n' Point_ZERO Point_ZERO)
    as [r|e] eqn:HL; [|exact HC].
  destruct (multiplyDA_fuel_enough n') as (fuel & _ & Hfuel).
  apply (multiplyCT_loop_multiplyDA_loop 256 [] this t n' Point_ZERO
           Point_ZERO r fuel Et Hn Hfuel) in HL.
  destruct (Z.eqb_spec n' 0) as [E|N].
  - rewrite E in HL. cbn in HL. now injection HL as <-.
  - apply (multiplyDA_loop_on_curve _ _ _ _ _ Hthis (or_introl eq_refl)) in HL.
    apply HL. right. lia.
Qed.

Lemma multiplyCT_on_curve_witness :
  on_curve G = true /\ precomputes empty_store = None /\
  on_curve
    (mkPoint
       112711660439710606056748659173929673102114977341539408544630613555209775888121
       25583027980570883691656905877401976406448868254816295069919888960541586679410)
    = true.
Proof.
  split; [exact G_on_curve|]. split; [reflexivity|].
  pose proof (multiplyCT_on_curve empty_store G 3 G_on_curve eq_refl) as H.
  rewrite multiplyCT_G_3 in H. exact H.
Defined.

Lemma multiplyCT_returns_multiplyDA_witness :
  precomputes empty_store = None /\ 0 <= 3 < 2 ^ 256 /\
  snd (Part000.multiplyCT empty_store G 3) =
    Ok (mkPoint
          112711660439710606056748659173929673102114977341539408544630613555209775888121
          25583027980570883691656905877401976406448868254816295069919888960541586679410) /\
  Part000.multiplyDA G 3 =
    Ok (mkPoint
          112711660439710606056748659173929673102114977341539408544630613555209775888121
          25583027980570883691656905877401976406448868254816295069919888960541586679410).
Proof.
  split; [reflexivity|]. split; [split; [discriminate|reflexivity]|].
  split; [exact multiplyCT_G_3|].
  apply (multiplyCT_returns_multiplyDA empty_store G 3);
    [reflexivity|split; [discriminate|reflexivity]|exact multiplyCT_G_3].
Defined.

(** X16.  The table-driven strategies read the low 256 bits of the
    scalar in two's complement and nothing else, so a negative scalar
    counts as its residue modulo [2^256]; [multiplyDA] instead returns
    the sentinel [(0, 0)] for every scalar that is not positive. *)
Theorem table_strategies_read_256_bits (st : Store) (this : Point) (n : Z) :
  Part000.multiplyCT st this n =
    Part000.multiplyCT st this (n mod 2 ^ 256) /\
  Part000.multiplyPreCTJ st this n =
    Part000.multiplyPreCTJ st this (n mod 2 ^ 256) /\
  (n <= 0 -> Part000.multiplyDA this n = Ok Point_ZERO).
Proof.
  split; [apply multiplyCT_low_bits|].
  split; [apply multiplyPreCTJ_low_bits|apply multiplyDA_nonpositive].
Qed.

Lemma table_strategies_read_256_bits_witness :
  -1 <= 0 /\ Part000.multiplyDA G (-1) = Ok Point_ZERO /\
  Part000.multiplyPreCTJ empty_store G (-1) =
    Part000.multiplyPreCTJ empty_store G (2 ^ 256 - 1).
Proof.
  split; [discriminate|].
  destruct (table_strategies_read_256_bits empty_store G (-1))
    as (_ & HJ & HA).
  split; [apply HA; discriminate|exact HJ].
Defined.

(** X17.  The tables are module-level and not keyed by the point: once
    a call on [this] has built one (for [multiplyCT], [this] being a
    curve point), every later call, on whatever point [Q], leaves the
    store as it is and returns what the same call on [this] returns. *)
Theorem precompute_tables_are_shared (st : Store) (this : Point) :
  on_curve this = true ->
  precomputes st = None -> precomputesJ st = None ->
  (exists t,
     length t = 256%nat /\
     forall k,
       fst (Part000.multiplyCT st this k) = mkStore (Some t) None /\
       forall Q n,
         Part000.multiplyCT (mkStore (Some t) None) Q n =
         (mkStore (Some t) None, snd (Part000.multiplyCT st this n))) /\
  (exists t,
     length t = 256%nat /\
     forall k,
       fst (Part000.multiplyPreCTJ st this k) = mkStore None (Some t) /\
       forall Q n,
         Part000.multiplyPreCTJ (mkStore None (Some t)) Q n =
         (mkStore None (Some t), snd (Part000.multiplyPreCTJ st this n))).
Proof.
  intros Hthis Hst HstJ. split.
  - destruct (multiplyCT_shared st this Hthis Hst) as (t & Hlen & H).
    rewrite HstJ in H. eauto.
  - destruct (multiplyPreCTJ_shared st this HstJ) as (t & Hlen & H).
    rewrite Hst in H. eauto.
Qed.

Lemma precompute_tables_are_shared_witness :
  on_curve G = true /\
  precomputes empty_store = None /\ precomputesJ empty_store = None /\
  exists t,
    length t = 256%nat /\
    forall k,
      fst (Part000.multiplyPreCTJ empty_store G k) = mkStore None (Some t) /\
      forall Q n,
        Part000.multiplyPreCTJ (mkStore None (Some t)) Q n =
        (mkStore None (Some t), snd (Part000.multiplyPreCTJ empty_store G n)).
Proof.
  split; [exact G_on_curve|]. split; [reflexivity|]. split; [reflexivity|].
  exact (proj2 (precompute_tables_are_shared empty_store G G_on_curve
                  eq_refl eq_refl)).
Defined.

(** X18.  A build of the table that fails stays in the store.  For a
    point with [y = 0] (the sentinel [(0, 0)] among them) the first
    doubling raises after the point was pushed; the one-entry table is
    then what every later [multiplyCT] reads, on any point and scalar,
    and its second iteration hands [undefined] to [add]: a TypeError. *)
Theorem failed_build_poisons_table (st : Store) (this : Point) :
  Py this = 0 -> precomputes st = None ->
  forall k,
    Part000.multiplyCT st this k =
      (mkStore (Some [this]) (precomputesJ st), Err InvertExpectedPositive) /\
    forall Q n,
      snd (Part000.multiplyCT (mkStore (Some [this]) (precomputesJ st)) Q n) =
        Err TypeError.
Proof.
  intros Hy Hst k. split.
  - unfold Part000.multiplyCT, Part000.getPrecomputes. rewrite Hst.
    rewrite (getPrecomputes_loop_S 255), (Point_double_y0 this Hy).
    reflexivity.
  - intros Q n. unfold Part000.multiplyCT, Part000.getPrecomputes.
    cbn [precomputes snd bind].
    rewrite (multiplyCT_loop_S 255). cbn [nth_error].
    rewrite Point_add_ZERO_l.
    destruct (Z.land n 1 =? 1); cbn [bind];
      rewrite (multiplyCT_loop_S 254); reflexivity.
Qed.

Lemma failed_build_poisons_table_witness :
  Py Point_ZERO = 0 /\ precomputes empty_store = None /\
  Part000.multiplyCT empty_store Point_ZERO 5 =
    (mkStore (Some [Point_ZERO]) None, Err InvertExpectedPositive) /\
  snd (Part000.multiplyCT (mkStore (Some [Point_ZERO]) None) G 5) =
    Err TypeError.
Proof.
  split; [reflexivity|]. split; [reflexivity|].
  destruct (failed_build_poisons_table empty_store Point_ZERO
              eq_refl eq_refl 5) as [H1 H2].
  split; [exact H1|exact (H2 G 5)].
Defined.

(** X19.  [multiplyDA] on an even positive scalar is a doubling followed
    by [multiplyDA] on the half: [this.multiplyDA(2n)] is
    [this.double().multiplyDA(n)], result or exception. *)
Theorem multiplyDA_double (this : Point) (n : Z) :
  0 < n ->
  Part000.multiplyDA this (2 * n) =
  (d <- Part000.Point_double this ;; Part000.multiplyDA d n).
Proof.
  intros Hn. unfold Part000.multiplyDA.
  rewrite multiplyDA_fuel_double by exact Hn.
  cbn [Part000.multiplyDA_loop].
  destruct (Z.gtb_spec (2 * n) 0) as [_|]; [|lia].
  rewrite land_1_mod_2.
  replace ((2 * n) mod 2) with 0
    by (symmetry; rewrite Z.mul_comm; apply Z.mod_mul; lia).
  cbn [Z.eqb negb bind].
  rewrite Z.shiftr_div_pow2, Z.pow_1_r by lia.
  replace (2 * n / 2) with n
    by (symmetry; rewrite Z.mul_comm; apply Z.div_mul; lia).
  reflexivity.
Qed.

Lemma multiplyDA_double_witness :
  0 < 1 /\
  Part000.multiplyDA G (2 * 1) =
  (d <- Part000.Point_double G ;; Part000.multiplyDA d 1).
Proof.
  split; [reflexivity|]. apply (multiplyDA_double G 1). reflexivity.
Defined.

(** X20.  Whatever [multiplyDA] of src/secp256k1.ts returns, [multiplyDA]
    of src/unnamed/part_000 returns as well: the older file differs only
    by raising more often, and its unreduced slope changes no result. *)
Theorem multiplyDA_ts_returns (this : Point) (n : Z) (r : Point) :
  Secp256k1Ts.multiplyDA this n = Ok r -> Part000.multiplyDA this n = Ok r.
Proof. apply multiplyDA_loop_ts_returns. Qed.

Lemma multiplyDA_ts_returns_witness :
  Secp256k1Ts.multiplyDA G 1 = Ok G /\ Part000.multiplyDA G 1 = Ok G.
Proof.
  split; [exact multiplyDA_ts_G_1|].
  exact (multiplyDA_ts_returns G 1 G multiplyDA_ts_G_1).
Defined.

Lemma multiplyDA_ts_error_witness :
  Secp256k1Ts.multiplyDA G 7 = Err InvertExpectedPositive /\
  DomainError InvertExpectedPositive = true.
Proof.
  split; [vm_compute; reflexivity|].
  apply (multiplyDA_ts_error G 7). vm_compute. reflexivity.
Defined.

(** X22.  [mod] with a positive modulus returns the residue in
    [[0, b)]; with a negative modulus it returns a number congruent to
    [a] that lies in [[0, -b)] or in [(2b, b)], so it may be outside
    [(b, -b)]; with modulus [0] it raises a RangeError. *)
Theorem mod_range (a b : Z) :
  (0 < b -> exists r, mod_ a b = Ok r /\ 0 <= r < b /\ (b | a - r)) /\
  (b < 0 -> exists r, mod_ a b = Ok r /\ (b | a - r) /\
            (0 <= r < - b \/ 2 * b < r < b)) /\
  (b = 0 -> mod_ a b = Err RangeError).
Proof.
  split; [|split].
  - intros Hb. exists (a mod b). split; [now apply mod_pos|].
    split; [apply Z.mod_pos_bound, Hb|].
    exists (a / b). pose proof (Z.div_mod a b ltac:(lia)). lia.
  - apply mod_negative.
  - intros ->. reflexivity.
Qed.

Lemma mod_range_witness :
  -7 < 0 /\
  exists r, mod_ (-1) (-7) = Ok r /\ (-7 | -1 - r) /\
            (0 <= r < - -7 \/ 2 * -7 < r < -7).
Proof.
  split; [reflexivity|].
  apply (proj1 (proj2 (mod_range (-1) (-7)))). reflexivity.
Defined.

(** X23.  [invert] is an involution: for a modulus above 1, inverting
    what [invert] returned gives back the value, reduced. *)
Theorem invert_involutive (a m i : Z) :
  1 < m -> Part000.invert a m = Ok i ->
  Part000.invert i m = Ok (a mod m).
Proof.
  intros Hm H. apply invert_returns in H as (Ha & _ & Hi & H1).
  rewrite (Z.mod_small 1 m) in H1 by lia.
  apply invert_unique.
  - intros ->. rewrite Z.mul_0_r, Z.mod_0_l in H1 by lia. discriminate.
  - apply Z.mod_pos_bound. lia.
  - rewrite Z.mul_mod_idemp_r, Z.mul_comm by lia. exact H1.
Qed.

Lemma invert_involutive_witness :
  1 < 7 /\ Part000.invert 3 7 = Ok 5 /\ Part000.invert 5 7 = Ok (3 mod 7).
Proof.
  split; [reflexivity|]. split; [reflexivity|].
  apply (invert_involutive 3 7 5); reflexivity.
Defined.

(** X24.  Modulo [CURVE.P], what [invert] computes with the extended
    Euclidean algorithm is Fermat's inverse [a ^ (P - 2) mod P], for
    every [a] that [P] does not divide. *)
Theorem invert_fermat (a : Z) :
  a mod CURVE.P <> 0 ->
  Part000.invert a CURVE.P = Ok (a ^ (CURVE.P - 2) mod CURVE.P).
Proof.
  intros Ha. apply invert_unique.
  - intros ->. now apply Ha.
  - apply Z.mod_pos_bound, P_pos.
  - rewrite Z.mul_mod_idemp_r by (pose proof P_pos; lia).
    rewrite <- Z.pow_succ_r by (pose proof P_gt_1; lia).
    replace (Z.succ (CURVE.P - 2)) with (CURVE.P - 1) by lia.
    apply Z.fermat_nz; [exact prime_P|exact Ha].
Qed.

Lemma invert_fermat_witness :
  2 mod CURVE.P <> 0 /\
  Part000.invert 2 CURVE.P = Ok (2 ^ (CURVE.P - 2) mod CURVE.P).
Proof.
  split; [discriminate|]. apply (invert_fermat 2). discriminate.
Defined.

(** X25.  In both files, what [getPublicKey] returns for a positive key
    is a curve point, and for a key that is not positive the sentinel
    [(0, 0)]. *)
Theorem getPublicKey_on_curve (privKey : Z) (r : Point) :
  Part000.getPublicKey privKey = Ok r \/
  Secp256k1Ts.getPublicKey privKey = Ok r ->
  if 0 <? privKey then on_curve r = true else r = Point_ZERO.
Proof.
  intros H.
  assert (HA : Part000.multiplyDA G privKey = Ok r).
  { destruct H as [H|H]; [exact H|].
    exact (multiplyDA_loop_ts_returns _ _ _ _ _ H). }
  revert HA. unfold Part000.multiplyDA.
  destruct (Z.ltb_spec 0 privKey) as [Hpos|Hle].
  - intros HA.
    apply (multiplyDA_loop_on_curve _ _ _ _ _ G_on_curve
             (or_introl eq_refl)) in HA.
    apply HA. right. exact Hpos.
  - destruct (multiplyDA_fuel_enough privKey) as (fuel & -> & _).
    cbn [Part000.multiplyDA_loop].
    destruct (Z.gtb_spec privKey 0) as [|_]; [lia|]. now intros [= <-].
Qed.

Lemma getPublicKey_on_curve_witness :
  (Part000.getPublicKey 1 = Ok G \/ Secp256k1Ts.getPublicKey 1 = Ok G) /\
  (if 0 <? 1 then on_curve G = true else G = Point_ZERO).
Proof.
  split; [left; exact multiplyDA_G_1|].
  exact (getPublicKey_on_curve 1 G (or_introl multiplyDA_G_1)).
Defined.

Lemma multiplyPreCTJ_loop_ignores_f (k : nat) :
  forall i t n p f f',
    Part000.multiplyPreCTJ_loop k i t n p f =
    Part000.multiplyPreCTJ_loop k i t n p f'.
Proof.
  induction k as [|k IH]; intros i t n p f f';
    cbn [Part000.multiplyPreCTJ_loop]; [reflexivity|].
  destruct (nth_error t i) as [dbl|]; [|reflexivity].
  destruct (Z.land n 1 =? 1).
  - destruct (Part000.JacobianPoint_add p dbl); cbn [bind];
      [apply IH|reflexivity].
  - destruct (JacobianPoint_add_total f dbl) as [f1 ->].
    destruct (JacobianPoint_add_total f' dbl) as [f1' ->].
    cbn [bind]. apply IH.
Qed.

Lemma multiplyCT_loop_f_agree (k : nat) :
  forall i t n p f f' r r',
    Part000.multiplyCT_loop k i t n p f = Ok r ->
    Part000.multiplyCT_loop k i t n p f' = Ok r' ->
    r = r'.
Proof.
  induction k as [|k IH]; intros i t n p f f' r r';
    cbn [Part000.multiplyCT_loop].
  - intros [= <-] [= <-]. reflexivity.
  - destruct (nth_error t i) as [dbl|]; [|discriminate].
    destruct (Z.land n 1 =? 1).
    + destruct (Part000.Point_add p dbl); cbn [bind]; [apply IH|discriminate].
    + destruct (Part000.Point_add f dbl); cbn [bind]; [|discriminate].
      destruct (Part000.Point_add f' dbl); cbn [bind]; [|discriminate].
      apply IH.
Qed.

(** X26.  The accumulator [f] of the dummy additions never changes a
    result.  The loop of [multiplyPreCTJ] returns the same for every
    [f]; the loop of [multiplyCT] returns the same point for every [f]
    for which it returns, the dummy additions being able to raise. *)
Theorem dummy_accumulator_changes_no_result (k i : nat) (n : Z) :
  (forall t p f f',
     Part000.multiplyPreCTJ_loop k i t n p f =
     Part000.multiplyPreCTJ_loop k i t n p f') /\
  (forall t p f f' r r',
     Part000.multiplyCT_loop k i t n p f = Ok r ->
     Part000.multiplyCT_loop k i t n p f' = Ok r' ->
     r = r').
Proof.
  split.
  - intros t p f f'. apply multiplyPreCTJ_loop_ignores_f.
  - intros t p f f' r r'. apply multiplyCT_loop_f_agree.
Qed.

Lemma dummy_accumulator_changes_no_result_witness :
  Part000.multiplyCT_loop 1 0 [G] 0 Point_ZERO Point_ZERO = Ok Point_ZERO /\
  Part000.multiplyCT_loop 1 0 [G] 0 Point_ZERO G = Ok Point_ZERO /\
  Point_ZERO = Point_ZERO.
Proof.
  split; [reflexivity|]. split; [vm_compute; reflexivity|].
  apply (proj2 (dummy_accumulator_changes_no_result 1 0 0)
           [G] Point_ZERO Point_ZERO G Point_ZERO Point_ZERO).
  - reflexivity.
  - vm_compute. reflexivity.
Defined.

Lemma invert_P_raises_iff (a : Z) :
  is_err (Part000.invert a CURVE.P) = true <-> a mod CURVE.P = 0.
Proof.
  rewrite <- fe_0_iff. split.
  - intros H.
    destruct (Zmod.eqb_spec (fe a) Zmod.zero) as [E|N]; [exact E|].
    destruct (invert_fe a N) as (i & Ei & _). rewrite Ei in H. discriminate.
  - intros H. destruct (invert_fe_0 a H) as [e ->]. reflexivity.
Qed.

(** X27.  When the operations raise, whatever the coordinates: the
    affine [double] exactly when [y] is a multiple of [P], [toAffine]
    exactly when [z] is, and the affine [add], on operands with no zero
    coordinate and different [x], exactly when the two [x] are congruent
    modulo [P]. *)
Theorem operations_raise_exactly (p q : Point) (j : JacobianPoint) :
  (is_err (Part000.Point_double p) = true <-> Py p mod CURVE.P = 0) /\
  (is_err (Part000.JacobianPoint_toAffine j) = true <->
   Jz j mod CURVE.P = 0) /\
  (Px p <> 0 -> Py p <> 0 -> Px q <> 0 -> Py q <> 0 -> Px p <> Px q ->
   (is_err (Part000.Point_add p q) = true <->
    (Px q - Px p) mod CURVE.P = 0)).
Proof.
  split; [|split].
  - assert (E : (2 * Py p) mod CURVE.P = 0 <-> Py p mod CURVE.P = 0).
    { rewrite <- !fe_0_iff, fe_mul, fe_2. split.
      - intros H. apply (Zmod.mul_0_iff_prime prime_P) in H.
        destruct H as [H|H]; [destruct (F_two_nz H)|exact H].
      - intros ->. apply Zmod.mul_0_r. }
    rewrite <- E, <- invert_P_raises_iff.
    unfold Part000.Point_double.
    destruct (Part000.invert (2 * Py p) CURVE.P); cbn [bind is_err];
      [|tauto].
    repeat (rewrite mod_P; cbn [bind]). tauto.
  - rewrite <- invert_P_raises_iff.
    unfold Part000.JacobianPoint_toAffine, Part000.JacobianPoint_toAffine_with.
    destruct (Part000.invert (Jz j) CURVE.P); cbn [bind is_err]; [|tauto].
    cbv zeta. repeat (rewrite mod_P; cbn [bind]). tauto.
  - intros Hx1 Hy1 Hx2 Hy2 Hne.
    rewrite <- invert_P_raises_iff.
    unfold Part000.Point_add. cbv zeta.
    destruct (Z.eqb_spec (Px p) 0) as [|_]; [contradiction|].
    destruct (Z.eqb_spec (Py p) 0) as [|_]; [contradiction|].
    destruct (Z.eqb_spec (Px q) 0) as [|_]; [contradiction|].
    destruct (Z.eqb_spec (Py q) 0) as [|_]; [contradiction|].
    destruct (Z.eqb_spec (Px p) (Px q)) as [|_]; [contradiction|].
    cbn [orb andb].
    destruct (Part000.invert (Px q - Px p) CURVE.P); cbn [bind is_err];
      [|tauto].
    repeat (rewrite mod_P; cbn [bind]). tauto.
Qed.

Lemma operations_raise_exactly_witness :
  (is_err (Part000.Point_double Point_ZERO) = true <->
   Py Point_ZERO mod CURVE.P = 0) /\
  (is_err (Part000.JacobianPoint_toAffine JacobianPoint_ZERO) = true <->
   Jz JacobianPoint_ZERO mod CURVE.P = 0).
Proof.
  destruct (operations_raise_exactly Point_ZERO Point_ZERO
              JacobianPoint_ZERO) as (H1 & H2 & _).
  split; [exact H1|exact H2].
Defined.

(** X29.  src/secp256k1.ts on curve points.  Its [double] is that of
    part_000.  Its [add], on points with different [x], is that of
    part_000 when the second operand has the larger [x], and raises
    otherwise, the difference [X2 - X1] handed to [invert] being
    negative: of [p.add(q)] and [q.add(p)] exactly one returns. *)
Theorem add_ts_on_curve (p q : Point) :
  on_curve p = true -> on_curve q = true -> Px p <> Px q ->
  Secp256k1Ts.Point_double p = Part000.Point_double p /\
  if Px p <? Px q then
    Secp256k1Ts.Point_add p q = Part000.Point_add p q /\
    is_err (Part000.Point_add p q) = false
  else Secp256k1Ts.Point_add p q = Err InvertExpectedPositive.
Proof.
  intros Hp Hq Hne.
  destruct (curve_point_nonzero p Hp) as [Hx1 Hy1].
  destruct (curve_point_nonzero q Hq) as [Hx2 Hy2].
  pose proof (Point_add_on_curve p q Hp Hq) as Hadd.
  apply on_curve_spec in Hp as (Rx1 & Ry1 & _).
  apply on_curve_spec in Hq as (Rx2 & Ry2 & _).
  apply reduced_spec in Rx1, Ry1, Rx2, Ry2.
  split; [apply Point_double_ts_positive; lia|].
  destruct (Z.eqb_spec (Px p) (Px q)) as [|_]; [contradiction|].
  destruct Hadd as (r & Er & _).
  destruct (Z.ltb_spec (Px p) (Px q)) as [Hlt|Hge].
  - rewrite Er. split; [|reflexivity].
    destruct (Secp256k1Ts.Point_add p q) as [r'|e] eqn:Ets.
    + apply Point_add_ts_returns in Ets. congruence.
    + exfalso. revert Ets. unfold Secp256k1Ts.Point_add. cbv zeta.
      destruct (Z.eqb_spec (Px p) 0) as [|_]; [contradiction|].
      destruct (Z.eqb_spec (Py p) 0) as [|_]; [contradiction|].
      destruct (Z.eqb_spec (Px q) 0) as [|_]; [contradiction|].
      destruct (Z.eqb_spec (Py q) 0) as [|_]; [contradiction|].
      destruct (Z.eqb_spec (Px p) (Px q)) as [|_]; [contradiction|].
      cbn [orb andb]. rewrite mod_P. cbn [bind].
      rewrite invert_ts_positive by lia.
      destruct (Z.leb_spec CURVE.P 0) as [H|_]; [pose proof P_pos; lia|].
      destruct (invert_fe (Px q - Px p)) as (i & -> & _).
      { rewrite fe_0_iff, Z.mod_small by lia. lia. }
      cbn [bind]. repeat (rewrite mod_P; cbn [bind]). discriminate.
  - apply Point_add_ts_descending; try assumption. lia.
Qed.

Lemma add_ts_on_curve_witness :
  on_curve G = true /\
  on_curve (mkPoint
    89565891926547004231252920425935692360644145829622209833684329913297188986597
    12158399299693830322967808612713398636155367887041628176798871954788371653930)
    = true /\
  Secp256k1Ts.Point_add
    (mkPoint
       89565891926547004231252920425935692360644145829622209833684329913297188986597
       12158399299693830322967808612713398636155367887041628176798871954788371653930)
    G = Err InvertExpectedPositive.
Proof.
  split; [exact G_on_curve|]. split; [vm_compute; reflexivity|].
  apply (add_ts_on_curve
           (mkPoint
              89565891926547004231252920425935692360644145829622209833684329913297188986597
              12158399299693830322967808612713398636155367887041628176798871954788371653930)
           G); [vm_compute; reflexivity|exact G_on_curve|discriminate].
Defined.

Lemma getPrecomputesJ_loop_chain (k : nat) :
  forall acc d,
    exists ds,
      Part000.getPrecomputesJ_loop k acc d = (acc ++ ds, Ok tt) /\
      length ds = k /\
      (0 < k -> nth_error ds 0 = Some d)%nat /\
      forall i e,
        (S i < k)%nat -> nth_error ds i = Some e ->
        exists e', Part000.JacobianPoint_double e = Ok e' /\
                   nth_error ds (S i) = Some e'.
Proof.
  induction k as [|k IH]; intros acc d; cbn [Part000.getPrecomputesJ_loop].
  - exists []. rewrite app_nil_r. repeat split; intros; lia.
  - destruct (JacobianPoint_double_total d) as [d' Ed]. rewrite Ed.
    destruct (IH (acc ++ [d]) d') as (ds & -> & Hlen & H0 & Hstep).
    exists (d :: ds). rewrite <- app_assoc. split; [reflexivity|].
    split; [cbn [length]; now rewrite Hlen|].
    split; [reflexivity|].
    intros [|i] e Hi; cbn [nth_error].
    + intros [= <-]. exists d'. split; [exact Ed|]. apply H0. lia.
    + intros He. apply Hstep; [lia|exact He].
Qed.

(** X30.  The Jacobian table.  A call of [getPrecomputesJ] that finds
    no table stores and returns 256 entries: the first is the point in
    Jacobian form, and each further one is the [double] of the entry
    before it.  A call that finds a table returns it as it is, whatever
    the point. *)
Theorem getPrecomputesJ_table (st : Store) (this : Point) :
  match precomputesJ st with
  | Some t => Part000.getPrecomputesJ st this = (st, Ok t)
  | None =>
      exists t,
        Part000.getPrecomputesJ st this =
          (mkStore (precomputes st) (Some t), Ok t) /\
        length t = 256%nat /\
        nth_error t 0 = Some (Part000.JacobianPoint_fromAffine this) /\
        forall i e,
          (S i < 256)%nat -> nth_error t i = Some e ->
          exists e', Part000.JacobianPoint_double e = Ok e' /\
                     nth_error t (S i) = Some e'
  end.
Proof.
  unfold Part000.getPrecomputesJ.
  destruct (precomputesJ st) as [t|]; [reflexivity|].
  destruct (getPrecomputesJ_loop_chain 256 []
              (Part000.JacobianPoint_fromAffine this))
    as (t & -> & Hlen & H0 & Hstep).
  cbn [app bind]. exists t. split; [reflexivity|].
  split; [exact Hlen|]. split; [apply H0; lia|exact Hstep].
Qed.
